(** * JsMacros Version Finder: the query and validation layer

    A shallow embedding of [src/dataLoader.ts] (catalog loading, version
    comparison and the two sorts), of the [App] component (guided filter,
    free-text search, sort by key, the state with its effect and handlers,
    the label of the platforms) and of [scripts/validate.ts] (the run of the
    validator with its check for duplicate ids), with the properties of the
    specification, and further properties of the code, stated and proved
    over them.

    JavaScript numbers are IEEE 754 binary64 values ([spec_float] at
    precision 53); strings are sequences of code units, here the code units
    below 256.  Functions of the host that the program does not define
    (parsing of a date string, locale-sensitive collation, [fetch]) are
    parameters of the definitions that call them. *)

From Stdlib Require Import ZArith Lia List String Ascii Bool.
From Stdlib Require Import Sorting.Sorted Sorting.Permutation.
From Stdlib Require Import Floats.SpecFloat DecimalString.
From stdpp Require Import gmap strings.

(* ================================================================== *)
(** * Part I: the model                                                *)
(* ================================================================== *)

(** ** Numbers *)
Module JsNum.
Local Open Scope Z_scope.

Definition prec : Z := 53.
Definition emax : Z := 1024.
Definition number := spec_float.

Definition zero : number := S754_zero false.
Definition sub : number -> number -> number := SFsub prec emax.
Definition mul : number -> number -> number := SFmul prec emax.
Definition neg : number -> number := SFopp.

(** The number nearest to an integer, ties to even. *)
Definition of_Z (z : Z) : number := binary_normalize prec emax z 0 false.

(** The number nearest to [(-1)^s * num / den], ties to even. *)
Definition of_ratio (s : bool) (num den : positive) : number :=
  let '(q, e, l) := SFdiv_core_binary prec emax (Zpos num) 0 (Zpos den) 0 in
  binary_round_aux prec emax s q e l.

(** [x === y], [x < y] and [x > y] on numbers. *)
Definition eqb (x y : number) : bool := SFeqb x y.
Definition ltb (x y : number) : bool := SFltb x y.
Definition gtb (x y : number) : bool := SFltb y x.

(** [ToBoolean] of a number, and [x || d]. *)
Definition truthy (x : number) : bool :=
  match x with S754_nan | S754_zero _ => false | _ => true end.
Definition or_else (x d : number) : number := if truthy x then x else d.

(** *** Vocabulary of the proofs *)

Definition fexp64 (e : Z) : Z := Z.max (e - 53) (-1074).

(** A number in the representation of binary64. *)
Definition valid (x : number) : Prop :=
  x <> S754_nan /\ valid_binary prec emax x = true.

(** The signed mantissa of [m * 2^e] at the smaller exponent [ez]. *)
Definition aligned (s : bool) (m : positive) (e ez : Z) : Z :=
  cond_Zopp s (Zpos (fst (shl_align m e ez))).

(** Comparison of two numbers by their exact values; [None] when one of
    them is NaN.  Two finite numbers are compared at their common smaller
    exponent, the way [SFsub] aligns them. *)
Definition compare (x y : number) : option comparison :=
  match x, y with
  | S754_nan, _ | _, S754_nan => None
  | S754_infinity sx, S754_infinity sy =>
      Some (if sx then (if sy then Eq else Lt) else (if sy then Gt else Eq))
  | S754_infinity s, _ => Some (if s then Lt else Gt)
  | _, S754_infinity s => Some (if s then Gt else Lt)
  | S754_zero _, S754_zero _ => Some Eq
  | S754_zero _, S754_finite s _ _ => Some (if s then Gt else Lt)
  | S754_finite s _ _, S754_zero _ => Some (if s then Lt else Gt)
  | S754_finite sx mx ex, S754_finite sy my ey =>
      let ez := Z.min ex ey in
      Some (Z.compare (aligned sx mx ex ez) (aligned sy my ey ez))
  end.

(** Well-formed results, canonical or not: not NaN, and a finite number has
    an exponent of at least [emin = -1074]. *)
Definition wf (x : number) : Prop :=
  match x with
  | S754_nan => False
  | S754_finite _ _ e => -1074 <= e
  | _ => True
  end.

(** [signed s r]: [r] is a well-formed number of sign [s]. *)
Definition signed (s : bool) (r : number) : Prop :=
  match r with
  | S754_zero s' | S754_infinity s' => s' = s
  | S754_finite s' _ e => s' = s /\ -1074 <= e
  | S754_nan => False
  end.

(** A mantissa (which may be [0]) at the exponent canonical for it. *)
Definition canon (m e : Z) : Prop := 0 <= m /\ fexp64 (Zdigits2 m + e) = e.

Definition nonzero (r : number) : Prop :=
  match r with S754_zero _ => False | _ => True end.

(** The exact value of a well-formed number in units of [2^-1074], behind a
    class that puts the infinities at the two ends. *)
Definition ord (x : number) : Z * Z :=
  match x with
  | S754_infinity true => (-1, 0)
  | S754_infinity false => (1, 0)
  | S754_finite s m e => (0, cond_Zopp s (Zpos m * 2 ^ (e + 1074)))
  | _ => (0, 0)
  end.

Definition lex (p q : Z * Z) : comparison :=
  match Z.compare (fst p) (fst q) with
  | Eq => Z.compare (snd p) (snd q)
  | c => c
  end.

End JsNum.

(** ** Strings *)
Module JsString.
Local Open Scope string_scope.

Definition code (c : ascii) : N := N_of_ascii c.

(** White space and line terminators, as stripped by [trim] and by the
    conversion of a string to a number: TAB, LF, VT, FF, CR, SP, NBSP. *)
Definition isWhiteSpace (c : ascii) : bool :=
  let n := code c in
  ((9 <=? n) && (n <=? 13) || (n =? 32) || (n =? 160))%N.

Fixpoint trimStart (s : string) : string :=
  match s with
  | String c s' => if isWhiteSpace c then trimStart s' else s
  | EmptyString => EmptyString
  end.

Fixpoint trimEnd (s : string) : string :=
  match s with
  | EmptyString => EmptyString
  | String c s' =>
      match trimEnd s' with
      | EmptyString => if isWhiteSpace c then EmptyString else String c EmptyString
      | t => String c t
      end
  end.

Definition trim (s : string) : string := trimEnd (trimStart s).

(** [toLowerCase] on the strings of code units below 256.  The upper-case
    letters below 256 are A-Z, and U+00C0-U+00DE without the multiplication
    sign U+00D7; each is mapped by itself, whatever stands next to it.  (Above
    256 that is not so: the lower case of the capital sigma, U+03A3, depends
    on the letters around it.  A property of the search that compares a
    string with a part of it is therefore stated on the lower-cased
    strings.) *)
Definition lowerChar (c : ascii) : ascii :=
  let n := code c in
  if ((65 <=? n) && (n <=? 90)
      || (192 <=? n) && (n <=? 222) && negb (n =? 215))%N
  then ascii_of_N (n + 32) else c.

Fixpoint toLowerCase (s : string) : string :=
  match s with
  | EmptyString => EmptyString
  | String c s' => String (lowerChar c) (toLowerCase s')
  end.

Fixpoint startsWith (s t : string) {struct t} : bool :=
  match t, s with
  | EmptyString, _ => true
  | String _ _, EmptyString => false
  | String b t', String a s' => Ascii.eqb a b && startsWith s' t'
  end.

(** [s.includes(t)] *)
Fixpoint includes (s t : string) : bool :=
  startsWith s t ||
  match s with
  | EmptyString => false
  | String _ s' => includes s' t
  end.

(** [s.split(sep)] for a separator of one code unit. *)
Fixpoint split (sep : ascii) (s : string) : list string :=
  match s with
  | EmptyString => [EmptyString]
  | String c s' =>
      if Ascii.eqb c sep then EmptyString :: split sep s'
      else match split sep s' with
           | p :: ps => String c p :: ps
           | [] => [String c EmptyString]
           end
  end.

(** [l.join(sep)] *)
Fixpoint join (sep : string) (l : list string) : string :=
  match l with
  | [] => EmptyString
  | [x] => x
  | x :: l' => x ++ sep ++ join sep l'
  end.

(** A string is falsy when it is empty. *)
Definition isEmpty (s : string) : bool :=
  match s with EmptyString => true | _ => false end.

(** The code unit [c] is in [s]. *)
Fixpoint hasChar (c : ascii) (s : string) : bool :=
  match s with
  | EmptyString => false
  | String d s' => Ascii.eqb d c || hasChar c s'
  end.

(** [t] occurs in [s]. *)
Definition occursIn (t s : string) : Prop :=
  exists pre post, s = pre ++ t ++ post.

(** The double quote, and the decimal numeral of a natural number as a
    template literal prints it. *)
Definition dquote : string := String (ascii_of_nat 34) EmptyString.
Definition decimal (n : N) : string := NilZero.string_of_uint (N.to_uint n).

End JsString.

(** ** Conversion of a string to a number: [Number(s)] *)
Module JsConv.
Import JsNum JsString.
Local Open Scope Z_scope.

Definition isChar (c : ascii) (s : string) : bool :=
  match s with
  | String d EmptyString => Ascii.eqb c d
  | _ => false
  end.

(** The value of [c] as a digit in [base] (at most 16), if it is one. *)
Definition digitOf (base : Z) (c : ascii) : option Z :=
  let n := Z.of_N (code c) in
  let v := if (48 <=? n) && (n <=? 57) then n - 48
           else if (97 <=? n) && (n <=? 102) then n - 87
           else if (65 <=? n) && (n <=? 70) then n - 55
           else 16 in
  if v <? base then Some v else None.

(** Reads the longest run of digits: the value read onto [acc], the count
    of digits added to [n], and the rest of the string. *)
Fixpoint scanDigits (base : Z) (s : string) (acc n : Z) : Z * Z * string :=
  match s with
  | String c s' =>
      match digitOf base c with
      | Some d => scanDigits base s' (acc * base + d) (n + 1)
      | None => (acc, n, s)
      end
  | EmptyString => (acc, n, s)
  end.

(** The number nearest to [(-1)^sgn * m * 10^k], ties to even. *)
Definition of_decimal (sgn : bool) (m k : Z) : number :=
  match m with
  | Zpos p =>
      if 0 <=? k then of_ratio sgn (p * Z.to_pos (10 ^ k)) 1
      else of_ratio sgn p (Z.to_pos (10 ^ (- k)))
  | _ => S754_zero sgn
  end.

(** What follows the mantissa: nothing, or [e], an optional sign and at
    least one digit, up to the end of the string. *)
Definition exponentPart (s : string) : option Z :=
  match s with
  | EmptyString => Some 0
  | String c r =>
      if isChar c "e" || isChar c "E" then
        let '(sg, r') :=
          match r with
          | String d t =>
              if isChar d "+" then (false, t)
              else if isChar d "-" then (true, t) else (false, r)
          | EmptyString => (false, r)
          end in
        match scanDigits 10 r' 0 0 with
        | (v, n, EmptyString) => if 0 <? n then Some (if sg then - v else v) else None
        | _ => None
        end
      else None
  end.

(** [Infinity], or digits with an optional fraction and exponent. *)
Definition unsignedDecimal (sgn : bool) (s : string) : number :=
  if String.eqb s "Infinity" then S754_infinity sgn else
  let '(i, ni, r1) := scanDigits 10 s 0 0 in
  let '(m, nf, r2) :=
    match r1 with
    | String c r => if isChar c "." then scanDigits 10 r i 0 else (i, 0, r1)
    | EmptyString => (i, 0, r1)
    end in
  if ni + nf =? 0 then S754_nan
  else match exponentPart r2 with
       | Some e => of_decimal sgn m (e - nf)
       | None => S754_nan
       end.

(** [0x], [0o] and [0b] literals; they take no sign. *)
Definition radixLiteral (s : string) : option number :=
  match s with
  | String z (String c r) =>
      let base :=
        if negb (isChar z "0") then None
        else if isChar c "x" || isChar c "X" then Some 16
        else if isChar c "o" || isChar c "O" then Some 8
        else if isChar c "b" || isChar c "B" then Some 2
        else None in
      match base with
      | Some b =>
          Some match scanDigits b r 0 0 with
               | (v, n, EmptyString) => if 0 <? n then of_decimal false v 0 else S754_nan
               | _ => S754_nan
               end
      | None => None
      end
  | _ => None
  end.

(** The empty or blank string is [0]; a string that is no numeric literal
    is NaN. *)
Definition StringToNumber (s : string) : number :=
  let t := trim s in
  match t with
  | EmptyString => zero
  | String c r =>
      match radixLiteral t with
      | Some v => v
      | None =>
          if isChar c "+" then unsignedDecimal false r
          else if isChar c "-" then unsignedDecimal true r
          else unsignedDecimal false t
      end
  end.

Definition Number (s : string) : number := StringToNumber s.

End JsConv.

(** ** Completions: a value, or a thrown exception *)
Module Completion.

(** What a [catch] clause can tell of a thrown value: an [Error] with its
    message, or anything else. *)
Inductive thrown : Type :=
  | ErrorObject (message : string)
  | OtherValue.

Inductive completion (A : Type) : Type :=
  | Normal (a : A)
  | Throw (e : thrown).
Arguments Normal {A} a.
Arguments Throw {A} e.

Definition bind {A B} (c : completion A) (k : A -> completion B) : completion B :=
  match c with
  | Normal a => k a
  | Throw e => Throw e
  end.

(** [try { body } catch (err) { handler }] *)
Definition tryCatch {A} (body : completion A) (handler : thrown -> completion A)
  : completion A :=
  match body with
  | Normal a => Normal a
  | Throw e => handler e
  end.

Notation "'let!' x ':=' c 'in' k" := (bind c (fun x => k))
  (at level 10, x name, c at level 100, k at level 200).

End Completion.

(** ** src/src/types.ts *)
Module Types.

Inductive Platform := pFabric | pForge | pNeoforge | pExtension | pTs | pOther | pPython.
Inductive Loader := fabric | forge | neoforge.
Inductive ReleaseType := release | beta | nightly.
Inductive Status := supported | deprecated | experimental.

(** The strings these values are at run time. *)
Definition loaderName (l : Loader) : string :=
  match l with fabric => "fabric" | forge => "forge" | neoforge => "neoforge" end.
Definition releaseTypeName (r : ReleaseType) : string :=
  match r with release => "release" | beta => "beta" | nightly => "nightly" end.

Definition Loader_eqb (a b : Loader) : bool :=
  match a, b with
  | fabric, fabric | forge, forge | neoforge, neoforge => true
  | _, _ => false
  end.

Record Download := {
  name : string;
  platform : Platform + list Platform;
  url : string;
  checksum : option string;
  downloadNotes : option string
}.

Record Build := {
  id : string;
  repo : string;
  fork : string;
  commit : string;
  jsMacrosVersion : string;
  modLoader : list Loader;
  extensions : list string;
  downloads : list Download;
  releaseType : ReleaseType;
  status : option Status;
  publishedAt : option string;
  notes : option string
}.

(** [Record<string, Build[]>], as the sequence of its entries that
    [Object.entries] enumerates. *)
Record BuildsData := {
  updatedAt : string;
  versions : list (string * list Build)
}.

(** [interface EnrichedBuild extends Build { mcVersion: string }] *)
Record EnrichedBuild := {
  build :> Build;
  mcVersion : string
}.

End Types.

(** ** Array.prototype.sort with a comparator *)
Module JsArray.
Import JsNum.

Section Sort.
Context {A : Type}.
Variable comparator : A -> A -> number.

(** [x] goes after [y] when [comparator(x, y) > 0]; a NaN result counts
    as [0]. *)
Definition after (x y : A) : bool := gtb (comparator x y) zero.

(** The sort is stable: each element is put in front of the sorted rest of
    the array and moves right only past elements it goes after.  Every sort
    that follows a consistent comparator gives this result; for a
    comparator that is not consistent the language leaves the order to the
    implementation. *)
Fixpoint insert (x : A) (l : list A) : list A :=
  match l with
  | [] => [x]
  | y :: l' => if after x y then y :: insert x l' else x :: l
  end.

Definition sort (l : list A) : list A := fold_right insert [] l.

End Sort.

End JsArray.

(** ** src/src/dataLoader.ts *)
Module DataLoader.
Import JsNum JsString JsConv Completion Types JsArray.
Local Open Scope string_scope.

(** What [fetch] resolves to: the status, and what [res.json()] does. *)
Record Response := {
  res_status : N;
  res_json : completion BuildsData
}.

(** [res.ok]: the status is in the range 200-299. *)
Definition ok (res : Response) : bool :=
  ((200 <=? res_status res) && (res_status res <=? 299))%N.

Record LoadResult := {
  data : option BuildsData;
  builds : list EnrichedBuild;
  error : option string
}.

(** [Object.entries(versions).flatMap(([mcVersion, arr]) =>
      arr.map((b) => ({ ...b, mcVersion })))] *)
Definition flatten (versions : list (string * list Build)) : list EnrichedBuild :=
  flat_map (fun '(mcVersion, arr) =>
              map (fun b => {| build := b; mcVersion := mcVersion |}) arr)
           versions.

(** [loadBuilds], over the outcome of [fetch(url)].  The completion is how
    the promise of the [async] function settles: [Normal] when it is
    fulfilled, [Throw] when it is rejected. *)
Definition loadBuilds (fetch : string -> completion Response) (url : string)
  : completion LoadResult :=
  tryCatch
    (let! res := fetch url in
     if negb (ok res) then
       Normal {| data := None; builds := [];
                 error := Some ("Failed to fetch data (" ++ decimal (res_status res) ++ ")") |}
     else
       let! json := res_json res in
       Normal {| data := Some json; builds := flatten (versions json); error := None |})
    (fun err =>
       Normal {| data := None; builds := [];
                 error := Some match err with
                               | ErrorObject message => message
                               | OtherValue => "Unknown error"
                               end |}).

(** [a.split('.').map((v) => Number(v) || 0)] *)
Definition component (v : string) : number := or_else (Number v) zero.
Definition parts (a : string) : list number := map component (split "." a).

(** [ap[i] ?? 0] *)
Definition at_ (ap : list number) (i : nat) : number := nth i ap zero.

(** The loop [for (let i = 0; i < len; i++)], entered at [i] with [n]
    iterations left; [Some r] when the body returns [r]. *)
Fixpoint loop (ap bp : list number) (i n : nat) : option number :=
  match n with
  | O => None
  | S n' =>
      let av := at_ ap i in
      let bv := at_ bp i in
      if negb (eqb av bv) then Some (sub av bv)
      else loop ap bp (S i) n'
  end.

(** [ap.length - bp.length]: the lengths of two arrays are integers below
    [2^32], so their difference is formed exactly. *)
Definition lengthDiff (ap bp : list number) : number :=
  of_Z (Z.of_nat (length ap) - Z.of_nat (length bp)).

Definition compareVersions (a b : string) : number :=
  let ap := parts a in
  let bp := parts b in
  let len := Nat.max (length ap) (length bp) in
  match loop ap bp 0 len with
  | Some r => r
  | None => lengthDiff ap bp
  end.

(** [Array.from(new Set(values))]: the values in the order of their first
    occurrence. *)
Fixpoint distinct (seen : gset string) (values : list string) : list string :=
  match values with
  | [] => []
  | v :: rest =>
      if decide (v ∈ seen) then distinct seen rest
      else v :: distinct (seen ∪ {[ v ]}) rest
  end.

Inductive SortDirection := asc | desc.

Definition sortVersions (values : list string) (direction : SortDirection) : list string :=
  let uniq := distinct ∅ values in
  JsArray.sort (fun a b => match direction with
                           | asc => compareVersions a b
                           | desc => compareVersions b a
                           end) uniq.

End DataLoader.

(** ** The selectors of the [App] component *)
Module App.
Import JsNum JsString JsConv Types DataLoader JsArray.
Local Open Scope string_scope.

Inductive SortKey := byPublishedAt | byMcVersion | byJsMacrosVersion.

(** [required.every((ext) => build.extensions.includes(ext))] *)
Definition buildMatchesExtensions (b : EnrichedBuild) (required : list string) : bool :=
  if Nat.eqb (length required) 0 then true
  else forallb (fun ext => existsb (String.eqb ext) (extensions b)) required.

(** The filter of [guideResults].  [selectedMcVersion] is a string, empty
    when no version is selected; [selectedLoader] is a [Loader] or the empty
    string, here [None]. *)
Definition guideMatches (selectedMcVersion : string) (selectedLoader : option Loader)
    (extensionFilters : list string) (b : EnrichedBuild) : bool :=
  if negb (isEmpty selectedMcVersion)
     && negb (String.eqb (mcVersion b) selectedMcVersion) then false
  else if match selectedLoader with
          | Some l => negb (existsb (Loader_eqb l) (modLoader b))
          | None => false
          end then false
  else buildMatchesExtensions b extensionFilters.

Definition guideResults (builds : list EnrichedBuild) (selectedMcVersion : string)
    (selectedLoader : option Loader) (extensionFilters : list string)
  : list EnrichedBuild :=
  List.filter (guideMatches selectedMcVersion selectedLoader extensionFilters) builds.

(** The text a search term is looked up in. *)
Definition haystack (b : EnrichedBuild) : string :=
  toLowerCase
    (join " " [ mcVersion b;
                jsMacrosVersion b;
                fork b;
                repo b;
                releaseTypeName (releaseType b);
                join " " (map loaderName (modLoader b));
                join " " (extensions b);
                match notes b with Some n => n | None => EmptyString end ]).

(** The filter of [listResults], with [term = search.trim().toLowerCase()]. *)
Definition searchMatches (search : string) (b : EnrichedBuild) : bool :=
  let term := toLowerCase (trim search) in
  if isEmpty term then true
  else includes (haystack b) term.

Section Host.

(** [new Date(s).getTime()]: the time value in milliseconds, [None] for an
    invalid date. *)
Variable dateTime : string -> option Z.

(** [a.localeCompare(b)]: negative, zero or positive, by the collation of
    the host's locale. *)
Variable localeCompare : string -> string -> Z.

Definition getTime (s : string) : number :=
  match dateTime s with
  | Some t => of_Z t
  | None => S754_nan
  end.

(** [a.publishedAt ? new Date(a.publishedAt).getTime() : 0] *)
Definition stamp (a : EnrichedBuild) : number :=
  match publishedAt a with
  | Some s => if isEmpty s then zero else getTime s
  | None => zero
  end.

Definition factor (d : SortDirection) : number :=
  match d with asc => of_Z 1 | desc => of_Z (-1) end.

(** The comparator of the sort in [listResults]. *)
Definition comparator (sortKey : SortKey) (sortDirection : SortDirection)
    (a b : EnrichedBuild) : number :=
  match sortKey with
  | byPublishedAt => mul (sub (stamp a) (stamp b)) (factor sortDirection)
  | byMcVersion =>
      mul (compareVersions (mcVersion a) (mcVersion b)) (factor sortDirection)
  | byJsMacrosVersion =>
      mul (of_Z (localeCompare (jsMacrosVersion a) (jsMacrosVersion b)))
          (factor sortDirection)
  end.

Definition listResults (builds : list EnrichedBuild) (search : string)
    (sortKey : SortKey) (sortDirection : SortDirection) : list EnrichedBuild :=
  let filtered := List.filter (searchMatches search) builds in
  JsArray.sort (comparator sortKey sortDirection) filtered.

End Host.

End App.

(** ** scripts/validate.ts: the check for duplicate ids *)
Module Validate.
Import JsString Types.
Local Open Scope string_scope.

(** What a run leaves behind: the exit code and the lines printed. *)
Record Outcome := {
  exitCode : Z;
  stderr : list string;
  stdout : list string
}.

(** The inner loop over the builds of one group: the duplicate id that
    ends the run, or the set of ids seen. *)
Fixpoint scanBuilds (ids : gset string) (builds : list Build) : string + gset string :=
  match builds with
  | [] => inr ids
  | b :: rest =>
      if decide (id b ∈ ids) then inl (id b)
      else scanBuilds (ids ∪ {[ id b ]}) rest
  end.

(** The outer loop over the groups: the first duplicate id and the group
    it is met in. *)
Fixpoint scanGroups (ids : gset string) (groups : list (string * list Build))
  : option (string * string) :=
  match groups with
  | [] => None
  | (mcVersion, builds) :: rest =>
      match scanBuilds ids builds with
      | inl dup => Some (dup, mcVersion)
      | inr ids' => scanGroups ids' rest
      end
  end.

(** [main] once the schema has accepted the file; [file] is
    [basename(file)]. *)
Definition checkDuplicates (file : string) (data : BuildsData) : Outcome :=
  match scanGroups ∅ (versions data) with
  | Some (dup, mcVersion) =>
      {| exitCode := 1;
         stderr := [ "Validation failed for " ++ file ++ ": Duplicate build id "
                     ++ dquote ++ dup ++ dquote ++ " for Minecraft version "
                     ++ mcVersion ];
         stdout := [] |}
  | None =>
      {| exitCode := 0; stderr := []; stdout := [ file ++ " is valid." ] |}
  end.

End Validate.

(** ** Instances of the host functions *)
Module Host.
Import JsString JsConv.
Local Open Scope Z_scope.

Definition isLeap (y : Z) : bool :=
  (y mod 4 =? 0) && (negb (y mod 100 =? 0) || (y mod 400 =? 0)).

Definition daysInMonth (y m : Z) : Z :=
  if (m =? 2) then (if isLeap y then 29 else 28)
  else if (m =? 4) || (m =? 6) || (m =? 9) || (m =? 11) then 30
  else 31.

(** Days from 1970-01-01 to the day [d] of month [m] of year [y]. *)
Definition daysFromCivil (y m d : Z) : Z :=
  let y' := if m <=? 2 then y - 1 else y in
  let era := y' / 400 in
  let yoe := y' - era * 400 in
  let mp := (m + 9) mod 12 in
  let doy := (153 * mp + 2) / 5 + d - 1 in
  let doe := yoe * 365 + yoe / 4 - yoe / 100 + doy in
  era * 146097 + doe - 719468.

(** A run of exactly [n] decimal digits. *)
Definition digitsExactly (n : Z) (s : string) : option Z :=
  match scanDigits 10 s 0 0 with
  | (v, k, EmptyString) => if k =? n then Some v else None
  | _ => None
  end.

(** The time value of a date in the form [YYYY-MM-DD], which is the form
    the schema of the catalog admits: midnight UTC of that day, in
    milliseconds.  Any other string is taken as an invalid date. *)
Definition isoDate (s : string) : option Z :=
  match split "-" s with
  | [ys; ms; ds] =>
      match digitsExactly 4 ys, digitsExactly 2 ms, digitsExactly 2 ds with
      | Some y, Some m, Some d =>
          if (1 <=? m) && (m <=? 12) && (1 <=? d) && (d <=? daysInMonth y m)
          then Some (daysFromCivil y m d * 86400000)
          else None
      | _, _, _ => None
      end
  | _ => None
  end.

(** The order of two strings by their code units, as [<] compares them. *)
Fixpoint codeUnitCompare (a b : string) : comparison :=
  match a, b with
  | EmptyString, EmptyString => Eq
  | EmptyString, String _ _ => Lt
  | String _ _, EmptyString => Gt
  | String x a', String y b' =>
      match N.compare (code x) (code y) with
      | Eq => codeUnitCompare a' b'
      | c => c
      end
  end.

Definition signOf (c : comparison) : Z :=
  match c with Lt => -1 | Eq => 0 | Gt => 1 end.

(** A collation that ranks letters without regard to their case. *)
Definition caselessCompare (a b : string) : Z :=
  signOf (codeUnitCompare (toLowerCase a) (toLowerCase b)).

(** What the sort needs of a collation: swapping the arguments swaps the
    sign, and "not after" is transitive. *)
Definition consistent (lc : string -> string -> Z) : Prop :=
  (forall a b, Z.sgn (lc b a) = - Z.sgn (lc a b))
  /\ (forall a b c, lc a b <= 0 -> lc b c <= 0 -> lc a c <= 0).

End Host.

(** ** The selectors of the later revision of the [App] component

    This revision reads two fields of a build that [types.ts] does not
    declare, [sourceUrl] and [deprecated]; they are parameters here. *)
Module AppNext.
Import JsNum JsString JsConv Types DataLoader JsArray App.
Local Open Scope string_scope.

Section Fields.

Variable sourceUrl : EnrichedBuild -> option string.
Variable deprecated : EnrichedBuild -> bool.

Definition haystack (b : EnrichedBuild) : string :=
  toLowerCase
    (join " " [ mcVersion b;
                jsMacrosVersion b;
                fork b;
                repo b;
                match sourceUrl b with Some u => u | None => EmptyString end;
                releaseTypeName (releaseType b);
                if deprecated b then "deprecated" else EmptyString;
                join " " (map loaderName (modLoader b));
                join " " (extensions b);
                match notes b with Some n => n | None => EmptyString end ]).

Definition searchMatches (search : string) (b : EnrichedBuild) : bool :=
  let term := toLowerCase (trim search) in
  if isEmpty term then true
  else includes (haystack b) term.

Variable dateTime : string -> option Z.
Variable localeCompare : string -> string -> Z.

(** Newer builds first, then the later version first. *)
Definition newestFirst (a b : EnrichedBuild) : number :=
  let da := stamp dateTime a in
  let db := stamp dateTime b in
  if negb (eqb da db) then sub db da
  else compareVersions (mcVersion b) (mcVersion a).

Definition guideResults (builds : list EnrichedBuild) (selectedMcVersion : string)
    (selectedLoader : option Loader) (extensionFilters : list string)
  : list EnrichedBuild :=
  JsArray.sort newestFirst
    (List.filter (guideMatches selectedMcVersion selectedLoader extensionFilters) builds).

Definition listResults (builds : list EnrichedBuild) (search : string)
    (sortKey : SortKey) (sortDirection : SortDirection) : list EnrichedBuild :=
  let filtered := List.filter (searchMatches search) builds in
  JsArray.sort (comparator dateTime localeCompare sortKey sortDirection) filtered.

End Fields.

End AppNext.

(** ** The order that [compareVersions] computes *)
Module VersionOrder.
Import JsNum DataLoader.

(** [agree ap bp i j]: the components at the indices from [i] up to [j]
    (excluded) are equal numbers. *)
Definition agree (ap bp : list number) (i j : nat) : Prop :=
  forall k, (i <= k < j)%nat -> compare (at_ ap k) (at_ bp k) = Some Eq.

(** The exact value of the [k]-th component of [a], [0] past the end. *)
Definition key (a : string) (k : nat) : Z * Z := ord (at_ (parts a) k).

(** [a] sorts strictly before [b]. *)
Definition before (a b : string) : Prop :=
  (exists j, (forall k, (k < j)%nat -> key a k = key b k) /\ lex (key a j) (key b j) = Lt)
  \/ ((forall k, key a k = key b k) /\ (length (parts a) < length (parts b))%nat).

(** [a] and [b] sort together. *)
Definition same (a b : string) : Prop :=
  (forall k, key a k = key b k) /\ length (parts a) = length (parts b).

End VersionOrder.

(** ** Vocabulary of the properties of the selectors *)
Module AppSpec.
Import JsNum JsString Types DataLoader App.
Local Open Scope string_scope.

(** The three criteria of the guided filter. *)
Definition meetsCriteria (selectedMcVersion : string) (selectedLoader : option Loader)
    (extensionFilters : list string) (e : EnrichedBuild) : Prop :=
  (selectedMcVersion <> EmptyString -> mcVersion e = selectedMcVersion)
  /\ (forall l, selectedLoader = Some l -> In l (modLoader e))
  /\ (forall ext, In ext extensionFilters -> In ext (extensions e)).

(** The searched fields of an entry, joined by single spaces. *)
Definition fieldsText (e : EnrichedBuild) : string :=
  mcVersion e ++ " " ++ jsMacrosVersion e ++ " " ++ fork e ++ " " ++ repo e
  ++ " " ++ releaseTypeName (releaseType e)
  ++ " " ++ join " " (map loaderName (modLoader e))
  ++ " " ++ join " " (extensions e)
  ++ " " ++ match notes e with Some n => n | None => EmptyString end.

(** The searched fields of the later revision, which adds the source URL and
    the word deprecated for a deprecated build. *)
Definition fieldsTextNext (sourceUrl : EnrichedBuild -> option string)
    (deprecated : EnrichedBuild -> bool) (e : EnrichedBuild) : string :=
  mcVersion e ++ " " ++ jsMacrosVersion e ++ " " ++ fork e ++ " " ++ repo e
  ++ " " ++ match sourceUrl e with Some u => u | None => EmptyString end
  ++ " " ++ releaseTypeName (releaseType e)
  ++ " " ++ (if deprecated e then "deprecated" else EmptyString)
  ++ " " ++ join " " (map loaderName (modLoader e))
  ++ " " ++ join " " (extensions e)
  ++ " " ++ match notes e with Some n => n | None => EmptyString end.

(** An entry for the examples: one fabric release for 1.21.1. *)
Definition sampleBuild (exts : list string) (published : option string)
    (version : string) : Build :=
  {| id := "jsmacros-" ++ version;
     repo := "JsMacros/JsMacros";
     fork := "JsMacros";
     commit := "0123abc";
     jsMacrosVersion := version;
     modLoader := [fabric];
     extensions := exts;
     downloads := [];
     releaseType := release;
     status := None;
     publishedAt := published;
     notes := None |}.

Definition sampleEntry (exts : list string) (published : option string)
    (version : string) : EnrichedBuild :=
  {| build := sampleBuild exts published version; mcVersion := "1.21.1" |}.

(** A comparison as the sort direction turns it. *)
Definition turn (d : SortDirection) (c : comparison) : comparison :=
  match d with asc => c | desc => CompOpp c end.

(** The entries the sort by date is in order on: those whose time stamp is
    a number, positive when the entry has a date. *)
Definition dated (dateTime : string -> option Z) (e : EnrichedBuild) : Prop :=
  wf (stamp dateTime e)
  /\ (publishedAt e <> None -> gtb (stamp dateTime e) zero = true).

Definition notLater (dateTime : string -> option Z) (x y : EnrichedBuild) : Prop :=
  lex (ord (stamp dateTime x)) (ord (stamp dateTime y)) <> Gt.

(** The software version of an entry. *)
Definition version (e : EnrichedBuild) : string := jsMacrosVersion e.

End AppSpec.

(** ** Vocabulary of the properties of the loader and of the validator *)
Module CatalogSpec.
Import JsString Completion Types DataLoader Validate.
Local Open Scope string_scope.

(** The message of a caught value. *)
Definition messageOf (err : thrown) : string :=
  match err with
  | ErrorObject message => message
  | OtherValue => "Unknown error"
  end.

(** The result of a failed load. *)
Definition failed (message : string) : LoadResult :=
  {| data := None; builds := []; error := Some message |}.

(** The ids of all builds of a catalog with the group each is found in, in
    the order the validator visits them. *)
Definition tagged (groups : list (string * list Build)) : list (string * string) :=
  flat_map (fun '(mcVersion, arr) => map (fun b => (id b, mcVersion)) arr) groups.

Definition allIds (groups : list (string * list Build)) : list string :=
  map fst (tagged groups).

(** [(dup, mcVersion)] is the first entry whose id has been met before. *)
Definition firstDuplicate (groups : list (string * list Build))
    (dup mcVersion : string) : Prop :=
  exists pre post,
    tagged groups = (pre ++ (dup, mcVersion) :: post)%list
    /\ List.NoDup (map fst pre) /\ In dup (map fst pre).

Definition duplicateMessage (file dup mcVersion : string) : string :=
  "Validation failed for " ++ file ++ ": Duplicate build id "
  ++ dquote ++ dup ++ dquote ++ " for Minecraft version " ++ mcVersion.

End CatalogSpec.

(** ** src/src/dataLoader.ts: [uniqueSorted] *)
Module DataLoaderSort.
Import JsNum JsString JsArray DataLoader Host.

(** The order of [Array.prototype.sort] when it is given no comparator:
    strings are compared by their code units, [-1] when [x < y], [1] when
    [y < x], and [+0] otherwise. *)
Definition defaultCompare (x y : string) : number :=
  of_Z (signOf (codeUnitCompare x y)).

(** [Array.from(new Set(values)).sort()] *)
Definition uniqueSorted (values : list string) : list string :=
  JsArray.sort defaultCompare (distinct ∅ values).

End DataLoaderSort.

(** ** Versions written in decimal digits *)
Module DecimalVersion.
Import JsString.
Local Open Scope Z_scope.

Definition isDigit (c : ascii) : bool :=
  ((48 <=? code c) && (code c <=? 57))%N.

Fixpoint allDigits (s : string) : bool :=
  match s with
  | EmptyString => true
  | String c s' => isDigit c && allDigits s'
  end.

(** The integer that the digits of [s] write after the digits of [acc]. *)
Fixpoint valueFrom (acc : Z) (s : string) : Z :=
  match s with
  | EmptyString => acc
  | String c s' => valueFrom (acc * 10 + (Z.of_N (code c) - 48)) s'
  end.

Definition valueOf (s : string) : Z := valueFrom 0 s.

(** A piece made of decimal digits only, at least one, that writes an
    integer below [2^53]. *)
Definition numeral (v : string) : Prop :=
  v <> EmptyString /\ allDigits v = true /\ valueOf v < 2 ^ 53.

(** A version all of whose pieces are such numerals, as [1.21.1] is. *)
Definition decimalVersion (a : string) : Prop := Forall numeral (split "." a).

Definition pieces (a : string) : nat := length (split "." a).

(** The integer of the [k]-th piece, [0] past the last piece. *)
Definition numberAt (a : string) (k : nat) : Z :=
  nth k (map valueOf (split "." a)) 0.

(** [a] is the earlier version: at the first piece where the integers
    differ [a] has the smaller one, or no piece differs and [a] has fewer
    pieces. *)
Definition earlier (a b : string) : Prop :=
  (exists j, (forall k, (k < j)%nat -> numberAt a k = numberAt b k)
             /\ numberAt a j < numberAt b j)
  \/ ((forall k, numberAt a k = numberAt b k) /\ (pieces a < pieces b)%nat).

End DecimalVersion.

(** ** Vocabulary of the properties of the search *)
Module SearchSpec.
Import JsString Types.
Local Open Scope string_scope.

Definition optional (o : option string) : list string :=
  match o with Some s => [s] | None => [] end.

(** The texts an entry is searched by, one by one. *)
Definition fieldsOf (e : EnrichedBuild) : list string :=
  ([ mcVersion e; jsMacrosVersion e; fork e; repo e;
     releaseTypeName (releaseType e) ]
   ++ map loaderName (modLoader e) ++ extensions e ++ optional (notes e))%list.

(** Those of the later revision of the component. *)
Definition fieldsOfNext (sourceUrl : EnrichedBuild -> option string)
    (deprecated : EnrichedBuild -> bool) (e : EnrichedBuild) : list string :=
  (fieldsOf e ++ optional (sourceUrl e)
   ++ (if deprecated e then ["deprecated"] else []))%list.

End SearchSpec.

(** ** Vocabulary of the properties of the sorted lists *)
Module ListSpec.
Import JsNum Types DataLoader App.

(** [x] is at a position of [l] before one of [y]. *)
Definition precedes {A} (x y : A) (l : list A) : Prop :=
  exists l1 l2 l3, l = (l1 ++ x :: l2 ++ y :: l3)%list.

(** No two different versions among [values] compare equal. *)
Definition tieFree (values : list string) : Prop :=
  forall a b, In a values -> In b values ->
    eqb (compareVersions a b) zero = true -> a = b.

(** Every date of [builds] is one the host can read: no time stamp is
    NaN. *)
Definition validDates (dateTime : string -> option Z) (builds : list EnrichedBuild)
  : Prop :=
  forall e : EnrichedBuild, In e builds -> wf (stamp dateTime e).

(** [x] may stand before [y] in a list with the newest first: [x] is the
    newer one, or they have one time stamp and the version tag of [y] does
    not sort after the tag of [x]. *)
Definition newestBefore (dateTime : string -> option Z) (x y : EnrichedBuild) : Prop :=
  match lex (ord (stamp dateTime x)) (ord (stamp dateTime y)) with
  | Gt => True
  | Eq => gtb (compareVersions (mcVersion y) (mcVersion x)) zero = false
  | Lt => False
  end.

End ListSpec.

(** ** The state of the [App] component, its effect and its handlers *)
Module AppState.
Import JsString Types DataLoader DataLoaderSort App.
Local Open Scope string_scope.

Inductive Tab := guideTab | listTab.

(** The values of the [useState] hooks. *)
Record State := {
  tab : Tab;
  loading : bool;
  error : option string;
  builds : list EnrichedBuild;
  updatedAt : string;
  selectedMcVersion : string;
  selectedLoader : option Loader;
  extensionFilters : list string;
  search : string;
  sortKey : SortKey;
  sortDirection : SortDirection
}.

(** The state of the first render. *)
Definition initial : State :=
  {| tab := guideTab; loading := true; error := None; builds := [];
     updatedAt := EmptyString; selectedMcVersion := EmptyString;
     selectedLoader := None; extensionFilters := []; search := EmptyString;
     sortKey := byPublishedAt; sortDirection := desc |}.

Definition setError (v : option string) (st : State) : State :=
  {| tab := tab st; loading := loading st; error := v; builds := builds st;
     updatedAt := updatedAt st; selectedMcVersion := selectedMcVersion st;
     selectedLoader := selectedLoader st; extensionFilters := extensionFilters st;
     search := search st; sortKey := sortKey st; sortDirection := sortDirection st |}.

Definition setUpdatedAt (v : string) (st : State) : State :=
  {| tab := tab st; loading := loading st; error := error st; builds := builds st;
     updatedAt := v; selectedMcVersion := selectedMcVersion st;
     selectedLoader := selectedLoader st; extensionFilters := extensionFilters st;
     search := search st; sortKey := sortKey st; sortDirection := sortDirection st |}.

Definition setBuilds (v : list EnrichedBuild) (st : State) : State :=
  {| tab := tab st; loading := loading st; error := error st; builds := v;
     updatedAt := updatedAt st; selectedMcVersion := selectedMcVersion st;
     selectedLoader := selectedLoader st; extensionFilters := extensionFilters st;
     search := search st; sortKey := sortKey st; sortDirection := sortDirection st |}.

Definition setLoading (v : bool) (st : State) : State :=
  {| tab := tab st; loading := v; error := error st; builds := builds st;
     updatedAt := updatedAt st; selectedMcVersion := selectedMcVersion st;
     selectedLoader := selectedLoader st; extensionFilters := extensionFilters st;
     search := search st; sortKey := sortKey st; sortDirection := sortDirection st |}.

Definition setSelectedMcVersion (v : string) (st : State) : State :=
  {| tab := tab st; loading := loading st; error := error st; builds := builds st;
     updatedAt := updatedAt st; selectedMcVersion := v;
     selectedLoader := selectedLoader st; extensionFilters := extensionFilters st;
     search := search st; sortKey := sortKey st; sortDirection := sortDirection st |}.

Definition setExtensionFilters (v : list string) (st : State) : State :=
  {| tab := tab st; loading := loading st; error := error st; builds := builds st;
     updatedAt := updatedAt st; selectedMcVersion := selectedMcVersion st;
     selectedLoader := selectedLoader st; extensionFilters := v;
     search := search st; sortKey := sortKey st; sortDirection := sortDirection st |}.

(** The first of [sortVersions(loaded.map((b) => b.mcVersion), "desc")], or
    the empty string when there is none. *)
Definition latest (loaded : list EnrichedBuild) : string :=
  nth 0 (sortVersions (map mcVersion loaded) desc) EmptyString.

(** What the effect does when the promise of [loadBuilds] is fulfilled with
    [r]: the state [st] of that moment becomes the result.  The callback
    was made by the first render, so the [selectedMcVersion] that it tests
    is the one of [first], the state of the first render. *)
Definition onLoaded (first : State) (r : LoadResult) (st : State) : State :=
  let loaded := DataLoader.builds r in
  let st1 := match DataLoader.error r with
             | Some err => if isEmpty err then st else setError (Some err) st
             | None => st
             end in
  let st2 := match data r with
             | Some d => setUpdatedAt (Types.updatedAt d) st1
             | None => st1
             end in
  let st3 := setLoading false (setBuilds loaded st2) in
  if isEmpty (selectedMcVersion first) && negb (Nat.eqb (length loaded) 0)
  then setSelectedMcVersion (latest loaded) st3
  else st3.

(** The effect of the later revision, which sets the selected version
    whatever it was. *)
Definition onLoadedNext (r : LoadResult) (st : State) : State :=
  let loaded := DataLoader.builds r in
  let st1 := match DataLoader.error r with
             | Some err => if isEmpty err then st else setError (Some err) st
             | None => st
             end in
  let st2 := match data r with
             | Some d => setUpdatedAt (Types.updatedAt d) st1
             | None => st1
             end in
  setSelectedMcVersion (latest loaded) (setLoading false (setBuilds loaded st2)).

(** The options of the three controls of the guide. *)
Definition mcVersions (st : State) : list string :=
  sortVersions (map mcVersion (builds st)) desc.

Definition loaders (st : State) : list string :=
  uniqueSorted (flat_map (fun b : EnrichedBuild => map loaderName (modLoader b)) (builds st)).

Definition extensions (st : State) : list string :=
  uniqueSorted (flat_map (fun b : EnrichedBuild => Types.extensions b) (builds st)).

Definition guideResults (st : State) : list EnrichedBuild :=
  App.guideResults (builds st) (selectedMcVersion st) (selectedLoader st)
                   (extensionFilters st).

(** [!loading && guideResults.length === 0] *)
Definition guideEmpty (st : State) : bool :=
  negb (loading st) && Nat.eqb (length (guideResults st)) 0.

(** The guide of the later revision, which sorts what it shows; [dateTime]
    is the host's reading of a date. *)
Definition guideResultsNext (dateTime : string -> option Z) (st : State)
  : list EnrichedBuild :=
  AppNext.guideResults dateTime (builds st) (selectedMcVersion st) (selectedLoader st)
                       (extensionFilters st).

Definition guideEmptyNext (dateTime : string -> option Z) (st : State) : bool :=
  negb (loading st) && Nat.eqb (length (guideResultsNext dateTime st)) 0.

(** Whether the box of [ext] is shown checked:
    [extensionFilters.includes(ext)]. *)
Definition checked (st : State) (ext : string) : bool :=
  existsb (String.eqb ext) (extensionFilters st).

(** The change handler of the box of [ext]; [nowChecked] is
    [e.target.checked], the state the box is put in. *)
Definition onExtensionChange (ext : string) (nowChecked : bool) (st : State) : State :=
  setExtensionFilters
    (if nowChecked then (extensionFilters st ++ [ext])%list
     else List.filter (fun x => negb (String.eqb x ext)) (extensionFilters st))
    st.

End AppState.

(** ** scripts/validate.ts: the run of the validator *)
Module ValidateRun.
Import JsString Completion Types Validate.
Local Open Scope string_scope.

(** One issue of a [ZodError]: the path to the value, its elements as
    [join] prints them, and the message. *)
Record Issue := {
  path : list string;
  message : string
}.

(** What [safeParse] returns. *)
Inductive SafeParse :=
  | success (data : BuildsData)
  | failure (errors : list Issue).

(** [err.path.join(".") || "<root>"] *)
Definition pathText (err : Issue) : string :=
  let p := join "." (path err) in
  if isEmpty p then "<root>" else p.

Definition issueLine (err : Issue) : string :=
  "- " ++ pathText err ++ ": " ++ message err.

Section Run.

(** The parsed JSON value, and the functions of the host and of the schema
    library that [main] calls: [readFile(file, "utf8")], [JSON.parse],
    [dataSchema.safeParse], [basename], and the text that [console.error]
    prints for a thrown value. *)
Variable Json : Type.
Variable readFile : string -> completion string.
Variable parse : string -> completion Json.
Variable safeParse : Json -> SafeParse.
Variable basename : string -> string.
Variable inspect : thrown -> string.

(** [main]; [file] is [process.argv[2]], which is [undefined] when the
    argument is not given.  The completion is how the promise settles. *)
Definition main (file : option string) : completion Outcome :=
  match file with
  | None =>
      Normal {| exitCode := 1;
                stderr := ["Usage: validate.ts <path-to-builds.json>"];
                stdout := [] |}
  | Some file =>
      if isEmpty file then
        Normal {| exitCode := 1;
                  stderr := ["Usage: validate.ts <path-to-builds.json>"];
                  stdout := [] |}
      else
        let! raw := readFile file in
        let! parsed := parse raw in
        match safeParse parsed with
        | failure errors =>
            Normal {| exitCode := 1;
                      stderr := ("Validation failed for " ++ basename file ++ ":")
                                :: map issueLine errors;
                      stdout := [] |}
        | success data => Normal (checkDuplicates (basename file) data)
        end
  end.

(** [main().catch((err) => { console.error(err); process.exitCode = 1; })] *)
Definition run (file : option string) : Outcome :=
  match main file with
  | Normal o => o
  | Throw err => {| exitCode := 1; stderr := [inspect err]; stdout := [] |}
  end.

End Run.

End ValidateRun.

(** ** The labels of the [App] component *)
Module AppView.
Import JsString Types.
Local Open Scope string_scope.

(** The string a [Platform] is at run time. *)
Definition platformName (p : Platform) : string :=
  match p with
  | pFabric => "fabric"
  | pForge => "forge"
  | pNeoforge => "neoforge"
  | pExtension => "extension"
  | pTs => "ts"
  | pOther => "other"
  | pPython => "python"
  end.

(** [Array.isArray(platform) ? platform.join(", ") : platform] *)
Definition platformLabel (platform : Platform + list Platform) : string :=
  match platform with
  | inl p => platformName p
  | inr l => join ", " (map platformName l)
  end.

(** The platforms a download is for. *)
Definition platformsOf (platform : Platform + list Platform) : list Platform :=
  match platform with
  | inl p => [p]
  | inr l => l
  end.

End AppView.

(* ================================================================== *)
(** * Part II: properties                                              *)
(* ================================================================== *)

(** ** Strings *)
Module StringFacts.
Import JsString.
Local Open Scope string_scope.

Lemma append_cons a s t : String a s ++ t = String a (s ++ t).
Proof. reflexivity. Qed.

Lemma startsWith_spec s t : startsWith s t = true <-> exists post, s = t ++ post.
Proof.
  revert s. induction t as [|b t IH]; intros s; simpl.
  - split; [intros _; exists s; reflexivity|reflexivity].
  - destruct s as [|a s].
    + split; [discriminate|intros [post H]; discriminate].
    + rewrite andb_true_iff, IH. split.
      * intros [E [post ->]]. apply Ascii.eqb_eq in E. subst.
        exists post. reflexivity.
      * intros [post H]. rewrite append_cons in H. inversion H; subst.
        split; [apply Ascii.eqb_refl|exists post; reflexivity].
Qed.

(** [includes] decides the occurrence of one string in another. *)
Lemma includes_spec s t : includes s t = true <-> occursIn t s.
Proof.
  unfold occursIn. induction s as [|a s IH]; simpl.
  - rewrite orb_false_r, startsWith_spec. split.
    + intros [post H]. exists EmptyString, post. exact H.
    + intros (pre & post & H). destruct pre; [exists post; exact H|discriminate].
  - rewrite orb_true_iff, startsWith_spec, IH. split.
    + intros [[post H]|(pre & post & H)].
      * exists EmptyString, post. exact H.
      * exists (String a pre), post. rewrite append_cons. now rewrite H.
    + intros (pre & post & H). destruct pre as [|c pre].
      * left. exists post. exact H.
      * right. rewrite append_cons in H. inversion H; subst.
        exists pre, post. reflexivity.
Qed.

Lemma split_nonempty sep s : split sep s <> [].
Proof.
  destruct s as [|c s]; simpl; [discriminate|].
  destruct (Ascii.eqb c sep); [discriminate|].
  destruct (split sep s); discriminate.
Qed.

(** [split] cuts at every separator: the pieces hold no separator, and
    joined by the separator they give the string back. *)
Lemma split_join sep s : join (String sep EmptyString) (split sep s) = s.
Proof.
  induction s as [|c s IH]; [reflexivity|]. simpl.
  pose proof (split_nonempty sep s) as N.
  destruct (Ascii.eqb_spec c sep) as [->|Hc].
  - destruct (split sep s) as [|p ps]; [congruence|].
    change (join (String sep EmptyString) (EmptyString :: p :: ps))
      with (String sep (join (String sep EmptyString) (p :: ps))).
    now rewrite IH.
  - destruct (split sep s) as [|p ps]; [congruence|].
    rewrite <- IH. destruct ps; reflexivity.
Qed.

Lemma split_pieces sep s : Forall (fun p => hasChar sep p = false) (split sep s).
Proof.
  induction s as [|c s IH]; simpl; [repeat constructor|].
  destruct (Ascii.eqb_spec c sep) as [->|Hc].
  - constructor; [reflexivity|assumption].
  - apply Ascii.eqb_neq in Hc.
    destruct (split sep s) as [|p ps]; simpl.
    + repeat constructor. simpl. now rewrite Hc.
    + inversion IH as [|? ? Hp Hps]; subst. constructor; [|assumption].
      simpl. now rewrite Hc.
Qed.

Lemma includes_empty s : includes s EmptyString = true.
Proof. destruct s; reflexivity. Qed.

Lemma isEmpty_true s : isEmpty s = true <-> s = EmptyString.
Proof. destruct s; simpl; split; congruence. Qed.

End StringFacts.

(** ** Numbers: rounding keeps the sign *)
Module NumFacts.
Import JsNum.
Local Open Scope Z_scope.

Lemma digits2_size p : digits2_pos p = Pos.size p.
Proof. induction p; simpl; congruence. Qed.

Lemma digits2_bounds p :
  2 ^ (Zpos (digits2_pos p) - 1) <= Zpos p < 2 ^ Zpos (digits2_pos p).
Proof.
  rewrite digits2_size. split.
  - pose proof (Pos.size_le p) as H.
    apply Pos2Z.pos_le_pos in H. rewrite Pos2Z.inj_pow in H.
    replace (Zpos (Pos.size p)) with (Z.succ (Zpos (Pos.size p) - 1)) in H by lia.
    rewrite Z.pow_succ_r in H by lia. change (Zpos p~0) with (2 * Zpos p) in H. lia.
  - pose proof (Pos.size_gt p) as H.
    apply Pos2Z.pos_lt_pos in H. now rewrite Pos2Z.inj_pow in H.
Qed.

Lemma iter_xO_value m d : Zpos (Pos.iter xO m d) = Zpos m * 2 ^ Zpos d.
Proof.
  induction d using Pos.peano_ind.
  - simpl. lia.
  - rewrite Pos.iter_succ, Pos2Z.inj_succ, Z.pow_succ_r by lia.
    rewrite Pos2Z.inj_xO, IHd. lia.
Qed.

Lemma shl_align_value m e ez :
  ez <= e -> Zpos (fst (shl_align m e ez)) = Zpos m * 2 ^ (e - ez).
Proof.
  intros H. unfold shl_align.
  destruct (ez - e) as [|d|d] eqn:E; try lia.
  - replace (e - ez) with 0 by lia. simpl. lia.
  - simpl. rewrite iter_xO_value. f_equal. f_equal. lia.
Qed.

Lemma shr_1_m r : 0 <= shr_m r -> shr_m (shr_1 r) = shr_m r / 2.
Proof.
  intros H. rewrite <- Z.div2_div.
  destruct r as [[|[p|p|]|p] b s]; simpl in *; try reflexivity; lia.
Qed.

Lemma iter_shr_1_m p r :
  0 <= shr_m r -> shr_m (SpecFloat.iter_pos shr_1 p r) = shr_m r / 2 ^ Zpos p.
Proof.
  revert r. induction p as [p IH|p IH|]; intros r Hr; simpl SpecFloat.iter_pos.
  - assert (H1 : 0 <= shr_m (shr_1 r)).
    { rewrite shr_1_m by assumption. apply Z.div_pos; lia. }
    assert (H2 : 0 <= shr_m (SpecFloat.iter_pos shr_1 p (shr_1 r))).
    { rewrite IH by assumption. apply Z.div_pos; lia. }
    rewrite IH, IH, shr_1_m by assumption.
    rewrite !Z.div_div by lia. f_equal.
    replace (Zpos p~1) with (Z.succ (2 * Zpos p)) by lia.
    rewrite Z.pow_succ_r, Z.pow_twice_r by lia. lia.
  - assert (H2 : 0 <= shr_m (SpecFloat.iter_pos shr_1 p r)).
    { rewrite IH by assumption. apply Z.div_pos; lia. }
    rewrite IH, IH by assumption.
    rewrite !Z.div_div by lia. f_equal.
    replace (Zpos p~0) with (2 * Zpos p) by lia.
    rewrite Z.pow_twice_r by lia. lia.
  - rewrite shr_1_m by assumption. reflexivity.
Qed.

Lemma shr_record_of_loc_m m l : shr_m (shr_record_of_loc m l) = m.
Proof. destruct l as [|[]]; reflexivity. Qed.

Lemma fexp_eq e : fexp prec emax e = fexp64 e.
Proof. reflexivity. Qed.

(** One rounding shift: the mantissa stays non-negative, the exponent ends
    at or above [emin], and a mantissa whose value reaches [2^emin] stays
    positive. *)
Lemma shr_fexp_spec m e l :
  0 <= m ->
  let r := shr_fexp prec emax m e l in
  0 <= shr_m (fst r) /\
  -1074 <= snd r /\
  (0 < m -> -1074 < Zdigits2 m + e -> 0 < shr_m (fst r)).
Proof.
  intros Hm. unfold shr_fexp, shr. rewrite fexp_eq. unfold fexp64.
  destruct (Z.max (Zdigits2 m + e - 53) (-1074) - e) as [|n|n] eqn:E; simpl.
  - rewrite shr_record_of_loc_m. repeat split; lia.
  - rewrite iter_shr_1_m by (rewrite shr_record_of_loc_m; lia).
    rewrite shr_record_of_loc_m. split; [apply Z.div_pos; lia|].
    split; [lia|]. intros Hpos Hd.
    destruct m as [|p|p]; try lia. simpl Zdigits2 in *.
    pose proof (digits2_bounds p) as [Hlo _].
    apply Z.div_str_pos. split; [lia|].
    apply Z.le_trans with (2 ^ (Zpos (digits2_pos p) - 1)); [|assumption].
    apply Z.pow_le_mono_r; lia.
  - rewrite shr_record_of_loc_m. repeat split; lia.
Qed.

Lemma round_nearest_even_bounds m l :
  m <= round_nearest_even m l <= m + 1.
Proof.
  unfold round_nearest_even. destruct l as [|[]]; try lia.
  destruct (Z.even m); lia.
Qed.

Lemma Zdigits2_pos m : 0 < m -> 0 < Zdigits2 m.
Proof. destruct m; simpl; lia. Qed.

Lemma round_aux_spec s m e l :
  0 <= m ->
  signed s (binary_round_aux prec emax s m e l) /\
  (0 < m -> -1074 < Zdigits2 m + e ->
   nonzero (binary_round_aux prec emax s m e l)).
Proof.
  intros Hm. unfold binary_round_aux.
  pose proof (shr_fexp_spec m e l Hm) as H1. cbv zeta in H1.
  destruct (shr_fexp prec emax m e l) as [r1 e1]. simpl in H1.
  destruct H1 as (Hr1 & He1 & Hp1).
  pose proof (round_nearest_even_bounds (shr_m r1) (loc_of_shr_record r1)) as Hb.
  set (m2 := round_nearest_even (shr_m r1) (loc_of_shr_record r1)) in *.
  assert (Hm2 : 0 <= m2) by lia.
  pose proof (shr_fexp_spec m2 e1 loc_Exact Hm2) as H2. cbv zeta in H2.
  destruct (shr_fexp prec emax m2 e1 loc_Exact) as [r2 e2]. simpl in H2.
  destruct H2 as (Hr2 & He2 & Hp2).
  destruct (shr_m r2) as [|p|p] eqn:E; try lia.
  - split; [reflexivity|]. intros Hpos Hd.
    specialize (Hp1 Hpos Hd).
    assert (0 < m2) by lia.
    pose proof (Zdigits2_pos m2). lia.
  - destruct (e2 <=? emax - prec); simpl; auto.
Qed.

Lemma binary_round_spec s m e :
  -1074 <= e ->
  signed s (binary_round prec emax s m e) /\
  nonzero (binary_round prec emax s m e).
Proof.
  intros He. unfold binary_round.
  set (t := fexp prec emax (Zpos (digits2_pos m) + e)).
  assert (Ht : -1074 <= t) by (unfold t; rewrite fexp_eq; unfold fexp64; lia).
  assert (Hs : -1074 <= snd (shl_align m e t)).
  { unfold shl_align. destruct (t - e); simpl; lia. }
  destruct (shl_align m e t) as [mz ez]. simpl in Hs.
  destruct (round_aux_spec s (Zpos mz) ez loc_Exact) as [H1 H2]; [lia|].
  split; [assumption|]. apply H2; [lia|].
  simpl. lia.
Qed.

Lemma binary_normalize_spec z e :
  z <> 0 -> -1074 <= e ->
  signed (z <? 0) (binary_normalize prec emax z e false) /\
  nonzero (binary_normalize prec emax z e false).
Proof.
  intros Hz He. destruct z as [|p|p]; [lia| |]; simpl;
    apply binary_round_spec; assumption.
Qed.

Lemma binary_round_opp s m e :
  SFopp (binary_round prec emax s m e) = binary_round prec emax (negb s) m e.
Proof.
  unfold binary_round. destruct (shl_align _ _ _) as [mz ez].
  unfold binary_round_aux.
  destruct (shr_fexp prec emax (Zpos mz) ez loc_Exact) as [r1 e1].
  destruct (shr_fexp prec emax _ e1 loc_Exact) as [r2 e2].
  destruct (shr_m r2); try reflexivity.
  destruct (e2 <=? emax - prec); reflexivity.
Qed.

Lemma binary_normalize_opp z e :
  z <> 0 ->
  SFopp (binary_normalize prec emax z e false)
  = binary_normalize prec emax (- z) e false.
Proof.
  intros Hz. destruct z as [|p|p]; [lia| |]; simpl;
    apply binary_round_opp.
Qed.

Lemma signed_wf s r : signed s r -> wf r.
Proof. destruct r; simpl; tauto. Qed.

Lemma signed_sign s r :
  signed s r -> nonzero r -> compare r zero = Some (if s then Lt else Gt).
Proof.
  destruct r as [s'|s'| |s' m e]; simpl; try tauto.
  - intros -> _. reflexivity.
  - intros [-> _] _. reflexivity.
Qed.

Lemma cond_Zopp_mul s a k : cond_Zopp s (a * k) = cond_Zopp s a * k.
Proof. destruct s; simpl; lia. Qed.

Lemma aligned_scaled s m e ez :
  -1074 <= ez -> ez <= e ->
  cond_Zopp s (Zpos m * 2 ^ (e + 1074)) = aligned s m e ez * 2 ^ (ez + 1074).
Proof.
  intros H1 H2. unfold aligned. rewrite shl_align_value by assumption.
  rewrite <- cond_Zopp_mul. f_equal.
  rewrite <- Z.mul_assoc, <- Z.pow_add_r by lia. do 2 f_equal. lia.
Qed.

(** On well-formed numbers the comparison is the order of the exact values. *)
Lemma compare_ord x y :
  wf x -> wf y -> compare x y = Some (lex (ord x) (ord y)).
Proof.
  destruct x as [sx|sx| |sx mx ex], y as [sy|sy| |sy my ey];
    simpl; try tauto; intros Hx Hy;
    try (destruct sx; reflexivity); try (destruct sy; reflexivity);
    try (destruct sx, sy; reflexivity).
  - assert (H : 0 < Zpos my * 2 ^ (ey + 1074))
      by (apply Z.mul_pos_pos; [lia|apply Z.pow_pos_nonneg; lia]).
    unfold lex; cbn [fst snd Z.compare].
    destruct (Zpos my * 2 ^ (ey + 1074)); try lia. destruct sy; reflexivity.
  - assert (H : 0 < Zpos mx * 2 ^ (ex + 1074))
      by (apply Z.mul_pos_pos; [lia|apply Z.pow_pos_nonneg; lia]).
    unfold lex; cbn [fst snd Z.compare].
    destruct (Zpos mx * 2 ^ (ex + 1074)); try lia. destruct sx; reflexivity.
  - unfold lex; cbn [fst snd Z.compare]. f_equal.
    rewrite (aligned_scaled sx mx ex (Z.min ex ey)) by lia.
    rewrite (aligned_scaled sy my ey (Z.min ex ey)) by lia.
    apply Zmult_compare_compat_r.
    apply Z.lt_gt, Z.pow_pos_nonneg; lia.
Qed.

Lemma lex_refl p : lex p p = Eq.
Proof. unfold lex. now rewrite !Z.compare_refl. Qed.

Lemma lex_antisym p q : lex q p = CompOpp (lex p q).
Proof.
  unfold lex. rewrite (Z.compare_antisym (fst p) (fst q)).
  rewrite (Z.compare_antisym (snd p) (snd q)).
  destruct (fst p ?= fst q); reflexivity.
Qed.

Lemma lex_eq p q : lex p q = Eq <-> p = q.
Proof.
  unfold lex. destruct p as [a b], q as [c d]; simpl.
  destruct (Z.compare_spec a c); destruct (Z.compare_spec b d);
    split; intros E; try discriminate; try (inversion E; lia); f_equal; lia.
Qed.

Lemma lex_lt_trans p q r : lex p q = Lt -> lex q r = Lt -> lex p r = Lt.
Proof.
  unfold lex. destruct p as [a b], q as [c d], r as [e f]; simpl.
  destruct (Z.compare_spec a c); destruct (Z.compare_spec c e);
    destruct (Z.compare_spec a e);
    destruct (Z.compare_spec b d); destruct (Z.compare_spec d f);
    destruct (Z.compare_spec b f); intros ? ?;
    try discriminate; try reflexivity; lia.
Qed.

Lemma compare_aligned_ltb X Y :
  (X - Y <? 0) = match X ?= Y with Lt => true | _ => false end.
Proof.
  destruct (Z.compare_spec X Y);
    [apply Z.ltb_ge|apply Z.ltb_lt|apply Z.ltb_ge]; lia.
Qed.

(** Subtraction of two different well-formed numbers has the sign of
    their order, and never rounds to zero. *)
Lemma sub_sign x y c :
  wf x -> wf y -> compare x y = Some c -> c <> Eq ->
  signed (match c with Lt => true | _ => false end) (sub x y)
  /\ nonzero (sub x y).
Proof.
  destruct x as [sx|sx| |sx mx ex], y as [sy|sy| |sy my ey];
    simpl; try tauto; intros Hx Hy Hc Hne; inversion Hc; subst; clear Hc;
    try congruence;
    try (destruct sx; simpl; auto; fail);
    try (destruct sy; simpl; auto; fail);
    try (destruct sx, sy; simpl; try congruence; auto; fail).
  unfold aligned in *.
  set (X := cond_Zopp sx _) in *. set (Y := cond_Zopp sy _) in *.
  assert (Hz : X - Y <> 0).
  { intros E. apply Hne. apply Z.compare_eq_iff. lia. }
  destruct (binary_normalize_spec (X - Y) (Z.min ex ey) Hz) as [H1 H2]; [lia|].
  split; [|exact H2]. rewrite compare_aligned_ltb in H1. exact H1.
Qed.

(** [x - y] and [y - x] are opposite numbers when [x] and [y] differ. *)
Lemma sub_opp x y c :
  compare x y = Some c -> c <> Eq -> sub x y = neg (sub y x).
Proof.
  destruct x as [sx|sx| |sx mx ex], y as [sy|sy| |sy my ey];
    simpl; intros Hc Hne; inversion Hc; subst; clear Hc; try congruence;
    try reflexivity;
    try (destruct sx; reflexivity);
    try (destruct sy; reflexivity);
    try (destruct sx, sy; simpl; congruence).
  unfold aligned in *. rewrite (Z.min_comm ey ex).
  set (X := cond_Zopp sx _) in *. set (Y := cond_Zopp sy _) in *.
  rewrite binary_normalize_opp.
  - f_equal. lia.
  - intros E. apply Hne. apply Z.compare_eq_iff. lia.
Qed.

Lemma of_Z_spec z :
  z <> 0 -> signed (z <? 0) (of_Z z) /\ nonzero (of_Z z).
Proof. intros Hz. apply binary_normalize_spec; [assumption|lia]. Qed.

Lemma compare_antisym x y :
  compare y x = option_map CompOpp (compare x y).
Proof.
  destruct x as [sx|sx| |sx mx ex], y as [sy|sy| |sy my ey]; simpl;
    try reflexivity;
    try (destruct sx; reflexivity); try (destruct sy; reflexivity);
    try (destruct sx, sy; reflexivity).
  rewrite (Z.min_comm ey ex). f_equal. apply Z.compare_antisym.
Qed.

Lemma compare_refl x : x <> S754_nan -> compare x x = Some Eq.
Proof.
  destruct x as [sx|sx| |sx mx ex]; simpl; try congruence; intros _.
  - destruct sx; reflexivity.
  - now rewrite Z.compare_refl.
Qed.

Lemma lex_le_trans p q r : lex p q <> Gt -> lex q r <> Gt -> lex p r <> Gt.
Proof.
  unfold lex. destruct p as [a b], q as [c d], r as [e f]; simpl.
  destruct (Z.compare_spec a c); destruct (Z.compare_spec c e);
    destruct (Z.compare_spec a e);
    destruct (Z.compare_spec b d); destruct (Z.compare_spec d f);
    destruct (Z.compare_spec b f); intros ? ?;
    try congruence; try discriminate; lia.
Qed.

Lemma of_Z_sign z : compare (of_Z z) zero = Some (Z.compare z 0).
Proof.
  destruct (Z.eq_dec z 0) as [->|Hz]; [reflexivity|].
  destruct (of_Z_spec z Hz) as [H1 H2]. rewrite (signed_sign _ _ H1 H2).
  f_equal. destruct (Z.compare_spec z 0); try lia.
  - replace (z <? 0) with true; [reflexivity|symmetry; apply Z.ltb_lt; lia].
  - replace (z <? 0) with false; [reflexivity|symmetry; apply Z.ltb_ge; lia].
Qed.

Lemma of_Z_wf z : wf (of_Z z).
Proof.
  destruct (Z.eq_dec z 0) as [->|Hz]; [exact I|].
  destruct (of_Z_spec z Hz) as [H _]. eapply signed_wf; eassumption.
Qed.

(** The difference of two well-formed numbers is well-formed or NaN, and
    unless it is NaN (infinities of one sign) its sign is their order. *)
Lemma sub_compare x y c :
  wf x -> wf y -> compare x y = Some c ->
  (sub x y = S754_nan /\ c = Eq)
  \/ (wf (sub x y) /\ compare (sub x y) zero = Some c).
Proof.
  intros Hx Hy Hc. destruct c.
  - destruct x as [sx|sx| |sx mx ex], y as [sy|sy| |sy my ey];
      simpl in *; try tauto; try discriminate;
      try (destruct sx; discriminate); try (destruct sy; discriminate).
    + right. destruct sx, sy; split; reflexivity || exact I.
    + destruct sx, sy; try discriminate; left; split; reflexivity.
    + right. injection Hc as E. apply Z.compare_eq_iff in E.
      unfold aligned in E. rewrite E, Z.sub_diag. split; [exact I|reflexivity].
  - destruct (sub_sign x y Lt Hx Hy Hc ltac:(discriminate)) as [H1 H2].
    right. split; [eapply signed_wf; eassumption|exact (signed_sign _ _ H1 H2)].
  - destruct (sub_sign x y Gt Hx Hy Hc ltac:(discriminate)) as [H1 H2].
    right. split; [eapply signed_wf; eassumption|exact (signed_sign _ _ H1 H2)].
Qed.

Lemma digits2_shift m : 53 <= Zpos (digits2_pos (m * 4503599627370496)).
Proof.
  pose proof (digits2_bounds (m * 4503599627370496)) as [_ H].
  assert (L : 2 ^ 52 < 2 ^ Zpos (digits2_pos (m * 4503599627370496))).
  { change (2 ^ 52) with 4503599627370496. lia. }
  apply Z.pow_lt_mono_r_iff in L; lia.
Qed.

(** Multiplying by the factor [1] or [-1] keeps or flips the sign. *)
Lemma mul_unit_sign (r : number) (sf : bool) :
  wf r ->
  compare (mul r (S754_finite sf 4503599627370496 (-52))) zero
  = option_map (fun c => if sf then CompOpp c else c) (compare r zero).
Proof.
  destruct r as [s|s| |s m e]; simpl; try tauto; intros Hr.
  - destruct sf; reflexivity.
  - destruct s, sf; reflexivity.
  - destruct (round_aux_spec (xorb s sf) (Zpos (m * 4503599627370496)) (e + -52) loc_Exact)
      as [H1 H2]; [lia|].
    rewrite (signed_sign _ _ H1).
    + destruct s, sf; reflexivity.
    + apply H2; [lia|]. simpl. pose proof (digits2_shift m). lia.
Qed.

(** *** Rounding returns canonical representations *)

Lemma Zdigits2_bounds m :
  0 < m -> 2 ^ (Zdigits2 m - 1) <= m < 2 ^ Zdigits2 m.
Proof. destruct m as [|p|p]; try lia. intros _. apply digits2_bounds. Qed.

Lemma Zdigits2_nonneg m : 0 <= Zdigits2 m.
Proof. destruct m; simpl; lia. Qed.

Lemma Zdigits2_unique m k :
  0 < m -> 2 ^ (k - 1) <= m < 2 ^ k -> Zdigits2 m = k.
Proof.
  intros Hm [Hlo Hhi]. pose proof (Zdigits2_bounds m Hm) as [Dlo Dhi].
  pose proof (Zdigits2_pos m Hm).
  assert (0 < k).
  { destruct (Z.le_gt_cases k 0) as [K|K]; [|assumption].
    assert (2 ^ k <= 2 ^ 0) by (apply Z.pow_le_mono_r; lia).
    change (2 ^ 0) with 1 in *. lia. }
  assert (Zdigits2 m - 1 < k).
  { apply (Z.pow_lt_mono_r_iff 2); lia. }
  assert (k - 1 < Zdigits2 m).
  { apply (Z.pow_lt_mono_r_iff 2); lia. }
  lia.
Qed.

Lemma Zdigits2_mono a b : 0 <= a <= b -> Zdigits2 a <= Zdigits2 b.
Proof.
  intros [Ha Hab]. destruct (Z.eq_dec a 0) as [->|Na].
  - apply Zdigits2_nonneg.
  - pose proof (Zdigits2_bounds a ltac:(lia)) as [Alo _].
    pose proof (Zdigits2_bounds b ltac:(lia)) as [_ Bhi].
    pose proof (Zdigits2_pos b ltac:(lia)).
    assert (Zdigits2 a - 1 < Zdigits2 b); [|lia].
    apply (Z.pow_lt_mono_r_iff 2); lia.
Qed.

Lemma Zdigits2_shiftr m n :
  0 < m -> 0 <= n < Zdigits2 m -> Zdigits2 (m / 2 ^ n) = Zdigits2 m - n.
Proof.
  intros Hm Hn. pose proof (Zdigits2_bounds m Hm) as [Dlo Dhi].
  assert (P : 0 < 2 ^ n) by (apply Z.pow_pos_nonneg; lia).
  assert (L : 2 ^ (Zdigits2 m - n - 1) <= m / 2 ^ n).
  { apply Z.div_le_lower_bound; [assumption|].
    rewrite <- Z.pow_add_r by lia.
    replace (n + (Zdigits2 m - n - 1)) with (Zdigits2 m - 1) by lia. assumption. }
  assert (U : m / 2 ^ n < 2 ^ (Zdigits2 m - n)).
  { apply Z.div_lt_upper_bound; [assumption|].
    rewrite <- Z.pow_add_r by lia.
    replace (n + (Zdigits2 m - n)) with (Zdigits2 m) by lia. assumption. }
  apply Zdigits2_unique.
  - assert (0 < 2 ^ (Zdigits2 m - n - 1)) by (apply Z.pow_pos_nonneg; lia). lia.
  - split; assumption.
Qed.

Lemma Zdigits2_shiftl m n :
  0 < m -> 0 <= n -> Zdigits2 (m * 2 ^ n) = Zdigits2 m + n.
Proof.
  intros Hm Hn. pose proof (Zdigits2_bounds m Hm) as [Dlo Dhi].
  pose proof (Zdigits2_pos m Hm).
  assert (P : 0 < 2 ^ n) by (apply Z.pow_pos_nonneg; lia).
  apply Zdigits2_unique; [nia|].
  replace (Zdigits2 m + n - 1) with ((Zdigits2 m - 1) + n) by lia.
  rewrite !Z.pow_add_r by lia. nia.
Qed.

Lemma shiftr_small m n : 0 <= m -> Zdigits2 m <= n -> m / 2 ^ n = 0.
Proof.
  intros Hm Hn. apply Z.div_small. split; [assumption|].
  destruct (Z.eq_dec m 0) as [->|Nm];
    [simpl in Hn; apply Z.pow_pos_nonneg; lia|].
  pose proof (Zdigits2_bounds m ltac:(lia)) as [_ Dhi].
  pose proof (Zdigits2_pos m ltac:(lia)).
  assert (2 ^ Zdigits2 m <= 2 ^ n) by (apply Z.pow_le_mono_r; lia). lia.
Qed.

Lemma fexp64_mono a b : a <= b -> fexp64 a <= fexp64 b.
Proof. unfold fexp64. lia. Qed.

(** A shift from an exponent that is not above the canonical one ends in a
    canonical pair. *)
Lemma shr_fexp_canon m e l :
  0 <= m -> e <= fexp64 (Zdigits2 m + e) ->
  canon (shr_m (fst (shr_fexp prec emax m e l))) (snd (shr_fexp prec emax m e l)).
Proof.
  intros Hm He. unfold shr_fexp, shr, canon. rewrite fexp_eq.
  destruct (fexp64 (Zdigits2 m + e) - e) as [|n|n] eqn:E; simpl; try lia.
  - rewrite shr_record_of_loc_m. split; [assumption|lia].
  - rewrite iter_shr_1_m by (rewrite shr_record_of_loc_m; lia).
    rewrite shr_record_of_loc_m. split; [apply Z.div_pos; lia|].
    destruct (Z.lt_ge_cases (Zpos n) (Zdigits2 m)) as [L|G].
    + assert (0 < m) by (destruct m; simpl in *; lia).
      rewrite Zdigits2_shiftr by lia.
      replace (Zdigits2 m - Zpos n + (e + Zpos n)) with (Zdigits2 m + e) by lia. lia.
    + rewrite shiftr_small by lia. simpl. unfold fexp64 in *. lia.
Qed.

Lemma round_aux_valid s m e l :
  0 <= m -> e <= fexp64 (Zdigits2 m + e) ->
  valid_binary prec emax (binary_round_aux prec emax s m e l) = true.
Proof.
  intros Hm He. unfold binary_round_aux.
  pose proof (shr_fexp_canon m e l Hm He) as C1.
  destruct (shr_fexp prec emax m e l) as [r1 e1]. simpl in C1.
  destruct C1 as [P1 F1].
  pose proof (round_nearest_even_bounds (shr_m r1) (loc_of_shr_record r1)) as Hb.
  set (m2 := round_nearest_even (shr_m r1) (loc_of_shr_record r1)) in *.
  assert (C2 : canon (shr_m (fst (shr_fexp prec emax m2 e1 loc_Exact)))
                     (snd (shr_fexp prec emax m2 e1 loc_Exact))).
  { apply shr_fexp_canon; [lia|]. rewrite <- F1 at 1.
    apply fexp64_mono. pose proof (Zdigits2_mono (shr_m r1) m2). lia. }
  destruct (shr_fexp prec emax m2 e1 loc_Exact) as [r2 e2]. simpl in C2.
  destruct C2 as [P2 F2].
  destruct (shr_m r2) as [|p|p] eqn:E; try reflexivity.
  destruct (e2 <=? emax - prec) eqn:B; [|reflexivity].
  simpl. unfold bounded, canonical_mantissa. rewrite fexp_eq, B, andb_true_r.
  apply Z.eqb_eq. exact F2.
Qed.

Lemma binary_round_valid s m e :
  valid_binary prec emax (binary_round prec emax s m e) = true.
Proof.
  unfold binary_round. rewrite fexp_eq.
  set (t := fexp64 (Zpos (digits2_pos m) + e)).
  destruct (shl_align m e t) as [mz ez] eqn:S.
  apply round_aux_valid; [lia|].
  unfold shl_align in S. destruct (t - e) as [|d|d] eqn:D; inversion S; subst.
  - fold t. simpl. fold t. lia.
  - simpl. fold t. lia.
  - rewrite iter_xO_value.
    rewrite Zdigits2_shiftl by lia. simpl Zdigits2.
    replace (Zpos (digits2_pos m) + Zpos d + t) with (Zpos (digits2_pos m) + e) by lia.
    fold t. lia.
Qed.

Lemma of_Z_valid z : valid_binary prec emax (of_Z z) = true.
Proof. destruct z; [reflexivity| |]; apply binary_round_valid. Qed.

Lemma of_ratio_valid s n d : valid_binary prec emax (of_ratio s n d) = true.
Proof.
  unfold of_ratio, SFdiv_core_binary. rewrite fexp_eq.
  set (d1 := Zdigits2 (Zpos n)). set (d2 := Zdigits2 (Zpos d)).
  assert (B1 := Zdigits2_bounds (Zpos n) ltac:(lia)). fold d1 in B1.
  assert (B2 := Zdigits2_bounds (Zpos d) ltac:(lia)). fold d2 in B2.
  assert (Hd1 : 0 < d1) by (apply Zdigits2_pos; lia).
  assert (Hd2 : 0 < d2) by (apply Zdigits2_pos; lia).
  replace (d1 + 0 - (d2 + 0)) with (d1 - d2) by lia.
  set (e' := Z.min (fexp64 (d1 - d2)) (0 - 0)).
  set (m' := match 0 - 0 - e' with Zpos _ => _ | Z0 => _ | Zneg _ => _ end).
  assert (Hs : 0 <= - e') by (unfold e'; lia).
  assert (Hm' : m' = Zpos n * 2 ^ (- e')).
  { unfold m'. replace (0 - 0 - e') with (- e') by lia.
    destruct (- e') as [|p|p] eqn:E; try lia.
    rewrite Z.shiftl_mul_pow2 by lia. reflexivity. }
  assert (P : 0 < 2 ^ (- e')) by (apply Z.pow_pos_nonneg; lia).
  pose proof (Z.div_pos m' (Zpos d) ltac:(nia) ltac:(lia)) as Hq.
  pose proof (Z.mul_div_le m' (Zpos d) ltac:(lia)) as Hle.
  pose proof (Z.mul_succ_div_gt m' (Zpos d) ltac:(lia)) as Hgt.
  unfold Z.div in Hq, Hle, Hgt.
  destruct (Z.div_eucl m' (Zpos d)) as [q r]. simpl in Hq, Hle, Hgt.
  apply round_aux_valid; [assumption|].
  destruct (Z.eq_dec q 0) as [->|Nq].
  - simpl Zdigits2.
    assert (L : 2 ^ (d1 - 1 + - e') < 2 ^ d2).
    { rewrite Z.pow_add_r by lia. nia. }
    apply Z.pow_lt_mono_r_iff in L; [|lia|lia].
    unfold e', fexp64 in *. lia.
  - assert (D : d1 - d2 - e' <= Zdigits2 q).
    { destruct (Z.le_gt_cases (d1 - d2 - e') 0) as [K|K].
      - pose proof (Zdigits2_pos q ltac:(lia)). lia.
      - pose proof (Zdigits2_bounds q ltac:(lia)) as [_ Qhi].
        assert (L : 2 ^ (d1 - d2 - e' - 1) < 2 ^ Zdigits2 q).
        { assert (T : 2 ^ (d1 - d2 - e' - 1) * 2 ^ d2 = 2 ^ (d1 - 1) * 2 ^ (- e')).
          { rewrite <- !Z.pow_add_r by lia. f_equal. lia. }
          assert (0 < 2 ^ (d1 - d2 - e' - 1)) by (apply Z.pow_pos_nonneg; lia).
          nia. }
        apply Z.pow_lt_mono_r_iff in L; [lia|lia|].
        apply Zdigits2_nonneg. }
    apply Z.le_trans with (fexp64 (d1 - d2)); [unfold e'; lia|].
    apply fexp64_mono. lia.
Qed.

(** *** Agreement with [SFcompare]

    On the representations that [valid_binary] accepts, the comparison by
    value is the comparison [SFcompare] makes on exponents and mantissas. *)

Lemma canonical_digits m e :
  canonical_mantissa prec emax m e = true ->
  Zpos (digits2_pos m) <= 53 /\ (-1074 < e -> Zpos (digits2_pos m) = 53).
Proof.
  unfold canonical_mantissa. rewrite fexp_eq. unfold fexp64.
  intros H. apply Z.eqb_eq in H. lia.
Qed.

Lemma canonical_exponent m e :
  canonical_mantissa prec emax m e = true -> -1074 <= e.
Proof.
  unfold canonical_mantissa. rewrite fexp_eq. unfold fexp64.
  intros H. apply Z.eqb_eq in H. lia.
Qed.

Lemma canonical_lt m1 e1 m2 e2 :
  canonical_mantissa prec emax m1 e1 = true ->
  canonical_mantissa prec emax m2 e2 = true ->
  e1 < e2 -> Zpos m1 < Zpos m2 * 2 ^ (e2 - e1).
Proof.
  intros C1 C2 L.
  pose proof (canonical_exponent _ _ C1).
  destruct (canonical_digits _ _ C1) as [D1 _].
  destruct (canonical_digits _ _ C2) as [_ D2]. specialize (D2 ltac:(lia)).
  pose proof (digits2_bounds m1) as [_ U1].
  pose proof (digits2_bounds m2) as [L2 _]. rewrite D2 in L2.
  assert (2 ^ Zpos (digits2_pos m1) <= 2 ^ 53) by (apply Z.pow_le_mono_r; lia).
  assert (2 ^ 1 <= 2 ^ (e2 - e1)) by (apply Z.pow_le_mono_r; lia).
  change (2 ^ (53 - 1)) with 4503599627370496 in L2.
  change (2 ^ 53) with 9007199254740992 in *. change (2 ^ 1) with 2 in *. nia.
Qed.

Lemma canonical_compare m1 e1 m2 e2 :
  canonical_mantissa prec emax m1 e1 = true ->
  canonical_mantissa prec emax m2 e2 = true ->
  (Zpos (fst (shl_align m1 e1 (Z.min e1 e2)))
   ?= Zpos (fst (shl_align m2 e2 (Z.min e1 e2))))
  = match e1 ?= e2 with
    | Lt => Lt
    | Gt => Gt
    | Eq => Pos.compare_cont Eq m1 m2
    end.
Proof.
  intros C1 C2. rewrite !shl_align_value by lia.
  destruct (Z.compare_spec e1 e2) as [E|L|L].
  - subst. rewrite Z.min_id, Z.sub_diag, !Z.mul_1_r. reflexivity.
  - rewrite Z.min_l, Z.sub_diag, Z.mul_1_r by lia.
    apply Z.compare_lt_iff. now apply canonical_lt.
  - rewrite Z.min_r, Z.sub_diag, Z.mul_1_r by lia.
    apply Z.compare_gt_iff. now apply canonical_lt.
Qed.

Lemma compare_SFcompare x y :
  valid_binary prec emax x = true -> valid_binary prec emax y = true ->
  compare x y = SFcompare x y.
Proof.
  destruct x as [sx|sx| |sx mx ex], y as [sy|sy| |sy my ey]; simpl;
    try reflexivity; try (destruct sx, sy; reflexivity).
  unfold bounded. rewrite !andb_true_iff. intros [C1 _] [C2 _].
  pose proof (canonical_compare mx ex my ey C1 C2) as H.
  unfold aligned. f_equal. destruct sx, sy; cbn [cond_Zopp].
  - rewrite Z.compare_opp, Z.compare_antisym, H.
    destruct (ex ?= ey); reflexivity.
  - reflexivity.
  - reflexivity.
  - exact H.
Qed.

Lemma valid_wf x : valid x -> wf x.
Proof.
  intros [N V]. destruct x as [s|s| |s m e]; simpl in *; try exact I; try congruence.
  unfold bounded in V. apply andb_true_iff in V as [C _].
  exact (canonical_exponent _ _ C).
Qed.

Lemma valid_zero : valid zero.
Proof. split; [discriminate|reflexivity]. Qed.

Lemma SFcompare_valid x y : valid x -> valid y -> SFcompare x y = compare x y.
Proof. intros [_ Vx] [_ Vy]. symmetry. now apply compare_SFcompare. Qed.

Lemma SFcompare_zero r : SFcompare r zero = compare r zero.
Proof. destruct r as [s|s| |s m e]; reflexivity. Qed.

Lemma SFcompare_antisym x y : SFcompare y x = option_map CompOpp (SFcompare x y).
Proof.
  destruct x as [sx|sx| |sx mx ex], y as [sy|sy| |sy my ey]; simpl;
    try reflexivity;
    try (destruct sx; reflexivity); try (destruct sy; reflexivity);
    try (destruct sx, sy; reflexivity).
  rewrite (Z.compare_antisym ex ey), (ZC4 my mx).
  destruct sx, sy, (ex ?= ey); reflexivity.
Qed.

Lemma eqb_compare x y :
  valid x -> valid y ->
  eqb x y = match compare x y with Some Eq => true | _ => false end.
Proof. intros Hx Hy. unfold eqb, SFeqb. now rewrite SFcompare_valid. Qed.

Lemma ltb_compare x y :
  valid x -> valid y ->
  ltb x y = match compare x y with Some Lt => true | _ => false end.
Proof. intros Hx Hy. unfold ltb, SFltb. now rewrite SFcompare_valid. Qed.

Lemma gtb_compare x y :
  valid x -> valid y ->
  gtb x y = match compare x y with Some Gt => true | _ => false end.
Proof.
  intros Hx Hy. unfold gtb, SFltb.
  rewrite SFcompare_antisym, SFcompare_valid by assumption.
  destruct (compare x y) as [[]|]; reflexivity.
Qed.

Lemma eqb_zero r :
  eqb r zero = match compare r zero with Some Eq => true | _ => false end.
Proof. unfold eqb, SFeqb. now rewrite SFcompare_zero. Qed.

Lemma ltb_zero r :
  ltb r zero = match compare r zero with Some Lt => true | _ => false end.
Proof. unfold ltb, SFltb. now rewrite SFcompare_zero. Qed.

Lemma gtb_zero r :
  gtb r zero = match compare r zero with Some Gt => true | _ => false end.
Proof.
  unfold gtb, SFltb. rewrite SFcompare_antisym, SFcompare_zero.
  destruct (compare r zero) as [[]|]; reflexivity.
Qed.

Lemma eqb_sym x y : eqb x y = eqb y x.
Proof.
  unfold eqb, SFeqb. rewrite (SFcompare_antisym x y).
  destruct (SFcompare x y) as [[]|]; reflexivity.
Qed.

Lemma eqb_refl r : r <> S754_nan -> eqb r r = true.
Proof.
  unfold eqb, SFeqb. destruct r as [s|s| |s m e]; simpl; try congruence; intros _.
  - destruct s; reflexivity.
  - rewrite Z.compare_refl, Pcompare_refl. destruct s; reflexivity.
Qed.

End NumFacts.

(** ** The sort: a permutation, in order when the comparator is consistent *)
Module SortFacts.
Import JsNum JsArray.

Section Sorted.
Context {A : Type}.
Variable comparator : A -> A -> number.

Lemma insert_perm x l : Permutation (JsArray.insert comparator x l) (x :: l).
Proof.
  induction l as [|y l IH]; simpl; [reflexivity|].
  destruct (after comparator x y); [|reflexivity].
  rewrite IH. apply perm_swap.
Qed.

Lemma sort_perm l : Permutation (JsArray.sort comparator l) l.
Proof.
  induction l as [|x l IH]; simpl; [reflexivity|].
  rewrite insert_perm. now constructor.
Qed.

Lemma sort_In l x : In x (JsArray.sort comparator l) <-> In x l.
Proof.
  split; apply Permutation_in; [|symmetry]; apply sort_perm.
Qed.

(** [dom] holds of the elements sorted; on them the comparator decides a
    transitive relation [le]. *)
Variable dom : A -> Prop.
Variable le : A -> A -> Prop.
Hypothesis not_after_le :
  forall x y, dom x -> dom y -> after comparator x y = false -> le x y.
Hypothesis after_le :
  forall x y, dom x -> dom y -> after comparator x y = true -> le y x.
Hypothesis le_trans :
  forall x y z, dom x -> dom y -> dom z -> le x y -> le y z -> le x z.

Lemma insert_sorted x l :
  dom x -> Forall dom l -> StronglySorted le l ->
  StronglySorted le (JsArray.insert comparator x l).
Proof using not_after_le after_le le_trans.
  intros Hx Hl Hs. induction Hs as [|y l Hs IH Hy]; simpl.
  - repeat constructor.
  - inversion Hl as [|? ? Dy Dl]; subst.
    destruct (after comparator x y) eqn:E.
    + constructor; [apply IH; assumption|].
      apply (Permutation_Forall (x := x :: l)); [symmetry; apply insert_perm|].
      constructor; [eapply after_le; eassumption|assumption].
    + constructor; [constructor; assumption|].
      pose proof (not_after_le x y Hx Dy E) as Hxy.
      constructor; [assumption|].
      rewrite List.Forall_forall in *. intros z Hz.
      eapply (le_trans x y z); auto.
Qed.

Lemma sort_sorted l :
  Forall dom l -> StronglySorted le (JsArray.sort comparator l).
Proof using not_after_le after_le le_trans.
  induction 1 as [|x l Hx Hl IH]; simpl; [constructor|].
  apply insert_sorted; [assumption| |assumption].
  apply (Permutation_Forall (x := l)); [symmetry; apply sort_perm|assumption].
Qed.

End Sorted.

Lemma sorted_after {A} (le : A -> A -> Prop) pre y post :
  StronglySorted le (pre ++ y :: post) -> Forall (le y) post.
Proof.
  induction pre as [|z pre IH]; simpl; intros H; inversion H; subst; auto.
Qed.

End SortFacts.

(** ** Version comparison *)
Module VersionFacts.
Import JsNum JsString JsConv JsArray DataLoader VersionOrder.
Import StringFacts NumFacts SortFacts.

Lemma of_decimal_valid sgn m k : valid_binary prec emax (of_decimal sgn m k) = true.
Proof.
  unfold of_decimal. destruct m; try reflexivity.
  destruct (0 <=? k)%Z; apply of_ratio_valid.
Qed.

Lemma unsignedDecimal_valid sgn s :
  valid_binary prec emax (unsignedDecimal sgn s) = true.
Proof.
  unfold unsignedDecimal.
  destruct (String.eqb s "Infinity"); [reflexivity|].
  destruct (scanDigits 10 s 0 0) as [[i ni] r1].
  destruct (match r1 with String c r => _ | EmptyString => _ end) as [[m nf] r2].
  destruct (ni + nf =? 0)%Z; [reflexivity|].
  destruct (exponentPart r2); [|reflexivity].
  apply of_decimal_valid.
Qed.

Lemma radixLiteral_valid s v :
  radixLiteral s = Some v -> valid_binary prec emax v = true.
Proof.
  unfold radixLiteral. destruct s as [|z [|c r]]; try discriminate.
  destruct (if negb (isChar z "0") then _ else _) as [base|]; try discriminate.
  intros E; inversion E; subst; clear E.
  destruct (scanDigits base r 0 0) as [[v n] [|]]; [|reflexivity].
  destruct (0 <? n)%Z; [|reflexivity].
  apply of_decimal_valid.
Qed.

(** [Number] returns NaN or a number in the representation of binary64. *)
Lemma Number_valid s : valid_binary prec emax (Number s) = true.
Proof.
  unfold Number, StringToNumber. destruct (trim s) as [|c r] eqn:E.
  - reflexivity.
  - destruct (radixLiteral (String c r)) eqn:R.
    + eapply radixLiteral_valid; eassumption.
    + destruct (isChar c "+"); [apply unsignedDecimal_valid|].
      destruct (isChar c "-"); apply unsignedDecimal_valid.
Qed.

Lemma component_valid v : valid (component v).
Proof.
  unfold component, or_else. destruct (truthy (Number v)) eqn:T.
  - split; [|apply Number_valid]. intros E. rewrite E in T. discriminate.
  - exact valid_zero.
Qed.

Lemma at_valid ap i : Forall valid ap -> valid (at_ ap i).
Proof.
  intros H. unfold at_. revert i.
  induction H; intros [|i]; simpl; auto; exact valid_zero.
Qed.

Lemma parts_valid a : Forall valid (parts a).
Proof.
  unfold parts. induction (split "." a); simpl; constructor; auto using component_valid.
Qed.

Lemma at_wf ap i : Forall valid ap -> wf (at_ ap i).
Proof. intros H. apply valid_wf, at_valid, H. Qed.

Lemma wf_compare x y : wf x -> wf y -> exists c, compare x y = Some c.
Proof. intros Hx Hy. rewrite compare_ord by assumption. eauto. Qed.

Lemma eqb_false_compare x y :
  valid x -> valid y -> eqb x y = false ->
  exists c, compare x y = Some c /\ c <> Eq.
Proof.
  intros Hx Hy. rewrite eqb_compare by assumption.
  destruct (wf_compare x y (valid_wf x Hx) (valid_wf y Hy)) as [c ->].
  destruct c; try discriminate; eexists; split; eauto; discriminate.
Qed.

Lemma eqb_true_compare x y :
  valid x -> valid y -> eqb x y = true -> compare x y = Some Eq.
Proof.
  intros Hx Hy. rewrite eqb_compare by assumption.
  destruct (compare x y) as [[]|]; congruence.
Qed.

Lemma loop_some ap bp i n r :
  Forall valid ap -> Forall valid bp ->
  loop ap bp i n = Some r ->
  exists j c, (i <= j < i + n)%nat /\ agree ap bp i j /\
    compare (at_ ap j) (at_ bp j) = Some c /\ c <> Eq /\
    r = sub (at_ ap j) (at_ bp j).
Proof.
  intros Ha Hb. revert i. induction n as [|n IH]; intros i; simpl; [discriminate|].
  destruct (eqb (at_ ap i) (at_ bp i)) eqn:E; simpl.
  - intros H. destruct (IH _ H) as (j & c & Hj & Hag & Hc & Hne & Hr).
    exists j, c. repeat split; try assumption; try lia.
    intros k Hk. destruct (Nat.eq_dec k i) as [->|Hki].
    + apply eqb_true_compare; auto using at_valid.
    + apply Hag. lia.
  - intros H. inversion H; subst; clear H.
    destruct (eqb_false_compare _ _ (at_valid ap i Ha) (at_valid bp i Hb) E)
      as (c & Hc & Hne).
    exists i, c. repeat split; try assumption; try lia.
    intros k Hk. lia.
Qed.

Lemma loop_none ap bp i n :
  Forall valid ap -> Forall valid bp ->
  loop ap bp i n = None -> agree ap bp i (i + n).
Proof.
  intros Ha Hb. revert i. induction n as [|n IH]; intros i; simpl.
  - intros _ k Hk. lia.
  - destruct (eqb (at_ ap i) (at_ bp i)) eqn:E; simpl; [|discriminate].
    intros H k Hk. destruct (Nat.eq_dec k i) as [->|Hki].
    + apply eqb_true_compare; auto using at_valid.
    + apply (IH _ H). lia.
Qed.

Lemma at_default ap i : (length ap <= i)%nat -> at_ ap i = zero.
Proof. intros H. unfold at_. now apply nth_overflow. Qed.

Lemma agree_all ap bp :
  agree ap bp 0 (Nat.max (length ap) (length bp)) ->
  forall k, compare (at_ ap k) (at_ bp k) = Some Eq.
Proof.
  intros H k. destruct (Nat.lt_ge_cases k (Nat.max (length ap) (length bp))) as [Hk|Hk].
  - apply H. lia.
  - rewrite !at_default by lia. reflexivity.
Qed.

(** Two first differences are the same index. *)
Lemma first_diff_unique ap bp j j' c c' :
  agree ap bp 0 j -> compare (at_ ap j) (at_ bp j) = Some c -> c <> Eq ->
  agree ap bp 0 j' -> compare (at_ ap j') (at_ bp j') = Some c' -> c' <> Eq ->
  j = j'.
Proof.
  intros H1 H2 H3 H4 H5 H6.
  destruct (Nat.lt_trichotomy j j') as [L|[E|L]]; [|assumption|].
  - specialize (H4 j ltac:(lia)). congruence.
  - specialize (H1 j' ltac:(lia)). congruence.
Qed.

Lemma lengthDiff_sign ap bp :
  compare (lengthDiff ap bp) zero = Some (Nat.compare (length ap) (length bp)).
Proof.
  unfold lengthDiff.
  destruct (Z.eq_dec (Z.of_nat (length ap) - Z.of_nat (length bp)) 0)%Z as [E|E].
  - rewrite E. replace (length ap) with (length bp) by lia.
    now rewrite Nat.compare_refl.
  - destruct (of_Z_spec _ E) as [H1 H2]. rewrite (signed_sign _ _ H1 H2).
    f_equal. destruct (Nat.compare_spec (length ap) (length bp)); try lia.
    + replace (_ <? 0)%Z with true; [reflexivity|symmetry; apply Z.ltb_lt; lia].
    + replace (_ <? 0)%Z with false; [reflexivity|symmetry; apply Z.ltb_ge; lia].
Qed.

(** The two ways [compareVersions] returns: at the first index where the
    components differ, with their difference, whose sign is their order; or,
    when no index differs, with the difference of the lengths. *)
Lemma compareVersions_cases a b :
  let ap := parts a in
  let bp := parts b in
  (exists j c, agree ap bp 0 j /\
     compare (at_ ap j) (at_ bp j) = Some c /\ c <> Eq /\
     compareVersions a b = sub (at_ ap j) (at_ bp j) /\
     compare (compareVersions a b) zero = Some c)
  \/ ((forall k, compare (at_ ap k) (at_ bp k) = Some Eq) /\
      compareVersions a b = lengthDiff ap bp /\
      compare (compareVersions a b) zero
      = Some (Nat.compare (length ap) (length bp))).
Proof.
  intros ap bp. unfold compareVersions. fold ap bp.
  destruct (loop ap bp 0 (Nat.max (length ap) (length bp))) as [r|] eqn:L.
  - left. destruct (loop_some _ _ _ _ _ (parts_valid a) (parts_valid b) L)
      as (j & c & Hj & Hag & Hc & Hne & ->).
    exists j, c. repeat split; try assumption.
    destruct (sub_sign _ _ c (at_wf _ j (parts_valid a)) (at_wf _ j (parts_valid b)) Hc Hne)
      as [H1 H2].
    rewrite (signed_sign _ _ H1 H2). destruct c; congruence.
  - right. split; [|split; [reflexivity|apply lengthDiff_sign]].
    apply agree_all. exact (loop_none _ _ _ _ (parts_valid a) (parts_valid b) L).
Qed.


Lemma neg_involutive r : neg (neg r) = r.
Proof. destruct r as [[]|[]| |[] m e]; reflexivity. Qed.

Lemma loop_swap ap bp i n :
  Forall valid ap -> Forall valid bp ->
  loop bp ap i n = option_map neg (loop ap bp i n).
Proof.
  intros Ha Hb. revert i. induction n as [|n IH]; intros i; simpl; [reflexivity|].
  rewrite (eqb_sym (at_ bp i) (at_ ap i)).
  destruct (eqb (at_ ap i) (at_ bp i)) eqn:E; simpl; [apply IH|].
  destruct (eqb_false_compare _ _ (at_valid ap i Ha) (at_valid bp i Hb) E)
    as (c & Hc & Hne).
  f_equal. rewrite (sub_opp _ _ c Hc Hne). now rewrite neg_involutive.
Qed.

Lemma loop_refl ap i n : Forall valid ap -> loop ap ap i n = None.
Proof.
  intros Ha. revert i. induction n as [|n IH]; intros i; simpl; [reflexivity|].
  rewrite eqb_refl; [apply IH|]. exact (proj1 (at_valid ap i Ha)).
Qed.

Lemma lengthDiff_swap ap bp :
  eqb (lengthDiff ap bp) (neg (lengthDiff bp ap)) = true.
Proof.
  unfold lengthDiff.
  set (z := (Z.of_nat (length ap) - Z.of_nat (length bp))%Z).
  replace (Z.of_nat (length bp) - Z.of_nat (length ap))%Z with (- z)%Z by (unfold z; lia).
  destruct (Z.eq_dec z 0%Z) as [E|Hz]; [rewrite E; reflexivity|].
  unfold of_Z, neg. rewrite binary_normalize_opp by lia.
  rewrite Z.opp_involutive. apply eqb_refl.
  destruct (of_Z_spec z Hz) as [H _]. unfold of_Z in H.
  destruct (binary_normalize prec emax z 0 false); simpl in H; congruence.
Qed.

(** C2. Swapping the arguments of [compareVersions] negates the result, and
    a version string compares equal to itself: [compareVersions(a, b) ==
    -compareVersions(b, a)] and [compareVersions(a, a) == 0]. *)
Theorem compareVersions_antisymmetric (a b : string) :
  eqb (compareVersions a b) (neg (compareVersions b a)) = true
  /\ eqb (compareVersions a a) zero = true.
Proof.
  split.
  - unfold compareVersions.
    rewrite (Nat.max_comm (length (parts b)) (length (parts a))).
    rewrite (loop_swap (parts a) (parts b)) by apply parts_valid.
    destruct (loop (parts a) (parts b) 0 _) as [r|] eqn:L; simpl.
    + rewrite neg_involutive. apply eqb_refl.
      destruct (loop_some _ _ _ _ _ (parts_valid a) (parts_valid b) L)
        as (j & c & _ & _ & Hc & Hne & ->).
      destruct (sub_sign _ _ c (at_wf _ j (parts_valid a)) (at_wf _ j (parts_valid b)) Hc Hne)
        as [H _].
      destruct (sub _ _); simpl in H; congruence.
    + apply lengthDiff_swap.
  - unfold compareVersions. rewrite loop_refl by apply parts_valid.
    unfold lengthDiff. now rewrite Z.sub_diag.
Qed.


(** ** The order behind the sign of [compareVersions] *)

Lemma compare_key a b k c :
  compare (at_ (parts a) k) (at_ (parts b) k) = Some c ->
  lex (key a k) (key b k) = c.
Proof.
  unfold key. rewrite compare_ord by (apply at_wf, parts_valid). congruence.
Qed.

Lemma agree_key a b j :
  agree (parts a) (parts b) 0 j -> forall k, (k < j)%nat -> key a k = key b k.
Proof.
  intros H k Hk. apply lex_eq. apply compare_key. apply H. lia.
Qed.

Lemma sign_total a b : exists c, compare (compareVersions a b) zero = Some c.
Proof.
  destruct (compareVersions_cases a b) as [(j & c & _ & _ & _ & _ & H)|(_ & _ & H)]; eauto.
Qed.

Lemma sign_before a b c :
  compare (compareVersions a b) zero = Some c ->
  match c with
  | Lt => before a b
  | Eq => same a b
  | Gt => before b a
  end.
Proof.
  intros Hs.
  destruct (compareVersions_cases a b)
    as [(j & c' & Hag & Hc & Hne & _ & H)|(Hall & _ & H)];
    rewrite H in Hs; inversion Hs; subst; clear Hs.
  - pose proof (agree_key a b j Hag) as Hk.
    pose proof (compare_key a b j c Hc) as Hl.
    destruct c; [congruence| |].
    + left. exists j. split; assumption.
    + left. exists j. split; [intros k L; symmetry; auto|].
      rewrite lex_antisym, Hl. reflexivity.
  - assert (Hk : forall k, key a k = key b k).
    { intros k. apply lex_eq. apply compare_key. apply Hall. }
    destruct (Nat.compare_spec (length (parts a)) (length (parts b))).
    + split; assumption.
    + right. split; assumption.
    + right. split; [intros k; symmetry; apply Hk|assumption].
Qed.

Lemma before_irrefl a : ~ before a a.
Proof.
  intros [(j & _ & H)|(_ & H)]; [rewrite lex_refl in H; discriminate|lia].
Qed.

Lemma before_trans a b c : before a b -> before b c -> before a c.
Proof.
  intros [(j1 & E1 & L1)|(E1 & L1)] [(j2 & E2 & L2)|(E2 & L2)].
  - left. destruct (Nat.lt_trichotomy j1 j2) as [L|[L|L]].
    + exists j1. split; [intros k Hk; rewrite E1, E2 by lia; reflexivity|].
      rewrite <- E2 by lia. assumption.
    + subst j2. exists j1. split; [intros k Hk; rewrite E1, E2 by lia; reflexivity|].
      eapply lex_lt_trans; eassumption.
    + exists j2. split; [intros k Hk; rewrite E1, E2 by lia; reflexivity|].
      rewrite E1 by lia. assumption.
  - left. exists j1. split; [intros k Hk; rewrite E1, E2 by lia; reflexivity|].
    rewrite <- E2. assumption.
  - left. exists j2. split; [intros k Hk; rewrite E1, E2 by lia; reflexivity|].
    rewrite E1. assumption.
  - right. split; [intros k; rewrite E1, E2; reflexivity|lia].
Qed.

Lemma before_same a b c : before a b -> same b c -> before a c.
Proof.
  intros [(j & E2 & L2)|(E2 & L2)] [E L].
  - left. exists j. split; [intros k Hk; rewrite E2, E by lia; reflexivity|].
    rewrite <- E. assumption.
  - right. split; [intros k; rewrite E2, E; reflexivity|lia].
Qed.

Lemma same_sym a b : same a b -> same b a.
Proof. intros [E L]. split; [intros k; symmetry; apply E|lia]. Qed.

Lemma same_not_before a b : same a b -> ~ before a b.
Proof.
  intros [E L] [(j & _ & H)|(_ & H)]; [rewrite E, lex_refl in H; discriminate|lia].
Qed.

(** The sign is decided by the order: the three cases exclude each other. *)
Lemma before_sign a b : before a b -> compare (compareVersions a b) zero = Some Lt.
Proof.
  intros H. destruct (sign_total a b) as [c Hc]. rewrite Hc.
  pose proof (sign_before a b c Hc) as Hs. destruct c; [| reflexivity |]; exfalso.
  - exact (same_not_before a b Hs H).
  - exact (before_irrefl a (before_trans _ _ _ H Hs)).
Qed.

Lemma ltb_before a b : ltb (compareVersions a b) zero = true <-> before a b.
Proof.
  rewrite ltb_zero. split.
  - destruct (compare (compareVersions a b) zero) as [[]|] eqn:E; try discriminate.
    intros _. exact (sign_before a b Lt E).
  - intros H. now rewrite (before_sign a b H).
Qed.

Lemma gtb_before a b : gtb (compareVersions a b) zero = true <-> before b a.
Proof.
  rewrite gtb_zero. split.
  - destruct (compare (compareVersions a b) zero) as [[]|] eqn:E; try discriminate.
    intros _. exact (sign_before a b Gt E).
  - intros H. destruct (sign_total a b) as [c Hc]. rewrite Hc.
    pose proof (sign_before a b c Hc) as Hs. destruct c; [| |reflexivity]; exfalso.
    + exact (same_not_before b a (same_sym _ _ Hs) H).
    + exact (before_irrefl a (before_trans _ _ _ Hs H)).
Qed.

Lemma notAfter_trans a b c :
  gtb (compareVersions a b) zero = false ->
  gtb (compareVersions b c) zero = false ->
  gtb (compareVersions a c) zero = false.
Proof.
  intros H1 H2.
  destruct (gtb (compareVersions a c) zero) eqn:H3; [exfalso|reflexivity].
  apply gtb_before in H3.
  assert (N1 : ~ before b a) by (rewrite <- gtb_before; congruence).
  assert (N2 : ~ before c b) by (rewrite <- gtb_before; congruence).
  destruct (sign_total a b) as [s Hs]. pose proof (sign_before a b s Hs) as Hab.
  destruct s; [| |contradiction].
  - apply N2. eapply before_same; eassumption.
  - apply N2. eapply before_trans; eassumption.
Qed.

Lemma notAfter_total a b :
  gtb (compareVersions a b) zero = true -> gtb (compareVersions b a) zero = false.
Proof.
  intros H1.
  destruct (gtb (compareVersions b a) zero) eqn:H2; [exfalso|reflexivity].
  apply gtb_before in H1. apply gtb_before in H2.
  exact (before_irrefl a (before_trans _ _ _ H2 H1)).
Qed.

Lemma sortVersions_sorted values :
  StronglySorted (fun a b => gtb (compareVersions a b) zero = false)
                 (sortVersions values asc)
  /\ StronglySorted (fun a b => gtb (compareVersions b a) zero = false)
                    (sortVersions values desc).
Proof.
  unfold sortVersions. split.
  - apply (sort_sorted _ (fun _ => True)); [| | |apply List.Forall_forall; auto].
    + intros a b _ _ H. exact H.
    + intros a b _ _ H. now apply notAfter_total.
    + intros a b c _ _ _. apply notAfter_trans.
  - apply (sort_sorted _ (fun _ => True)); [| | |apply List.Forall_forall; auto].
    + intros a b _ _ H. exact H.
    + intros a b _ _ H. now apply notAfter_total.
    + intros a b c _ _ _ H1 H2. eapply notAfter_trans; eassumption.
Qed.

(** C10. The sign of [compareVersions] is transitive; being not after is a
    total preorder, so [sortVersions] returns the versions in order; and
    strings that differ only in non-numeric text compare equal without
    being equal. *)
Theorem compareVersions_transitive :
  (forall a b c : string,
     ltb (compareVersions a b) zero = true ->
     ltb (compareVersions b c) zero = true ->
     ltb (compareVersions a c) zero = true)
  /\ (forall a b c : string,
        gtb (compareVersions a b) zero = false ->
        gtb (compareVersions b c) zero = false ->
        gtb (compareVersions a c) zero = false)
  /\ (forall a b : string,
        gtb (compareVersions a b) zero = false \/
        gtb (compareVersions b a) zero = false)
  /\ (forall values : list string,
        StronglySorted (fun a b => gtb (compareVersions a b) zero = false)
                       (sortVersions values asc)
        /\ StronglySorted (fun a b => gtb (compareVersions b a) zero = false)
                          (sortVersions values desc))
  /\ (compareVersions "1.a" "1.b" = zero /\ "1.a" <> "1.b").
Proof.
  split; [|split; [|split; [|split]]].
  - intros a b c H1 H2. apply ltb_before.
    apply ltb_before in H1. apply ltb_before in H2.
    eapply before_trans; eassumption.
  - apply notAfter_trans.
  - intros a b.
    destruct (gtb (compareVersions a b) zero) eqn:H1; [right|left; reflexivity].
    now apply notAfter_total.
  - apply sortVersions_sorted.
  - split; [vm_compute; reflexivity|discriminate].
Qed.

(** Three versions in increasing order. *)
Lemma compareVersions_transitive_witness :
  ltb (compareVersions "1.2" "1.10") zero = true
  /\ ltb (compareVersions "1.10" "2.0") zero = true
  /\ ltb (compareVersions "1.2" "2.0") zero = true.
Proof.
  split; [vm_compute; reflexivity|split; [vm_compute; reflexivity|]].
  apply (proj1 compareVersions_transitive "1.2" "1.10" "2.0"); vm_compute; reflexivity.
Defined.


Lemma at_parts a i v :
  nth_error (split "." a) i = Some v ->
  at_ (parts a) i = if truthy (Number v) then Number v else zero.
Proof.
  intros H. unfold at_, parts. apply nth_error_nth.
  rewrite nth_error_map, H. reflexivity.
Qed.

Lemma sign_flags r c :
  compare r zero = Some c ->
  ltb r zero = match c with Lt => true | _ => false end
  /\ gtb r zero = match c with Gt => true | _ => false end
  /\ eqb r zero = match c with Eq => true | _ => false end.
Proof. rewrite ltb_zero, gtb_zero, eqb_zero. intros ->. destruct c; auto. Qed.

(** With equal components where both versions have one, and no negative
    component further on in the longer version, the shorter one is first. *)
Lemma shorter_first a b :
  (length (parts a) < length (parts b))%nat ->
  (forall k, (k < length (parts a))%nat ->
             eqb (at_ (parts a) k) (at_ (parts b) k) = true) ->
  (forall k, (length (parts a) <= k)%nat -> ltb (at_ (parts b) k) zero = false) ->
  ltb (compareVersions a b) zero = true.
Proof.
  intros Hlen Hshared Hext.
  pose proof (parts_valid a) as Va. pose proof (parts_valid b) as Vb.
  rewrite ltb_zero.
  destruct (compareVersions_cases a b)
    as [(j & c & _ & Hc & Hne & _ & Hs)|(_ & _ & Hs)]; rewrite Hs.
  - destruct (Nat.lt_ge_cases j (length (parts a))) as [L|G].
    + apply Hshared, eqb_true_compare in L; auto using at_valid. congruence.
    + specialize (Hext j G). rewrite (at_default _ _ G) in Hc.
      rewrite ltb_zero, (compare_antisym zero), Hc in Hext.
      destruct c; simpl in Hext; congruence.
  - apply Nat.compare_lt_iff in Hlen. now rewrite Hlen.
Qed.

(** C1. [compareVersions] splits both strings at the dots (the pieces hold
    no dot and, joined by dots, give the string back) and reads every piece
    as a number: a piece that is no number (its conversion is NaN) counts as
    [0], a piece that is a number counts as that number, and a missing piece
    counts as [0].  The components are compared from the left up to the
    length of the longer sequence; the first index at which the two numbers
    differ decides, by their difference; when no index differs, the missing
    components counting as [0], the lengths decide and the shorter sequence
    sorts first.  So the shorter sequence is first when the components that
    both have are equal and no further component of the longer one is
    negative.  1.19.1 is before 1.21.1, 1.2 before 1.2.0, and 2.10 after
    2.9; 1.x, whose second piece is no number, compares equal to 1.0 and
    sorts before 1.1. *)
Theorem compareVersions_dotted_numeric (a b : string) :
  let ap := parts a in
  let bp := parts b in
  (join "." (split "." a) = a
   /\ Forall (fun v => hasChar "." v = false) (split "." a)
   /\ length ap = length (split "." a)
   /\ (forall i v, nth_error (split "." a) i = Some v ->
         at_ ap i = if truthy (Number v) then Number v else zero)
   /\ (forall i v, nth_error (split "." a) i = Some v ->
         (Number v = S754_nan -> at_ ap i = zero)
         /\ (Number v <> S754_nan -> eqb (at_ ap i) (Number v) = true))
   /\ (forall i, (length ap <= i)%nat -> at_ ap i = zero))
  /\ (forall j,
        (forall k, (k < j)%nat -> eqb (at_ ap k) (at_ bp k) = true) ->
        eqb (at_ ap j) (at_ bp j) = false ->
        compareVersions a b = sub (at_ ap j) (at_ bp j)
        /\ ltb (compareVersions a b) zero = ltb (at_ ap j) (at_ bp j)
        /\ gtb (compareVersions a b) zero = gtb (at_ ap j) (at_ bp j))
  /\ ((forall k, eqb (at_ ap k) (at_ bp k) = true) ->
        ltb (compareVersions a b) zero = (length ap <? length bp)%nat
        /\ gtb (compareVersions a b) zero = (length bp <? length ap)%nat
        /\ eqb (compareVersions a b) zero = (length ap =? length bp)%nat)
  /\ ((length ap < length bp)%nat ->
      (forall k, (k < length ap)%nat -> eqb (at_ ap k) (at_ bp k) = true) ->
      (forall k, (length ap <= k)%nat -> ltb (at_ bp k) zero = false) ->
      ltb (compareVersions a b) zero = true
      /\ gtb (compareVersions b a) zero = true)
  /\ ltb (compareVersions "1.19.1" "1.21.1") zero = true
  /\ ltb (compareVersions "1.2" "1.2.0") zero = true
  /\ gtb (compareVersions "2.10" "2.9") zero = true
  /\ Number "x" = S754_nan
  /\ eqb (compareVersions "1.x" "1.0") zero = true
  /\ ltb (compareVersions "1.x" "1.1") zero = true.
Proof.
  cbv zeta. split; [|split; [|split; [|split]]].
  - split; [apply split_join|]. split; [apply split_pieces|].
    split; [apply length_map|split; [|split]].
    + intros i v. apply at_parts.
    + intros i v H. rewrite (at_parts _ _ _ H). split.
      * intros ->. reflexivity.
      * intros N. destruct (Number v) as [s|s| |s m e] eqn:E; simpl.
        -- destruct s; reflexivity.
        -- now apply eqb_refl.
        -- congruence.
        -- now apply eqb_refl.
    + intros i. apply at_default.
  - intros j Hbefore Hj.
    pose proof (parts_valid a) as Va. pose proof (parts_valid b) as Vb.
    assert (Hag : agree (parts a) (parts b) 0 j).
    { intros k Hk. apply eqb_true_compare; auto using at_valid.
      apply Hbefore. lia. }
    destruct (eqb_false_compare _ _ (at_valid _ j Va) (at_valid _ j Vb) Hj)
      as (c & Hc & Hne).
    destruct (compareVersions_cases a b)
      as [(j' & c' & Hag' & Hc' & Hne' & Hv & Hs)|(Hall & _)].
    + assert (j' = j) by (eapply first_diff_unique; eassumption). subst j'.
      assert (c' = c) by congruence. subst c'.
      destruct (sign_flags _ _ Hs) as (-> & -> & _).
      rewrite ltb_compare, gtb_compare, Hc by auto using at_valid. auto.
    + specialize (Hall j). congruence.
  - intros Hall.
    destruct (compareVersions_cases a b)
      as [(j' & c' & _ & Hc' & Hne' & _)|(_ & _ & Hs)].
    + specialize (Hall j').
      apply eqb_true_compare in Hall; auto using at_valid, parts_valid. congruence.
    + destruct (sign_flags _ _ Hs) as (-> & -> & ->).
      destruct (Nat.compare_spec (length (parts a)) (length (parts b))) as [E|L|L];
        repeat split; symmetry;
        try (apply Nat.ltb_lt; lia); try (apply Nat.ltb_ge; lia);
        try (apply Nat.eqb_eq; lia); try (apply Nat.eqb_neq; lia).
  - intros Hlen Hshared Hext.
    assert (L : ltb (compareVersions a b) zero = true) by now apply shorter_first.
    split; [exact L|]. now apply gtb_before, ltb_before.
  - repeat split; vm_compute; reflexivity.
Qed.

(** 2.10 against 2.9: the components at index 0 are equal, those at index 1
    are 10 and 9. *)
Lemma compareVersions_dotted_numeric_witness :
  compareVersions "2.10" "2.9"
  = sub (at_ (parts "2.10") 1) (at_ (parts "2.9") 1).
Proof.
  apply (proj1 (proj2 (compareVersions_dotted_numeric "2.10" "2.9")) 1%nat).
  - intros k Hk. assert (k = 0%nat) as -> by lia. vm_compute. reflexivity.
  - vm_compute. reflexivity.
Defined.

(** In 1.2 and 1.2.-1 the components that both versions have are equal,
    and 1.2 is the shorter; its missing third component counts as 0, which
    is above -1, so 1.2 sorts after 1.2.-1. *)
Lemma compareVersions_shared_components_counterexample :
  ~ (forall a b : string,
       (forall k, (k < length (parts a))%nat -> (k < length (parts b))%nat ->
                  eqb (at_ (parts a) k) (at_ (parts b) k) = true) ->
       (length (parts a) < length (parts b))%nat ->
       ltb (compareVersions a b) zero = true).
Proof.
  intros H. specialize (H "1.2" "1.2.-1").
  assert (L : ltb (compareVersions "1.2" "1.2.-1") zero = true).
  { apply H.
    - intros k Hk _. change (length (parts "1.2")) with 2%nat in Hk.
      destruct k as [|[|k]]; [vm_compute; reflexivity|vm_compute; reflexivity|lia].
    - vm_compute. lia. }
  vm_compute in L. discriminate L.
Qed.

End VersionFacts.

(** ** The guided filter and the free-text search *)
Module SelectorFacts.
Import JsString Types App AppSpec StringFacts SortFacts.
Local Open Scope string_scope.

Lemma Loader_eqb_eq a b : Loader_eqb a b = true <-> a = b.
Proof. destruct a, b; simpl; split; congruence. Qed.

Lemma existsb_string x l : existsb (String.eqb x) l = true <-> In x l.
Proof.
  rewrite existsb_exists. split.
  - intros (y & Hy & E). apply String.eqb_eq in E. now subst.
  - intros H. exists x. split; [assumption|apply String.eqb_refl].
Qed.

Lemma existsb_loader x l : existsb (Loader_eqb x) l = true <-> In x l.
Proof.
  rewrite existsb_exists. split.
  - intros (y & Hy & E). apply Loader_eqb_eq in E. now subst.
  - intros H. exists x. split; [assumption|now apply Loader_eqb_eq].
Qed.

Lemma buildMatchesExtensions_spec b required :
  buildMatchesExtensions b required = true
  <-> forall ext, In ext required -> In ext (extensions b).
Proof.
  unfold buildMatchesExtensions. destruct required as [|r required].
  - simpl. split; [intros _ ext []|reflexivity].
  - cbn [length Nat.eqb]. rewrite forallb_forall. split.
    + intros H ext Hin. apply existsb_string. now apply H.
    + intros H ext Hin. apply existsb_string. now apply H.
Qed.

Lemma guideMatches_and v l exts e :
  guideMatches v l exts e
  = (isEmpty v || String.eqb (mcVersion e) v)
    && match l with Some x => existsb (Loader_eqb x) (modLoader e) | None => true end
    && buildMatchesExtensions e exts.
Proof.
  unfold guideMatches.
  destruct (isEmpty v), (String.eqb (mcVersion e) v), l as [x|]; simpl;
    try reflexivity; destruct (existsb (Loader_eqb x) (modLoader e)); reflexivity.
Qed.

Lemma version_criterion v e :
  isEmpty v || String.eqb (mcVersion e) v = true <-> (v <> EmptyString -> mcVersion e = v).
Proof.
  rewrite orb_true_iff, isEmpty_true, String.eqb_eq. split.
  - intros [->|E] H; congruence.
  - intros H. destruct (string_dec v EmptyString) as [E|E]; auto.
Qed.

Lemma loader_criterion (l : option Loader) e :
  match l with Some x => existsb (Loader_eqb x) (modLoader e) | None => true end = true
  <-> (forall x, l = Some x -> In x (modLoader e)).
Proof.
  destruct l as [x|].
  - rewrite existsb_loader. split.
    + intros H y E. inversion E; subst. assumption.
    + intros H. now apply H.
  - split; [intros _ x E; discriminate|reflexivity].
Qed.

Lemma guideMatches_spec v l exts e :
  guideMatches v l exts e = true <-> meetsCriteria v l exts e.
Proof.
  rewrite guideMatches_and, !andb_true_iff.
  rewrite version_criterion, loader_criterion, buildMatchesExtensions_spec.
  unfold meetsCriteria. tauto.
Qed.

(** C3. The guided filter returns exactly the entries that meet the three
    criteria: the selected version, when one is selected, is the entry's
    version tag; the selected loader, when one is selected, is among the
    entry's loaders; every required extension is among the entry's
    extensions.  The entries keep their order; the later revision of the
    component returns the same entries, sorted.  Requiring luaj and js keeps
    an entry with luaj, js and jython and drops an entry with luaj alone. *)
Theorem guideResults_exact (dateTime : string -> option Z)
    (builds : list EnrichedBuild) (v : string)
    (l : option Loader) (exts : list string) :
  (forall e, guideMatches v l exts e = true <-> meetsCriteria v l exts e)
  /\ guideResults builds v l exts = List.filter (guideMatches v l exts) builds
  /\ (forall e, In e (guideResults builds v l exts)
                <-> In e builds /\ meetsCriteria v l exts e)
  /\ (forall e, In e (AppNext.guideResults dateTime builds v l exts)
                <-> In e builds /\ meetsCriteria v l exts e)
  /\ guideResults [sampleEntry ["luaj"] None "1.0"; sampleEntry ["luaj"; "js"; "jython"] None "1.1"]
                  EmptyString None ["luaj"; "js"]
     = [sampleEntry ["luaj"; "js"; "jython"] None "1.1"].
Proof.
  split; [|split; [|split; [|split]]].
  - intros e. apply guideMatches_spec.
  - reflexivity.
  - intros e. unfold guideResults. rewrite filter_In, guideMatches_spec. reflexivity.
  - intros e. unfold AppNext.guideResults.
    rewrite sort_In, filter_In, guideMatches_spec. reflexivity.
  - reflexivity.
Qed.

(** The end-to-end scenario of the specification: one fabric build for
    1.21.1 with luaj and js is found when luaj is required. *)
Lemma guideResults_exact_witness :
  In (sampleEntry ["luaj"; "js"] None "1.0")
     (guideResults [sampleEntry ["luaj"; "js"] None "1.0"] "1.21.1" (Some fabric) ["luaj"]).
Proof.
  apply (proj1 (proj2 (proj2 (guideResults_exact (fun _ => None)
           [sampleEntry ["luaj"; "js"] None "1.0"] "1.21.1" (Some fabric) ["luaj"])))).
  split; [left; reflexivity|]. split; [|split].
  - intros _. reflexivity.
  - intros x E. inversion E. left. reflexivity.
  - intros ext [<-|[]]. left. reflexivity.
Defined.

Lemma term_occurs (term text : string) :
  (if isEmpty term then true else includes text term) = true
  <-> occursIn term text.
Proof.
  destruct (isEmpty term) eqn:E; [|apply includes_spec].
  apply isEmpty_true in E. rewrite E. split; [|reflexivity].
  intros _. apply includes_spec, includes_empty.
Qed.

(** C4, as the code has it.  The search term is the query trimmed and in
    lower case; an entry matches when the term occurs in the lower-cased
    text of its fields: version tag, software version, fork, repository,
    release type, loaders, extensions and notes, joined by single spaces.
    A query that is empty or blank matches every entry.  The later revision
    of the component puts the source URL after the repository and the word
    deprecated, for a deprecated build, after the release type. *)
Theorem searchMatches_substring (sourceUrl : EnrichedBuild -> option string)
    (deprecated : EnrichedBuild -> bool) (search : string) (e : EnrichedBuild) :
  (searchMatches search e = true
   <-> occursIn (toLowerCase (trim search)) (toLowerCase (fieldsText e)))
  /\ (trim search = EmptyString -> searchMatches search e = true)
  /\ (AppNext.searchMatches sourceUrl deprecated search e = true
      <-> occursIn (toLowerCase (trim search))
                   (toLowerCase (fieldsTextNext sourceUrl deprecated e)))
  /\ (trim search = EmptyString -> AppNext.searchMatches sourceUrl deprecated search e = true).
Proof.
  split; [|split; [|split]].
  - apply term_occurs.
  - unfold searchMatches. intros ->. reflexivity.
  - apply term_occurs.
  - unfold AppNext.searchMatches. intros ->. reflexivity.
Qed.

(** A blank query matches. *)
Lemma searchMatches_substring_witness :
  searchMatches "  " (sampleEntry ["js"] None "1.9.0") = true.
Proof.
  apply (proj1 (proj2 (searchMatches_substring (fun _ => None) (fun _ => false)
           "  " (sampleEntry ["js"] None "1.9.0")))).
  reflexivity.
Defined.

(** The query is trimmed first: fabric followed by two spaces matches an
    entry in whose text fabric is followed by one space and js, so the
    lower-cased query itself does not occur in the text. *)
Lemma searchMatches_untrimmed_counterexample :
  ~ (forall (search : string) (e : EnrichedBuild),
       searchMatches search e = true
       <-> occursIn (toLowerCase search) (toLowerCase (fieldsText e))).
Proof.
  intros H.
  specialize (H "fabric  " (sampleEntry ["js"] None "1.9.0")).
  destruct H as [H _]. specialize (H eq_refl).
  apply includes_spec in H. vm_compute in H. discriminate.
Qed.

End SelectorFacts.

(** ** The sort of the list view *)
Module ListFacts.
Import JsNum JsString Types DataLoader JsArray App AppSpec Host NumFacts SortFacts.
Local Open Scope Z_scope.

Lemma factor_sign r d :
  wf r -> compare (mul r (factor d)) zero = option_map (turn d) (compare r zero).
Proof.
  intros Hr. destruct d.
  - change (factor asc) with (S754_finite false 4503599627370496 (-52)).
    rewrite mul_unit_sign by assumption. now destruct (compare r zero).
  - change (factor desc) with (S754_finite true 4503599627370496 (-52)).
    rewrite mul_unit_sign by assumption. now destruct (compare r zero).
Qed.

Lemma compare_zero_ord r : wf r -> compare r zero = Some (lex (ord r) (0, 0)).
Proof. intros H. now rewrite compare_ord by (assumption || exact I). Qed.

Section Host.
Variable dateTime : string -> option Z.
Variable localeCompare : string -> string -> Z.

Local Abbreviation stamp := (App.stamp dateTime).
Local Abbreviation comparator := (App.comparator dateTime localeCompare).
Local Abbreviation dated := (AppSpec.dated dateTime).
Local Abbreviation notLater := (AppSpec.notLater dateTime).

Lemma stamp_numeric (e : EnrichedBuild) : stamp e = S754_nan \/ wf (stamp e).
Proof.
  unfold App.stamp, getTime. destruct (publishedAt e) as [s|]; [|right; exact I].
  destruct (isEmpty s); [right; exact I|].
  destruct (dateTime s); [right; apply of_Z_wf|left; reflexivity].
Qed.

Lemma stamp_missing (e : EnrichedBuild) : publishedAt e = None -> stamp e = zero.
Proof. unfold App.stamp. now intros ->. Qed.

Lemma after_publishedAt (x y : EnrichedBuild) :
  wf (stamp x) -> wf (stamp y) ->
  after (comparator byPublishedAt asc) x y
  = match lex (ord (stamp x)) (ord (stamp y)) with Gt => true | _ => false end.
Proof.
  intros Hx Hy. unfold after, App.comparator. rewrite gtb_zero.
  pose proof (compare_ord _ _ Hx Hy) as Hc.
  destruct (sub_compare _ _ _ Hx Hy Hc) as [[-> E]|[Hw Hs]].
  - rewrite E. reflexivity.
  - rewrite factor_sign, Hs by assumption. simpl.
    now destruct (lex (ord (stamp x)) (ord (stamp y))).
Qed.

Lemma sort_publishedAt (l : list EnrichedBuild) :
  Forall dated l ->
  forall pre y post,
    JsArray.sort (comparator byPublishedAt asc) l = pre ++ y :: post ->
    publishedAt y <> None -> forall x, In x post -> publishedAt x <> None.
Proof.
  intros Hl pre y post E Hy x Hx Hnone.
  assert (Hs : StronglySorted notLater (JsArray.sort (comparator byPublishedAt asc) l)).
  { apply (sort_sorted _ dated notLater); [| | |assumption].
    - intros a b [Ha _] [Hb _] H. rewrite after_publishedAt in H by assumption.
      unfold notLater. destruct (lex _ _); congruence.
    - intros a b [Ha _] [Hb _] H. rewrite after_publishedAt in H by assumption.
      unfold notLater. rewrite lex_antisym. destruct (lex _ _); simpl; congruence.
    - intros a b c _ _ _. apply lex_le_trans. }
  rewrite E in Hs. apply sorted_after in Hs. rewrite List.Forall_forall in Hs.
  specialize (Hs x Hx). unfold notLater in Hs.
  assert (Hd : dated y).
  { rewrite List.Forall_forall in Hl. apply Hl.
    apply (sort_In (comparator byPublishedAt asc)). rewrite E.
    apply in_or_app. right. left. reflexivity. }
  destruct Hd as [Hw Hp]. specialize (Hp Hy).
  rewrite (stamp_missing x Hnone) in Hs.
  rewrite gtb_zero, compare_zero_ord in Hp by assumption.
  change (ord zero) with (0, 0) in Hs.
  destruct (lex (ord (stamp y)) (0, 0)); congruence.
Qed.

Lemma dated_filter (f : EnrichedBuild -> bool) (builds : list EnrichedBuild) :
  (forall e : EnrichedBuild,
     In e builds -> publishedAt e <> None -> gtb (stamp e) zero = true) ->
  Forall dated (List.filter f builds).
Proof.
  intros H. apply List.Forall_forall. intros e He. apply filter_In in He as [He _].
  split.
  - destruct (publishedAt e) as [s|] eqn:E.
    + specialize (H e He). rewrite E in H. specialize (H ltac:(discriminate)).
      destruct (stamp_numeric e) as [N|W]; [|assumption].
      rewrite N in H. discriminate.
    + rewrite (stamp_missing e E). exact I.
  - apply H. assumption.
Qed.

(** *** By software version *)

Lemma after_jsMacrosVersion d (x y : EnrichedBuild) :
  after (comparator byJsMacrosVersion d) x y
  = match d with
    | asc => 0 <? localeCompare (version x) (version y)
    | desc => localeCompare (version x) (version y) <? 0
    end.
Proof.
  unfold after, App.comparator, version.
  rewrite gtb_zero, factor_sign, of_Z_sign by apply of_Z_wf. simpl.
  set (z := localeCompare _ _).
  destruct d; simpl; destruct (Z.compare_spec z 0); simpl; symmetry;
    try (apply Z.ltb_lt; lia); try (apply Z.ltb_ge; lia).
Qed.

Lemma sort_jsMacrosVersion (l : list EnrichedBuild) :
  consistent localeCompare ->
  StronglySorted (fun x y => localeCompare (version x) (version y) <= 0)
                 (JsArray.sort (comparator byJsMacrosVersion asc) l)
  /\ StronglySorted (fun x y => 0 <= localeCompare (version x) (version y))
                    (JsArray.sort (comparator byJsMacrosVersion desc) l).
Proof.
  intros [Hanti Htrans]. split.
  - apply (sort_sorted _ (fun _ => True)); [| | |apply List.Forall_forall; auto].
    + intros a b _ _ H. rewrite after_jsMacrosVersion in H. apply Z.ltb_ge in H. exact H.
    + intros a b _ _ H. rewrite after_jsMacrosVersion in H. apply Z.ltb_lt in H.
      specialize (Hanti (version a) (version b)). lia.
    + intros a b c _ _ _. apply Htrans.
  - apply (sort_sorted _ (fun _ => True)); [| | |apply List.Forall_forall; auto].
    + intros a b _ _ H. rewrite after_jsMacrosVersion in H. apply Z.ltb_ge in H. exact H.
    + intros a b _ _ H. rewrite after_jsMacrosVersion in H. apply Z.ltb_lt in H.
      specialize (Hanti (version a) (version b)). lia.
    + intros a b c _ _ _ H1 H2.
      pose proof (Hanti (version a) (version b)).
      pose proof (Hanti (version b) (version c)).
      pose proof (Hanti (version a) (version c)).
      specialize (Htrans (version c) (version b) (version a)). lia.
Qed.

End Host.

End ListFacts.

(** ** The loader *)
Module LoaderFacts.
Import JsString Completion Types DataLoader CatalogSpec StringFacts.
Local Open Scope string_scope.

Lemma flatten_cons k arr rest :
  flatten ((k, arr) :: rest)
  = (map (fun b => {| build := b; mcVersion := k |}) arr ++ flatten rest)%list.
Proof. reflexivity. Qed.

(** C6. Flattening the grouped catalog yields one entry for every build of
    every group, in order, each with the fields of its build unchanged and
    tagged with the key of its group; two groups of one build each yield
    the two builds with their two tags. [loadBuilds] returns this sequence
    when the catalog is retrieved. *)
Theorem flatten_tags_each_build (versions : list (string * list Build)) :
  map build (flatten versions) = concat (map snd versions)
  /\ map mcVersion (flatten versions)
     = flat_map (fun '(k, arr) => repeat k (length arr)) versions
  /\ (forall e : EnrichedBuild,
        In e (flatten versions)
        <-> exists k arr, In (k, arr) versions /\ In (build e) arr /\ mcVersion e = k)
  /\ (forall b1 b2 : Build,
        flatten [("1.19.1", [b1]); ("1.21.1", [b2])]
        = [ {| build := b1; mcVersion := "1.19.1" |};
            {| build := b2; mcVersion := "1.21.1" |} ])
  /\ (forall (url updated : string) (status : N),
        ok {| res_status := status;
              res_json := Normal {| updatedAt := updated; versions := versions |} |} = true ->
        loadBuilds (fun _ => Normal
                      {| res_status := status;
                         res_json := Normal {| updatedAt := updated; versions := versions |} |})
                   url
        = Normal {| data := Some {| updatedAt := updated; versions := versions |};
                    builds := flatten versions;
                    error := None |}).
Proof.
  split; [|split; [|split; [|split]]].
  - induction versions as [|[k arr] rest IH]; [reflexivity|].
    rewrite flatten_cons, map_app, IH. simpl. f_equal.
    rewrite map_map. simpl. apply map_id.
  - induction versions as [|[k arr] rest IH]; [reflexivity|].
    rewrite flatten_cons, map_app, IH. simpl. f_equal.
    rewrite map_map. simpl. clear. induction arr; simpl; congruence.
  - intros e. unfold flatten. rewrite in_flat_map. split.
    + intros ([k arr] & Hin & He). apply in_map_iff in He as (b & <- & Hb).
      exists k, arr. auto.
    + intros (k & arr & Hin & Hb & Hk). exists (k, arr). split; [assumption|].
      apply in_map_iff. exists (build e). split; [|assumption].
      destruct e; simpl in *; congruence.
  - reflexivity.
  - intros url updated status Hok. unfold loadBuilds. simpl. rewrite Hok. reflexivity.
Qed.

(** A catalog of two groups, retrieved with status 200. *)
Lemma flatten_tags_each_build_witness :
  loadBuilds (fun _ => Normal
                {| res_status := 200;
                   res_json := Normal {| updatedAt := "2025-01-05";
                                         versions := [("1.19.1", []); ("1.21.1", [])] |} |})
             "data/builds.json"
  = Normal {| data := Some {| updatedAt := "2025-01-05";
                              versions := [("1.19.1", []); ("1.21.1", [])] |};
              builds := flatten [("1.19.1", []); ("1.21.1", [])];
              error := None |}.
Proof.
  apply (proj2 (proj2 (proj2 (proj2
           (flatten_tags_each_build [("1.19.1", []); ("1.21.1", [])]))))).
  reflexivity.
Defined.

Lemma occursIn_middle pre s post : occursIn s (pre ++ s ++ post).
Proof. exists pre, post. reflexivity. Qed.

(** C7. [loadBuilds] never throws: its promise is always fulfilled.  When
    [fetch] throws, when the status is not in 200-299, and when reading the
    body as JSON throws, the result has no builds and an error message; for
    a status outside 200-299 the message contains the status. *)
Theorem loadBuilds_never_throws (fetch : string -> completion Response) (url : string) :
  (exists r, loadBuilds fetch url = Normal r)
  /\ (forall err, fetch url = Throw err ->
        loadBuilds fetch url = Normal (failed (messageOf err)))
  /\ (forall res, fetch url = Normal res -> ok res = false ->
        loadBuilds fetch url
        = Normal (failed ("Failed to fetch data (" ++ decimal (res_status res) ++ ")"))
        /\ occursIn (decimal (res_status res))
                    ("Failed to fetch data (" ++ decimal (res_status res) ++ ")"))
  /\ (forall res err, fetch url = Normal res -> ok res = true ->
        res_json res = Throw err ->
        loadBuilds fetch url = Normal (failed (messageOf err))).
Proof.
  unfold loadBuilds, failed, messageOf. split; [|split; [|split]].
  - destruct (fetch url) as [res|err]; simpl; [|eauto].
    destruct (ok res); simpl; [|eauto].
    destruct (res_json res); simpl; eauto.
  - intros err ->. reflexivity.
  - intros res -> Hok. simpl. rewrite Hok. simpl. split; [reflexivity|].
    apply occursIn_middle.
  - intros res err -> Hok Hjson. simpl. rewrite Hok, Hjson. reflexivity.
Qed.

(** A response with status 404. *)
Lemma loadBuilds_never_throws_witness :
  loadBuilds (fun _ => Normal {| res_status := 404; res_json := Throw OtherValue |})
             "data/builds.json"
  = Normal (failed "Failed to fetch data (404)").
Proof.
  apply (proj1 (proj2 (proj2 (loadBuilds_never_throws
           (fun _ => Normal {| res_status := 404; res_json := Throw OtherValue |})
           "data/builds.json"))) _ eq_refl).
  reflexivity.
Defined.

End LoaderFacts.

(** ** The validator *)
Module ValidateFacts.
Import JsString Types Validate CatalogSpec AppSpec.
Local Open Scope string_scope.
Local Open Scope list_scope.

(** The inner loop, started with the ids of [seen] in the set. *)
Lemma scanBuilds_spec (seen : list string) (ids : gset string) (mc : string)
    (bs : list Build) :
  (forall x, x ∈ ids <-> In x seen) -> List.NoDup seen ->
  match scanBuilds ids bs with
  | inl dup =>
      exists pre post,
        map (fun b => (id b, mc)) bs = (pre ++ (dup, mc) :: post)%list
        /\ List.NoDup (seen ++ map fst pre) /\ In dup (seen ++ map fst pre)
  | inr ids' =>
      (forall x, x ∈ ids' <-> In x (seen ++ map id bs))
      /\ List.NoDup (seen ++ map id bs)
  end.
Proof.
  revert seen ids. induction bs as [|b rest IH]; intros seen ids Hinv Hnd; simpl.
  - rewrite app_nil_r. auto.
  - destruct (decide (id b ∈ ids)) as [Hin|Hout].
    + exists [], (map (fun b => (id b, mc)) rest). simpl. rewrite app_nil_r.
      split; [reflexivity|]. split; [assumption|]. now apply Hinv.
    + assert (Hinv' : forall x, x ∈ ids ∪ {[id b]} <-> In x (seen ++ [id b])).
      { intros x. split.
        - intros H. apply elem_of_union in H as [H|H].
          + apply in_or_app. left. now apply Hinv.
          + apply elem_of_singleton in H. subst x.
            apply in_or_app. right. left. reflexivity.
        - intros H. apply in_app_or in H as [H|[<-|[]]].
          + apply elem_of_union. left. now apply Hinv.
          + apply elem_of_union. right. now apply elem_of_singleton. }
      assert (Hnd' : List.NoDup (seen ++ [id b])).
      { apply List.NoDup_app; [assumption|repeat constructor; auto|].
        intros x Hx [<-|[]]. apply Hout, Hinv, Hx. }
      specialize (IH _ _ Hinv' Hnd').
      destruct (scanBuilds (ids ∪ {[id b]}) rest) as [dup|ids'].
      * destruct IH as (pre & post & E & N & I).
        exists ((id b, mc) :: pre), post. simpl. rewrite E.
        rewrite <- app_assoc in N, I. simpl in N, I. auto.
      * rewrite <- app_assoc in IH. simpl in IH. exact IH.
Qed.

Lemma scanGroups_spec (seen : list string) (ids : gset string)
    (groups : list (string * list Build)) :
  (forall x, x ∈ ids <-> In x seen) -> List.NoDup seen ->
  match scanGroups ids groups with
  | Some (dup, mc) =>
      exists pre post,
        tagged groups = (pre ++ (dup, mc) :: post)%list
        /\ List.NoDup (seen ++ map fst pre) /\ In dup (seen ++ map fst pre)
  | None => List.NoDup (seen ++ allIds groups)
  end.
Proof.
  revert seen ids. induction groups as [|[mc bs] rest IH]; intros seen ids Hinv Hnd.
  - simpl. unfold allIds. simpl. now rewrite app_nil_r.
  - simpl scanGroups. pose proof (scanBuilds_spec seen ids mc bs Hinv Hnd) as Hb.
    destruct (scanBuilds ids bs) as [dup|ids'].
    + destruct Hb as (pre & post & E & N & I).
      exists pre, (post ++ tagged rest)%list. simpl. rewrite E, <- app_assoc.
      simpl. auto.
    + destruct Hb as [Hinv' Hnd']. specialize (IH _ _ Hinv' Hnd').
      assert (Hids : map id bs = map fst (map (fun b => (id b, mc)) bs)).
      { rewrite map_map. reflexivity. }
      destruct (scanGroups ids' rest) as [[dup mc']|].
      * destruct IH as (pre & post & E & N & I).
        exists (map (fun b => (id b, mc)) bs ++ pre)%list, post. simpl.
        split; [rewrite E; apply app_assoc|].
        rewrite map_app, <- Hids. rewrite <- app_assoc in N, I. auto.
      * unfold allIds in *. simpl. rewrite map_app, <- Hids.
        rewrite <- app_assoc in IH. exact IH.
Qed.

Lemma firstDuplicate_not_NoDup groups dup mc :
  firstDuplicate groups dup mc -> ~ List.NoDup (allIds groups).
Proof.
  intros (pre & post & E & _ & I) N. unfold allIds in N.
  rewrite E, map_app in N. simpl in N.
  apply NoDup_remove_2 in N. apply N, in_or_app. left. exact I.
Qed.

Lemma allIds_builds groups : allIds groups = map id (concat (map snd groups)).
Proof.
  unfold allIds, tagged. induction groups as [|[mc bs] rest IH]; [reflexivity|].
  simpl. rewrite !map_app, IH, map_map. reflexivity.
Qed.

(** C8. On a catalog that the schema accepts the run fails, with exit code
    1, exactly when two builds anywhere in the catalog have the same id; it
    then reports the first build whose id has been met before, by that id
    and by the version group the build is in.  When all ids differ the run
    succeeds. *)
Theorem duplicate_ids_rejected (file : string) (data : BuildsData) :
  allIds (versions data) = map id (concat (map snd (versions data)))
  /\ (~ List.NoDup (allIds (versions data)) ->
      exists dup mcVersion,
        firstDuplicate (versions data) dup mcVersion
        /\ checkDuplicates file data
           = {| exitCode := 1;
                stderr := [duplicateMessage file dup mcVersion];
                stdout := [] |})
  /\ (List.NoDup (allIds (versions data)) ->
      checkDuplicates file data
      = {| exitCode := 0; stderr := []; stdout := [(file ++ " is valid.")%string] |}).
Proof.
  split; [apply allIds_builds|].
  pose proof (scanGroups_spec [] ∅ (versions data)) as H.
  specialize (H ltac:(intros x; rewrite elem_of_empty; simpl; tauto) (List.NoDup_nil _)).
  unfold checkDuplicates. simpl in H.
  destruct (scanGroups ∅ (versions data)) as [[dup mc]|]; split.
  - intros _. exists dup, mc. split; [exact H|reflexivity].
  - intros N. exfalso. exact (firstDuplicate_not_NoDup _ dup mc H N).
  - intros N. contradiction.
  - intros _. reflexivity.
Qed.

(** The same id in two version groups. *)
Lemma duplicate_ids_rejected_witness :
  exists dup mcVersion,
    firstDuplicate [("1.19.1", [sampleBuild [] None "2.1.0"]);
                    ("1.21.1", [sampleBuild [] None "2.1.0"])] dup mcVersion
    /\ checkDuplicates "builds.json"
         {| updatedAt := "2025-01-05";
            versions := [("1.19.1", [sampleBuild [] None "2.1.0"]);
                         ("1.21.1", [sampleBuild [] None "2.1.0"])] |}
       = {| exitCode := 1;
            stderr := [duplicateMessage "builds.json" dup mcVersion];
            stdout := [] |}.
Proof.
  apply (proj1 (proj2 (duplicate_ids_rejected "builds.json"
           {| updatedAt := "2025-01-05";
              versions := [("1.19.1", [sampleBuild [] None "2.1.0"]);
                           ("1.21.1", [sampleBuild [] None "2.1.0"])] |}))).
  intros N. inversion N as [|x l Hx _]. apply Hx. left. reflexivity.
Defined.

End ValidateFacts.

(** ** The sort keys of the list view *)
Module SortKeyFacts.
Import JsNum JsString Types DataLoader JsArray App AppSpec Host.
Import NumFacts SortFacts ListFacts.
Local Open Scope string_scope.
Local Open Scope list_scope.

Lemma codeUnitCompare_antisym a b :
  codeUnitCompare b a = CompOpp (codeUnitCompare a b).
Proof.
  revert b. induction a as [|x a IH]; intros [|y b]; simpl; try reflexivity.
  rewrite (N.compare_antisym (code x) (code y)).
  destruct (code x ?= code y)%N; simpl; auto.
Qed.

Lemma codeUnitCompare_le_trans a b c :
  codeUnitCompare a b <> Gt -> codeUnitCompare b c <> Gt ->
  codeUnitCompare a c <> Gt.
Proof.
  revert b c. induction a as [|x a IH]; intros [|y b] [|z c]; simpl;
    try congruence.
  destruct (N.compare_spec (code x) (code y));
    destruct (N.compare_spec (code y) (code z));
    destruct (N.compare_spec (code x) (code z));
    try congruence; try lia; try (apply IH).
Qed.

Lemma signOf_le c : (signOf c <= 0)%Z <-> c <> Gt.
Proof. destruct c; simpl; split; intros; try congruence; lia. Qed.

Lemma caselessCompare_consistent : consistent caselessCompare.
Proof.
  unfold consistent, caselessCompare. split.
  - intros a b. rewrite (codeUnitCompare_antisym (toLowerCase a) (toLowerCase b)).
    destruct (codeUnitCompare _ _); reflexivity.
  - intros a b c. rewrite !signOf_le. apply codeUnitCompare_le_trans.
Qed.

Section Host.
Variable dateTime : string -> option Z.
Variable localeCompare : string -> string -> Z.
Variable sourceUrl : EnrichedBuild -> option string.
Variable deprecated : EnrichedBuild -> bool.

(** C5, as the code has it.  When every entry with a date has a positive
    time stamp (a valid date after 1970-01-01), the sort by date, ascending,
    puts every entry without a date before every entry with one: no entry
    with a date is followed by an entry without.  The result is a
    permutation of the entries that match the search.  This holds for the
    list of both revisions of the component. *)
Theorem publishedAt_missing_first (builds : list EnrichedBuild) (search : string) :
  (forall e : EnrichedBuild,
     In e builds -> publishedAt e <> None -> gtb (stamp dateTime e) zero = true) ->
  ((forall pre (y : EnrichedBuild) post,
      listResults dateTime localeCompare builds search byPublishedAt asc
      = pre ++ y :: post ->
      publishedAt y <> None ->
      forall x : EnrichedBuild, In x post -> publishedAt x <> None)
   /\ Permutation (listResults dateTime localeCompare builds search byPublishedAt asc)
                  (List.filter (searchMatches search) builds))
  /\ ((forall pre (y : EnrichedBuild) post,
         AppNext.listResults sourceUrl deprecated dateTime localeCompare
           builds search byPublishedAt asc
         = pre ++ y :: post ->
         publishedAt y <> None ->
         forall x : EnrichedBuild, In x post -> publishedAt x <> None)
      /\ Permutation (AppNext.listResults sourceUrl deprecated dateTime localeCompare
                        builds search byPublishedAt asc)
                     (List.filter (AppNext.searchMatches sourceUrl deprecated search) builds)).
Proof.
  intros H. split; split.
  - apply sort_publishedAt. now apply dated_filter.
  - apply sort_perm.
  - apply sort_publishedAt. now apply dated_filter.
  - apply sort_perm.
Qed.

(** C9, as the code has it.  The sort by software version orders the
    entries by the collation of the host, [localeCompare], applied to their
    software version strings, ascending or descending: a comparison of
    text, which does not go through [compareVersions].  The result is a
    permutation of the entries that match the search.  This holds for the
    list of both revisions of the component. *)
Theorem jsMacrosVersion_sorted_by_collation (builds : list EnrichedBuild)
    (search : string) :
  consistent localeCompare ->
  (StronglySorted (fun x y => (localeCompare (version x) (version y) <= 0)%Z)
     (listResults dateTime localeCompare builds search byJsMacrosVersion asc)
   /\ StronglySorted (fun x y => (0 <= localeCompare (version x) (version y))%Z)
        (listResults dateTime localeCompare builds search byJsMacrosVersion desc)
   /\ forall d,
        Permutation (listResults dateTime localeCompare builds search byJsMacrosVersion d)
                    (List.filter (searchMatches search) builds))
  /\ (StronglySorted (fun x y => (localeCompare (version x) (version y) <= 0)%Z)
        (AppNext.listResults sourceUrl deprecated dateTime localeCompare
           builds search byJsMacrosVersion asc)
      /\ StronglySorted (fun x y => (0 <= localeCompare (version x) (version y))%Z)
           (AppNext.listResults sourceUrl deprecated dateTime localeCompare
              builds search byJsMacrosVersion desc)
      /\ forall d,
           Permutation (AppNext.listResults sourceUrl deprecated dateTime localeCompare
                          builds search byJsMacrosVersion d)
                       (List.filter (AppNext.searchMatches sourceUrl deprecated search) builds))
  /\ (forall (d : SortDirection) (a b : EnrichedBuild),
        comparator dateTime localeCompare byJsMacrosVersion d a b
        = mul (of_Z (localeCompare (version a) (version b))) (factor d)).
Proof.
  intros Hc. split; [|split].
  - destruct (sort_jsMacrosVersion dateTime localeCompare
                (List.filter (searchMatches search) builds) Hc) as [Ha Hd].
    split; [exact Ha|split; [exact Hd|]]. intros d. apply sort_perm.
  - destruct (sort_jsMacrosVersion dateTime localeCompare
                (List.filter (AppNext.searchMatches sourceUrl deprecated search) builds) Hc)
      as [Ha Hd].
    split; [exact Ha|split; [exact Hd|]]. intros d. apply sort_perm.
  - reflexivity.
Qed.

End Host.

(** A build of 2024-12-10 and a build without a date. *)
Lemma publishedAt_missing_first_witness :
  Permutation
    (listResults isoDate caselessCompare
       [sampleEntry ["js"] (Some "2024-12-10") "1.9.0"; sampleEntry ["js"] None "1.8.0"]
       EmptyString byPublishedAt asc)
    (List.filter (searchMatches EmptyString)
       [sampleEntry ["js"] (Some "2024-12-10") "1.9.0"; sampleEntry ["js"] None "1.8.0"]).
Proof.
  apply (publishedAt_missing_first isoDate caselessCompare
           (fun _ => None) (fun _ => false)
           [sampleEntry ["js"] (Some "2024-12-10") "1.9.0"; sampleEntry ["js"] None "1.8.0"]
           EmptyString).
  intros e [<-|[<-|[]]] Hp.
  - vm_compute. reflexivity.
  - exfalso. apply Hp. reflexivity.
Defined.

(** A date before 1970 has a negative time stamp, below the [0] that stands
    for a missing date: the build of 1969-12-31 is sorted before the build
    without a date. *)
Lemma publishedAt_missing_first_counterexample :
  ~ (forall (builds : list EnrichedBuild) (search : string)
            pre (y : EnrichedBuild) post,
       listResults isoDate caselessCompare builds search byPublishedAt asc
       = pre ++ y :: post ->
       publishedAt y <> None ->
       forall x : EnrichedBuild, In x post -> publishedAt x <> None).
Proof.
  intros H.
  apply (H [sampleEntry ["js"] None "1.8.0"; sampleEntry ["js"] (Some "1969-12-31") "0.1.0"]
           EmptyString []
           (sampleEntry ["js"] (Some "1969-12-31") "0.1.0")
           [sampleEntry ["js"] None "1.8.0"]
           ltac:(vm_compute; reflexivity)
           ltac:(discriminate)
           (sampleEntry ["js"] None "1.8.0")).
  - left. reflexivity.
  - reflexivity.
Qed.

(** Under the caseless collation 1.10.0 sorts before 1.9.0. *)
Lemma jsMacrosVersion_sorted_by_collation_witness :
  StronglySorted (fun x y => (caselessCompare (version x) (version y) <= 0)%Z)
    (listResults isoDate caselessCompare
       [sampleEntry ["js"] None "1.9.0"; sampleEntry ["js"] None "1.10.0"]
       EmptyString byJsMacrosVersion asc).
Proof.
  apply (jsMacrosVersion_sorted_by_collation isoDate caselessCompare
           (fun _ => None) (fun _ => false)
           [sampleEntry ["js"] None "1.9.0"; sampleEntry ["js"] None "1.10.0"] EmptyString).
  exact caselessCompare_consistent.
Defined.

(** The order is the collation's, not the order of the code units: a
    collation that ranks letters without regard to their case puts
    1.0.0-beta before 1.0.0-RC1, and R is below b as a code unit. *)
Lemma jsMacrosVersion_lexicographic_counterexample :
  ~ (forall localeCompare : string -> string -> Z,
       consistent localeCompare ->
       forall (builds : list EnrichedBuild) (search : string),
         StronglySorted
           (fun x y => codeUnitCompare (version x) (version y) <> Gt)
           (listResults isoDate localeCompare builds search byJsMacrosVersion asc)).
Proof.
  intros H.
  specialize (H caselessCompare caselessCompare_consistent
                [sampleEntry ["js"] None "1.0.0-RC1"; sampleEntry ["js"] None "1.0.0-beta"]
                EmptyString).
  vm_compute in H.
  inversion H as [|x l _ F]; subst. inversion F as [|y l' Hxy _]; subst.
  apply Hxy. reflexivity.
Qed.

End SortKeyFacts.

(** ** Numbers: integers below 2^53 convert exactly *)
Module ExactFacts.
Import JsNum NumFacts.
Local Open Scope Z_scope.

Lemma shr_1_even j :
  0 <= j ->
  shr_1 {| shr_m := 2 * j; shr_r := false; shr_s := false |}
  = {| shr_m := j; shr_r := false; shr_s := false |}.
Proof. intros Hj. destruct j as [|q|q]; [reflexivity|reflexivity|lia]. Qed.

Lemma iter_shr_1_exact p k :
  0 <= k ->
  SpecFloat.iter_pos shr_1 p {| shr_m := k * 2 ^ Zpos p; shr_r := false; shr_s := false |}
  = {| shr_m := k; shr_r := false; shr_s := false |}.
Proof.
  revert k. induction p as [p IH|p IH|]; intros k Hk.
  - assert (P : 0 < 2 ^ Zpos p) by (apply Z.pow_pos_nonneg; lia).
    replace (k * 2 ^ Zpos p~1) with (2 * ((k * 2 ^ Zpos p) * 2 ^ Zpos p)).
    + cbn [SpecFloat.iter_pos].
      rewrite shr_1_even by nia. rewrite IH by nia. apply IH. assumption.
    + replace (Zpos p~1) with (Z.succ (2 * Zpos p)) by lia.
      rewrite Z.pow_succ_r, Z.pow_twice_r by lia. lia.
  - assert (P : 0 < 2 ^ Zpos p) by (apply Z.pow_pos_nonneg; lia).
    replace (k * 2 ^ Zpos p~0) with ((k * 2 ^ Zpos p) * 2 ^ Zpos p).
    + cbn [SpecFloat.iter_pos]. rewrite IH by nia. apply IH. assumption.
    + replace (Zpos p~0) with (2 * Zpos p) by lia.
      rewrite Z.pow_twice_r by lia. lia.
  - replace (k * 2 ^ 1) with (2 * k) by lia. cbn [SpecFloat.iter_pos].
    apply shr_1_even. assumption.
Qed.

(** Rounding a value that fits the format returns it: a mantissa [k * 2^n]
    at the exponent [e], where [e + n] is the canonical exponent, becomes
    [k] at [e + n]. *)
Lemma round_aux_exact s k n e :
  0 < k -> 0 <= n ->
  fexp64 (Zdigits2 k + n + e) = e + n -> e + n <= 971 ->
  binary_round_aux prec emax s (k * 2 ^ n) e loc_Exact
  = S754_finite s (Z.to_pos k) (e + n).
Proof.
  intros Hk Hn Hf He. unfold binary_round_aux.
  assert (P : 0 < 2 ^ n) by (apply Z.pow_pos_nonneg; lia).
  assert (S1 : shr_fexp prec emax (k * 2 ^ n) e loc_Exact
               = ({| shr_m := k; shr_r := false; shr_s := false |}, e + n)).
  { unfold shr_fexp, shr. rewrite fexp_eq, Zdigits2_shiftl by lia.
    rewrite Hf. replace (e + n - e) with n by lia.
    destruct n as [|p|p]; [|simpl shr_record_of_loc|lia].
    - simpl. rewrite Z.mul_1_r, Z.add_0_r. reflexivity.
    - rewrite iter_shr_1_exact by lia. reflexivity. }
  rewrite S1. cbn [shr_m loc_of_shr_record round_nearest_even].
  assert (S2 : shr_fexp prec emax k (e + n) loc_Exact
               = ({| shr_m := k; shr_r := false; shr_s := false |}, e + n)).
  { unfold shr_fexp, shr. rewrite fexp_eq.
    replace (Zdigits2 k + (e + n)) with (Zdigits2 k + n + e) by lia.
    rewrite Hf, Z.sub_diag. reflexivity. }
  rewrite S2. cbn [shr_m].
  destruct k as [|q|q]; try lia.
  replace (e + n <=? emax - prec) with true; [reflexivity|].
  symmetry. apply Z.leb_le. unfold emax, prec. lia.
Qed.

(** An integer below [2^53] converts to itself. *)
Lemma of_ratio_exact s p :
  Zpos p < 2 ^ 53 ->
  ord (of_ratio s p 1) = (0, cond_Zopp s (Zpos p * 2 ^ 1074))
  /\ truthy (of_ratio s p 1) = true.
Proof.
  intros Hp. unfold of_ratio, SFdiv_core_binary. rewrite fexp_eq.
  set (d := Zdigits2 (Zpos p)).
  assert (Hd : 0 < d) by (apply Zdigits2_pos; lia).
  assert (Hd53 : d <= 53).
  { pose proof (Zdigits2_bounds (Zpos p) ltac:(lia)) as [Lo _]. fold d in Lo.
    assert (L : 2 ^ (d - 1) < 2 ^ 53) by lia.
    apply Z.pow_lt_mono_r_iff in L; lia. }
  change (Zdigits2 1) with 1.
  replace (Z.min (fexp64 (d + 0 - (1 + 0))) (0 - 0)) with (d - 54)
    by (unfold fexp64; lia).
  replace (0 - 0 - (d - 54)) with (54 - d) by lia.
  destruct (54 - d) as [|t|t] eqn:T; try lia.
  rewrite Z.shiftl_mul_pow2 by lia.
  set (m' := Zpos p * 2 ^ Zpos t).
  assert (Q : Z.div_eucl m' 1 = (m', 0)).
  { pose proof (Z.div_1_r m') as Dq. pose proof (Z.mod_1_r m') as Dr.
    unfold Z.div, Z.modulo in Dq, Dr.
    destruct (Z.div_eucl m' 1) as [q r]. simpl in Dq, Dr. congruence. }
  rewrite Q. change (new_location 1 0) with loc_Exact.
  unfold m'.
  replace (Zpos p * 2 ^ Zpos t) with ((Zpos p * 2 ^ (Zpos t - 1)) * 2 ^ 1).
  2:{ rewrite <- Z.mul_assoc, <- Z.pow_add_r by lia. do 2 f_equal. lia. }
  assert (P : 0 < 2 ^ (Zpos t - 1)) by (apply Z.pow_pos_nonneg; lia).
  rewrite round_aux_exact.
  - split; [|reflexivity]. cbn [ord]. f_equal. f_equal.
    rewrite Z2Pos.id by nia.
    rewrite <- Z.mul_assoc, <- Z.pow_add_r by lia. do 2 f_equal. lia.
  - nia.
  - lia.
  - rewrite Zdigits2_shiftl by lia. fold d. unfold fexp64. lia.
  - lia.
Qed.

End ExactFacts.

(** ** Versions written in decimal digits compare as their integers *)
Module DecimalFacts.
Import JsNum JsString JsConv DataLoader VersionOrder DecimalVersion.
Import NumFacts VersionFacts ExactFacts.
Local Open Scope Z_scope.

Lemma digit_facts c :
  isDigit c = true ->
  isWhiteSpace c = false
  /\ digitOf 10 c = Some (Z.of_N (code c) - 48)
  /\ 0 <= Z.of_N (code c) - 48 <= 9
  /\ isChar c "+" = false /\ isChar c "-" = false
  /\ isChar c "x" = false /\ isChar c "X" = false
  /\ isChar c "o" = false /\ isChar c "O" = false
  /\ isChar c "b" = false /\ isChar c "B" = false
  /\ Ascii.eqb c "I" = false.
Proof.
  destruct c as [[] [] [] [] [] [] [] []]; intros H; try discriminate H;
    vm_compute; repeat split; congruence.
Qed.

Lemma trimEnd_digits s : allDigits s = true -> trimEnd s = s.
Proof.
  induction s as [|c s IH]; simpl; [reflexivity|].
  intros H. apply andb_true_iff in H as [Hc Hs].
  rewrite IH by assumption.
  destruct (digit_facts c Hc) as (-> & _). now destruct s.
Qed.

Lemma trim_digits s : allDigits s = true -> trim s = s.
Proof.
  intros H. unfold trim.
  destruct s as [|c s]; [reflexivity|].
  pose proof H as H'. simpl in H'. apply andb_true_iff in H' as [Hc _].
  simpl trimStart. destruct (digit_facts c Hc) as (-> & _).
  now apply trimEnd_digits.
Qed.

Lemma valueFrom_nonneg s acc : allDigits s = true -> 0 <= acc -> 0 <= valueFrom acc s.
Proof.
  revert acc. induction s as [|c s IH]; simpl; intros acc H Hacc; [assumption|].
  apply andb_true_iff in H as [Hc Hs].
  destruct (digit_facts c Hc) as (_ & _ & B & _). apply IH; [assumption|lia].
Qed.

Lemma scanDigits_digits s acc n :
  allDigits s = true ->
  scanDigits 10 s acc n = (valueFrom acc s, n + Z.of_nat (String.length s), EmptyString).
Proof.
  revert acc n. induction s as [|c s IH]; intros acc n H.
  - simpl. now rewrite Z.add_0_r.
  - simpl in H. apply andb_true_iff in H as [Hc Hs].
    cbn [scanDigits valueFrom String.length].
    destruct (digit_facts c Hc) as (_ & -> & _).
    rewrite IH by assumption. do 2 f_equal. lia.
Qed.

(** [Number] reads a numeral as the integer it writes. *)
Lemma Number_digits v :
  v <> EmptyString -> allDigits v = true ->
  Number v = of_decimal false (valueOf v) 0.
Proof.
  intros Hne Hd. unfold Number, StringToNumber. rewrite trim_digits by assumption.
  destruct v as [|c r]; [congruence|].
  pose proof Hd as Hd'. simpl in Hd'. apply andb_true_iff in Hd' as [Hc Hr].
  destruct (digit_facts c Hc) as (_ & _ & _ & Hp & Hm & _ & _ & _ & _ & _ & _ & HI).
  assert (R : radixLiteral (String c r) = None).
  { unfold radixLiteral. destruct r as [|c2 r2]; [reflexivity|].
    simpl in Hr. apply andb_true_iff in Hr as [Hc2 _].
    destruct (digit_facts c2 Hc2) as (_ & _ & _ & _ & _ & -> & -> & -> & -> & -> & -> & _).
    simpl. now destruct (Ascii.eqb c "0"). }
  rewrite R, Hp, Hm. unfold unsignedDecimal.
  replace (String.eqb (String c r) "Infinity") with false
    by (symmetry; apply String.eqb_neq; intros E; inversion E; subst c; discriminate HI).
  rewrite scanDigits_digits by assumption.
  cbn [String.length]. cbv iota beta.
  replace (0 + Z.of_nat (S (String.length r)) + 0 =? 0) with false
    by (symmetry; apply Z.eqb_neq; lia).
  simpl exponentPart. cbv iota beta. rewrite Z.sub_0_r. reflexivity.
Qed.

Lemma component_numeral v :
  numeral v -> ord (component v) = (0, valueOf v * 2 ^ 1074).
Proof.
  intros (Hne & Hd & Hb). unfold component. rewrite Number_digits by assumption.
  pose proof (valueFrom_nonneg v 0 Hd ltac:(lia)) as Hn. fold (valueOf v) in Hn.
  unfold of_decimal. destruct (valueOf v) as [|p|p] eqn:E; [reflexivity| |lia].
  change (0 <=? 0) with true. cbv iota.
  change (Z.to_pos (10 ^ 0)) with 1%positive. rewrite Pos.mul_1_r.
  destruct (of_ratio_exact false p Hb) as [Ho Ht].
  unfold or_else. rewrite Ht. exact Ho.
Qed.

Lemma key_numberAt a k :
  decimalVersion a -> key a k = (0, numberAt a k * 2 ^ 1074).
Proof.
  unfold decimalVersion, key, numberAt, parts, at_.
  generalize (split "." a). intros l H. revert k.
  induction H as [|v l Hv Hl IH]; intros [|k]; simpl; try reflexivity.
  - now apply component_numeral.
  - apply IH.
Qed.

Lemma scaled_eq x y : (0, x * 2 ^ 1074) = (0, y * 2 ^ 1074) <-> x = y.
Proof.
  assert (0 < 2 ^ 1074) by (apply Z.pow_pos_nonneg; lia).
  split; [intros E; inversion E; nia|now intros ->].
Qed.

Lemma scaled_lt x y : lex (0, x * 2 ^ 1074) (0, y * 2 ^ 1074) = Lt <-> x < y.
Proof.
  assert (0 < 2 ^ 1074) by (apply Z.pow_pos_nonneg; lia).
  unfold lex. cbn [fst snd Z.compare]. rewrite Z.compare_lt_iff. nia.
Qed.

Lemma before_earlier a b :
  decimalVersion a -> decimalVersion b -> (before a b <-> earlier a b).
Proof.
  intros Ha Hb. unfold before, earlier, pieces, parts.
  rewrite !length_map.
  split; (intros [(j & E & L)|(E & L)]; [left; exists j|right]); split;
    try assumption.
  - intros k Hk. apply scaled_eq. rewrite <- !key_numberAt by assumption. auto.
  - apply scaled_lt. now rewrite <- !key_numberAt by assumption.
  - intros k. apply scaled_eq. rewrite <- !key_numberAt by assumption. auto.
  - intros k Hk. rewrite !key_numberAt by assumption. apply scaled_eq. auto.
  - rewrite !key_numberAt by assumption. now apply scaled_lt.
  - intros k. rewrite !key_numberAt by assumption. apply scaled_eq. auto.
Qed.

Lemma same_numbers a b :
  decimalVersion a -> decimalVersion b ->
  (same a b <-> (forall k, numberAt a k = numberAt b k) /\ pieces a = pieces b).
Proof.
  intros Ha Hb. unfold same, pieces, parts. rewrite !length_map.
  split; intros [E L]; (split; [|assumption]); intros k.
  - apply scaled_eq. rewrite <- !key_numberAt by assumption. auto.
  - rewrite !key_numberAt by assumption. apply scaled_eq. auto.
Qed.

(** The result is zero exactly for versions that sort together. *)
Lemma eqb_same a b : eqb (compareVersions a b) zero = true <-> same a b.
Proof.
  rewrite eqb_zero. destruct (sign_total a b) as [c Hc]. rewrite Hc.
  pose proof (sign_before a b c Hc) as Hs. split.
  - destruct c; try discriminate. intros _. exact Hs.
  - intros S. destruct c; [reflexivity| |]; exfalso.
    + exact (same_not_before a b S Hs).
    + exact (same_not_before b a (same_sym _ _ S) Hs).
Qed.

(** X1. On versions written in decimal digits the sign of [compareVersions]
    is the order of the integers of the pieces, read from the left, and then
    of the number of pieces: 1.9 is before 1.10, and 1.02 sorts with 1.2. *)
Theorem compareVersions_decimal (a b : string) :
  decimalVersion a -> decimalVersion b ->
  (ltb (compareVersions a b) zero = true <-> earlier a b)
  /\ (gtb (compareVersions a b) zero = true <-> earlier b a)
  /\ (eqb (compareVersions a b) zero = true
      <-> (forall k, numberAt a k = numberAt b k) /\ pieces a = pieces b).
Proof.
  intros Ha Hb. split; [|split].
  - rewrite ltb_before. now apply before_earlier.
  - rewrite gtb_before. now apply before_earlier.
  - rewrite eqb_same. now apply same_numbers.
Qed.

(** 1.9 is before 1.10: the pieces at index 1 are 9 and 10. *)
Lemma compareVersions_decimal_witness :
  ltb (compareVersions "1.9" "1.10") zero = true.
Proof.
  assert (N : forall v, v <> EmptyString -> allDigits v = true ->
                        (valueOf v < 2 ^ 53)%Z -> numeral v)
    by (intros v H1 H2 H3; repeat split; assumption).
  apply (proj2 (proj1 (compareVersions_decimal "1.9" "1.10"
           ltac:(repeat constructor; apply N; (discriminate || reflexivity))
           ltac:(repeat constructor; apply N; (discriminate || reflexivity))))).
  left. exists 1%nat. split.
  - intros k Hk. assert (k = 0%nat) as -> by lia. reflexivity.
  - reflexivity.
Defined.

End DecimalFacts.

(** ** More on the sort: fixed points and stability *)
Module StableFacts.
Import JsNum JsArray ListSpec SortFacts.
Local Open Scope list_scope.

Section Stable.
Context {A : Type}.
Variable comparator : A -> A -> number.

(** A sequence in which no element goes after a later one is left as it is. *)
Lemma sort_fixed l :
  StronglySorted (fun x y => after comparator x y = false) l ->
  JsArray.sort comparator l = l.
Proof.
  induction 1 as [|x l Hs IH Hx]; [reflexivity|].
  simpl. rewrite IH. destruct l as [|y l']; [reflexivity|].
  simpl. inversion Hx as [|? ? Hxy _]; subst. now rewrite Hxy.
Qed.

Lemma precedes_cons z x y (l : list A) : precedes x y l -> precedes x y (z :: l).
Proof. intros (l1 & l2 & l3 & ->). now exists (z :: l1), l2, l3. Qed.

Lemma precedes_head x y (l : list A) : In y l -> precedes x y (x :: l).
Proof.
  intros H. apply in_split in H as (l2 & l3 & ->). now exists [], l2, l3.
Qed.

Lemma precedes_inv x y z (l : list A) :
  precedes x y (z :: l) -> (x = z /\ In y l) \/ precedes x y l.
Proof.
  intros (l1 & l2 & l3 & E). destruct l1 as [|w l1]; simpl in E; inversion E; subst.
  - left. split; [reflexivity|]. apply in_or_app. right. now left.
  - right. now exists l1, l2, l3.
Qed.

Lemma insert_precedes_old z x y l :
  precedes x y l -> precedes x y (JsArray.insert comparator z l).
Proof.
  induction l as [|w l IH]; intros H.
  - destruct H as ([|? ?] & ? & ? & E); discriminate E.
  - simpl. destruct (after comparator z w); [|now apply precedes_cons].
    apply precedes_inv in H as [[-> Hy]|H].
    + apply precedes_head. apply (Permutation_in (l := z :: l));
        [symmetry; apply insert_perm|now right].
    + apply precedes_cons. now apply IH.
Qed.

Lemma insert_precedes_new x y l :
  In y l -> after comparator x y = false ->
  precedes x y (JsArray.insert comparator x l).
Proof.
  induction l as [|w l IH]; intros Hy Hxy; [destruct Hy|].
  simpl. destruct (after comparator x w) eqn:E.
  - destruct Hy as [->|Hy]; [congruence|].
    apply precedes_cons. now apply IH.
  - now apply precedes_head.
Qed.

(** The sort is stable: an element stays before every later element that
    it does not go after. *)
Lemma sort_stable x y l :
  precedes x y l -> after comparator x y = false ->
  precedes x y (JsArray.sort comparator l).
Proof.
  intros H Hxy. induction l as [|z l IH].
  - destruct H as ([|? ?] & ? & ? & E); discriminate E.
  - simpl. apply precedes_inv in H as [[-> Hy]|H].
    + apply insert_precedes_new; [|assumption]. now apply sort_In.
    + apply insert_precedes_old. now apply IH.
Qed.

End Stable.

(** Filtering commutes with the sort when not going after is transitive
    and total on the elements sorted. *)
Section Filtered.
Context {A : Type}.
Variable comparator : A -> A -> number.
Variable dom : A -> Prop.
Hypothesis after_total :
  forall x y, dom x -> dom y ->
    after comparator x y = true -> after comparator y x = false.
Hypothesis not_after_trans :
  forall x y z, dom x -> dom y -> dom z ->
    after comparator x y = false -> after comparator y z = false ->
    after comparator x z = false.

Lemma filter_insert (f : A -> bool) x l :
  dom x -> Forall dom l ->
  StronglySorted (fun a b => after comparator a b = false) l ->
  List.filter f (JsArray.insert comparator x l)
  = if f x then JsArray.insert comparator x (List.filter f l) else List.filter f l.
Proof using not_after_trans.
  intros Hx Hl Hs. induction Hs as [|y l Hs IH Hy]; simpl.
  - now destruct (f x).
  - inversion Hl as [|? ? Dy Dl]; subst.
    destruct (after comparator x y) eqn:E; simpl.
    + rewrite (IH Dl). destruct (f y), (f x); simpl; try reflexivity.
      now rewrite E.
    + destruct (f x) eqn:Fx; [|reflexivity].
      destruct (f y) eqn:Fy; simpl; [now rewrite E|].
      destruct (List.filter f l) as [|z t] eqn:F; [reflexivity|].
      simpl. assert (Hz : In z l).
      { assert (H : In z (List.filter f l)) by (rewrite F; now left).
        now apply filter_In in H. }
      rewrite List.Forall_forall in Hy, Dl.
      now rewrite (not_after_trans x y z Hx Dy (Dl z Hz) E (Hy z Hz)).
Qed.

Lemma filter_sort (f : A -> bool) l :
  Forall dom l ->
  List.filter f (JsArray.sort comparator l) = JsArray.sort comparator (List.filter f l).
Proof using after_total not_after_trans.
  induction 1 as [|x l Hx Hl IH]; [reflexivity|].
  simpl. rewrite filter_insert.
  - rewrite IH. now destruct (f x).
  - assumption.
  - apply (Permutation_Forall (x := l)); [symmetry; apply sort_perm|assumption].
  - apply (sort_sorted comparator dom); auto.
Qed.

End Filtered.

Lemma precedes_filter {A} (f : A -> bool) x y l :
  precedes x y l -> f x = true -> f y = true -> precedes x y (List.filter f l).
Proof.
  intros (l1 & l2 & l3 & ->) Hx Hy.
  rewrite List.filter_app. simpl. rewrite Hx, List.filter_app. simpl. rewrite Hy.
  now exists (List.filter f l1), (List.filter f l2), (List.filter f l3).
Qed.

(** In a sequence in strict order a later element is never equal to an
    earlier one, and two such sequences with the same members are equal. *)
Section Strict.
Context {A : Type}.
Variable lt : A -> A -> Prop.
Hypothesis lt_irrefl : forall x, ~ lt x x.
Hypothesis lt_asym : forall x y, lt x y -> ~ lt y x.

Lemma strict_NoDup l : StronglySorted lt l -> List.NoDup l.
Proof using lt_irrefl.
  induction 1 as [|x l Hs IH Hx]; constructor; [|assumption].
  intros Hin. rewrite List.Forall_forall in Hx. exact (lt_irrefl x (Hx x Hin)).
Qed.

Lemma strict_unique l1 l2 :
  StronglySorted lt l1 -> StronglySorted lt l2 ->
  (forall x, In x l1 <-> In x l2) -> l1 = l2.
Proof using lt_irrefl lt_asym.
  intros H1. revert l2. induction H1 as [|x l1 Hs1 IH Hx]; intros l2 H2 Hm.
  - destruct l2 as [|y l2]; [reflexivity|].
    destruct (proj2 (Hm y) (or_introl eq_refl)).
  - destruct H2 as [|y l2 Hs2 Hy].
    + destruct (proj1 (Hm x) (or_introl eq_refl)).
    + rewrite List.Forall_forall in Hx, Hy.
      assert (E : x = y).
      { destruct (proj1 (Hm x) (or_introl eq_refl)) as [E|Hin]; [now symmetry|].
        destruct (proj2 (Hm y) (or_introl eq_refl)) as [E|Hin']; [assumption|].
        destruct (lt_asym _ _ (Hx y Hin') (Hy x Hin)). }
      subst y. f_equal. apply IH; [assumption|].
      intros z. split; intros Hz.
      * destruct (proj1 (Hm z) (or_intror Hz)) as [E|Hin]; [|assumption].
        subst z. destruct (lt_irrefl x (Hx x Hz)).
      * destruct (proj2 (Hm z) (or_intror Hz)) as [E|Hin]; [|assumption].
        subst z. destruct (lt_irrefl x (Hy x Hz)).
Qed.

End Strict.

End StableFacts.

(** ** [uniqueSorted] and [sortVersions] *)
Module UniqueFacts.
Import JsNum JsString JsArray DataLoader DataLoaderSort Host VersionOrder ListSpec.
Import NumFacts SortFacts StableFacts VersionFacts DecimalFacts SortKeyFacts.
Local Open Scope list_scope.

(** [Array.from(new Set(values))], started with a set [seen]: the values
    not in [seen], each once, in the order of their first occurrence. *)
Lemma distinct_In seen values x :
  In x (distinct seen values) <-> In x values /\ x ∉ seen.
Proof.
  revert seen. induction values as [|v rest IH]; intros seen; simpl.
  - tauto.
  - destruct (decide (v ∈ seen)) as [Hv|Hv]; simpl; rewrite IH.
    + split; [tauto|]. intros [[->|H] N]; [contradiction|tauto].
    + split.
      * intros [->|[H N]]; [tauto|]. split; [tauto|].
        intros Hs. apply N, elem_of_union. now left.
      * intros [[->|H] N]; [tauto|].
        destruct (decide (x = v)) as [->|Hx]; [tauto|]. right. split; [assumption|].
        intros Hu. apply elem_of_union in Hu as [Hu|Hu]; [contradiction|].
        apply elem_of_singleton in Hu. contradiction.
Qed.

Lemma distinct_In_all values x : In x (distinct ∅ values) <-> In x values.
Proof.
  rewrite distinct_In. split; [tauto|]. intros H. split; [assumption|].
  apply not_elem_of_empty.
Qed.

Lemma distinct_NoDup seen values : List.NoDup (distinct seen values).
Proof.
  revert seen. induction values as [|v rest IH]; intros seen; simpl; [constructor|].
  destruct (decide (v ∈ seen)); [apply IH|].
  constructor; [|apply IH]. rewrite distinct_In. intros [_ N].
  apply N, elem_of_union. right. now apply elem_of_singleton.
Qed.

Lemma distinct_fixed seen values :
  List.NoDup values -> (forall x, In x values -> x ∉ seen) ->
  distinct seen values = values.
Proof.
  intros H. revert seen. induction H as [|v rest Hv Hn IH]; intros seen Hs; simpl;
    [reflexivity|].
  destruct (decide (v ∈ seen)) as [Hin|_]; [destruct (Hs v (or_introl eq_refl) Hin)|].
  f_equal. apply IH. intros x Hx.
  assert (x <> v) by (intros ->; contradiction).
  specialize (Hs x (or_intror Hx)).
  intros Hu. apply elem_of_union in Hu as [Hu|Hu]; [contradiction|].
  apply elem_of_singleton in Hu. contradiction.
Qed.

Lemma distinct_length seen values : length (distinct seen values) <= length values.
Proof.
  revert seen. induction values as [|v rest IH]; intros seen; simpl; [lia|].
  destruct (decide (v ∈ seen)); simpl; [specialize (IH seen)|specialize (IH (seen ∪ {[v]}))]; lia.
Qed.

Lemma codeUnitCompare_eq a b : codeUnitCompare a b = Eq <-> a = b.
Proof.
  revert b. induction a as [|x a IH]; intros [|y b]; simpl; try (split; congruence).
  destruct (N.compare_spec (code x) (code y)) as [E|L|L].
  - unfold code in E. apply (f_equal ascii_of_N) in E.
    rewrite !ascii_N_embedding in E. subst y. rewrite IH.
    split; congruence.
  - split; [discriminate|]. intros E. inversion E; subst. lia.
  - split; [discriminate|]. intros E. inversion E; subst. lia.
Qed.

Lemma codeUnitCompare_lt_trans a b c :
  codeUnitCompare a b = Lt -> codeUnitCompare b c = Lt -> codeUnitCompare a c = Lt.
Proof.
  intros H1 H2.
  pose proof (codeUnitCompare_le_trans a b c ltac:(congruence) ltac:(congruence)) as H3.
  destruct (codeUnitCompare a c) eqn:E; [|reflexivity|congruence].
  apply codeUnitCompare_eq in E. subst c.
  rewrite (codeUnitCompare_antisym a b), H1 in H2. discriminate.
Qed.

Lemma after_defaultCompare x y :
  after defaultCompare x y = match codeUnitCompare x y with Gt => true | _ => false end.
Proof.
  unfold after, defaultCompare. rewrite gtb_zero, of_Z_sign.
  now destruct (codeUnitCompare x y).
Qed.

Lemma uniqueSorted_In values x : In x (uniqueSorted values) <-> In x values.
Proof.
  unfold uniqueSorted. now rewrite sort_In, distinct_In_all.
Qed.

Lemma uniqueSorted_NoDup values : List.NoDup (uniqueSorted values).
Proof.
  unfold uniqueSorted.
  apply (Permutation_NoDup (l := distinct ∅ values));
    [symmetry; apply sort_perm|apply distinct_NoDup].
Qed.

Lemma sorted_strict {A} (le : A -> A -> Prop) l :
  StronglySorted le l -> List.NoDup l ->
  StronglySorted (fun x y => le x y /\ x <> y) l.
Proof.
  induction 1 as [|x l Hs IH Hx]; intros Hn; [constructor|].
  inversion Hn; subst. constructor; [now apply IH|].
  rewrite List.Forall_forall in *. intros y Hy. split; [now apply Hx|].
  intros ->. contradiction.
Qed.

Lemma uniqueSorted_sorted values :
  StronglySorted (fun a b => codeUnitCompare a b = Lt) (uniqueSorted values).
Proof.
  assert (H : StronglySorted (fun a b => codeUnitCompare a b <> Gt) (uniqueSorted values)).
  { unfold uniqueSorted.
    apply (sort_sorted _ (fun _ => True)); [| | |apply List.Forall_forall; auto].
    - intros a b _ _ E. rewrite after_defaultCompare in E.
      destruct (codeUnitCompare a b); congruence.
    - intros a b _ _ E. rewrite after_defaultCompare in E.
      rewrite (codeUnitCompare_antisym a b).
      destruct (codeUnitCompare a b); simpl; congruence.
    - intros a b c _ _ _. apply codeUnitCompare_le_trans. }
  apply sorted_strict in H; [|apply uniqueSorted_NoDup].
  eapply StronglySorted_ind with (P := StronglySorted _); [constructor| |exact H].
  intros a l _ IH Ha. constructor; [assumption|].
  rewrite List.Forall_forall in *. intros b Hb. destruct (Ha b Hb) as [Hle Hne].
  destruct (codeUnitCompare a b) eqn:E; [|reflexivity|congruence].
  apply codeUnitCompare_eq in E. contradiction.
Qed.

Lemma uniqueSorted_unique v1 v2 :
  (forall x, In x v1 <-> In x v2) -> uniqueSorted v1 = uniqueSorted v2.
Proof.
  intros H. apply (strict_unique (fun a b => codeUnitCompare a b = Lt)).
  - intros x E. assert (codeUnitCompare x x = Eq) by now apply codeUnitCompare_eq.
    congruence.
  - intros x y E1 E2. rewrite (codeUnitCompare_antisym x y), E1 in E2. discriminate.
  - apply uniqueSorted_sorted.
  - apply uniqueSorted_sorted.
  - intros x. rewrite !uniqueSorted_In. apply H.
Qed.

(** X4. [uniqueSorted] returns the members of its argument, each once, in
    the strictly increasing order of their code units. *)
Theorem uniqueSorted_strictly_increasing (values : list string) :
  StronglySorted (fun a b => codeUnitCompare a b = Lt) (uniqueSorted values)
  /\ (forall x, In x (uniqueSorted values) <-> In x values)
  /\ List.NoDup (uniqueSorted values)
  /\ length (uniqueSorted values) <= length values.
Proof.
  split; [apply uniqueSorted_sorted|]. split; [apply uniqueSorted_In|].
  split; [apply uniqueSorted_NoDup|].
  unfold uniqueSorted. rewrite (Permutation_length (sort_perm _ _)).
  apply distinct_length.
Qed.

(** X5. The result of [uniqueSorted] depends on the members of its argument
    only, not on their order or their repetitions; so sorting a second time
    changes nothing. *)
Theorem uniqueSorted_canonical :
  (forall v1 v2 : list string,
     (forall x, In x v1 <-> In x v2) -> uniqueSorted v1 = uniqueSorted v2)
  /\ (forall values, uniqueSorted (uniqueSorted values) = uniqueSorted values)
  /\ (forall v1 v2, uniqueSorted (v1 ++ v2) = uniqueSorted (v2 ++ v1)).
Proof.
  split; [exact uniqueSorted_unique|]. split.
  - intros values. apply uniqueSorted_unique. apply uniqueSorted_In.
  - intros v1 v2. apply uniqueSorted_unique. intros x. rewrite !in_app_iff. tauto.
Qed.

Lemma uniqueSorted_canonical_witness :
  uniqueSorted ["js"; "luaj"; "js"] = uniqueSorted ["luaj"; "js"].
Proof.
  apply (proj1 uniqueSorted_canonical).
  intros x. simpl. tauto.
Defined.

(** *** [sortVersions] *)

Lemma sortVersions_In values d v : In v (sortVersions values d) <-> In v values.
Proof.
  unfold sortVersions. now rewrite sort_In, distinct_In_all.
Qed.

Lemma sortVersions_NoDup values d : List.NoDup (sortVersions values d).
Proof.
  unfold sortVersions.
  apply (Permutation_NoDup (l := distinct ∅ values));
    [symmetry; apply sort_perm|apply distinct_NoDup].
Qed.

Lemma sortVersions_fixed values d :
  sortVersions (sortVersions values d) d = sortVersions values d.
Proof.
  unfold sortVersions at 1.
  rewrite distinct_fixed;
    [|apply sortVersions_NoDup|intros x _; apply not_elem_of_empty].
  destruct (sortVersions_sorted values) as [Ha Hd].
  destruct d; apply sort_fixed; assumption.
Qed.

(** X2. [sortVersions] returns the members of its argument, each once; its
    two directions return the same versions; and sorting a second time in
    the same direction changes nothing. *)
Theorem sortVersions_members (values : list string) (direction : SortDirection) :
  (forall v, In v (sortVersions values direction) <-> In v values)
  /\ List.NoDup (sortVersions values direction)
  /\ length (sortVersions values direction) <= length values
  /\ Permutation (sortVersions values asc) (sortVersions values desc)
  /\ sortVersions (sortVersions values direction) direction
     = sortVersions values direction.
Proof.
  split; [apply sortVersions_In|]. split; [apply sortVersions_NoDup|].
  split; [|split; [|apply sortVersions_fixed]].
  - unfold sortVersions. rewrite (Permutation_length (sort_perm _ _)).
    apply distinct_length.
  - unfold sortVersions. rewrite !sort_perm. reflexivity.
Qed.

(** The first occurrence of [a] before the first occurrence of [b] puts [a]
    before [b] among the distinct values. *)
Lemma distinct_first seen l1 a rest b :
  a ∉ seen -> ~ In a l1 -> b ∉ seen -> ~ In b l1 -> a <> b -> In b rest ->
  precedes a b (distinct seen (l1 ++ a :: rest)).
Proof.
  revert seen. induction l1 as [|v l1 IH]; intros seen Ha Hal Hb Hbl Hab Hbr.
  - simpl. destruct (decide (a ∈ seen)); [contradiction|].
    apply precedes_head. apply distinct_In. split; [assumption|].
    intros Hu. apply elem_of_union in Hu as [Hu|Hu]; [contradiction|].
    apply elem_of_singleton in Hu. congruence.
  - simpl. destruct (decide (v ∈ seen)).
    + apply IH; try assumption; intros H; [apply Hal|apply Hbl]; now right.
    + apply precedes_cons. apply IH.
      * intros Hu. apply elem_of_union in Hu as [Hu|Hu]; [contradiction|].
        apply elem_of_singleton in Hu. apply Hal. now left.
      * intros H. apply Hal. now right.
      * intros Hu. apply elem_of_union in Hu as [Hu|Hu]; [contradiction|].
        apply elem_of_singleton in Hu. apply Hbl. now left.
      * intros H. apply Hbl. now right.
      * assumption.
      * assumption.
Qed.

Lemma tie_after a b d :
  eqb (compareVersions a b) zero = true ->
  after (fun a b => match d with
                    | asc => compareVersions a b
                    | desc => compareVersions b a
                    end) a b = false.
Proof.
  intros E. unfold after. destruct d.
  - rewrite gtb_zero. rewrite eqb_zero in E.
    destruct (compare (compareVersions a b) zero) as [[]|]; congruence.
  - apply eqb_same, same_sym, eqb_same in E. rewrite gtb_zero. rewrite eqb_zero in E.
    destruct (compare (compareVersions b a) zero) as [[]|]; congruence.
Qed.

(** X3. [sortVersions] is stable in both directions: of two versions that
    compare equal, the one met first in the argument comes first in the
    result. So the descending result is not always the ascending one
    reversed: 1.a and 1.b stay as they are in both. *)
Theorem sortVersions_keeps_ties :
  (forall (values l1 rest : list string) (a b : string) (direction : SortDirection),
     values = l1 ++ a :: rest -> ~ In a l1 -> ~ In b l1 -> In b rest -> a <> b ->
     eqb (compareVersions a b) zero = true ->
     precedes a b (sortVersions values direction))
  /\ sortVersions ["1.a"; "1.b"] asc = ["1.a"; "1.b"]
  /\ sortVersions ["1.a"; "1.b"] desc = ["1.a"; "1.b"].
Proof.
  split; [|split; vm_compute; reflexivity].
  intros values l1 rest a b direction -> Hal Hbl Hbr Hab E.
  unfold sortVersions. apply sort_stable; [|now apply tie_after].
  apply distinct_first; try assumption; apply not_elem_of_empty.
Qed.

(** 1.0 and 1.00 are one version met in two spellings. *)
Lemma sortVersions_keeps_ties_witness :
  precedes "1.0" "1.00" (sortVersions ["2.0"; "1.0"; "1.00"] desc).
Proof.
  apply (proj1 sortVersions_keeps_ties ["2.0"; "1.0"; "1.00"] ["2.0"] ["1.00"]
           "1.0" "1.00" desc eq_refl).
  - intros [E|[]]. discriminate E.
  - intros [E|[]]. discriminate E.
  - left. reflexivity.
  - discriminate.
  - vm_compute. reflexivity.
Defined.

(** *** Versions without ties *)

Lemma sorted_weaken_in {A} (R R' : A -> A -> Prop) l :
  (forall x y, In x l -> In y l -> R x y -> R' x y) ->
  StronglySorted R l -> StronglySorted R' l.
Proof.
  intros H Hs. induction Hs as [|x l Hs IH Hx]; constructor.
  - apply IH. intros a b Ha Hb. apply H; now right.
  - rewrite List.Forall_forall in *. intros y Hy.
    apply H; [now left|now right|now apply Hx].
Qed.

Lemma sorted_snoc {A} (R : A -> A -> Prop) l x :
  StronglySorted R l -> Forall (fun y => R y x) l -> StronglySorted R (l ++ [x]).
Proof.
  induction 1 as [|y l Hs IH Hy]; intros Hx; simpl.
  - repeat constructor.
  - inversion Hx as [|? ? Hyx Hl]; subst. constructor; [now apply IH|].
    apply Forall_app. split; [assumption|]. now constructor.
Qed.

Lemma sorted_rev {A} (R : A -> A -> Prop) l :
  StronglySorted R l -> StronglySorted (fun a b => R b a) (rev l).
Proof.
  induction 1 as [|x l Hs IH Hx]; simpl; [constructor|].
  apply sorted_snoc; [assumption|].
  apply List.Forall_forall. intros y Hy. apply in_rev in Hy.
  rewrite List.Forall_forall in Hx. now apply Hx.
Qed.

Lemma before_asym a b :
  ltb (compareVersions a b) zero = true -> ltb (compareVersions b a) zero = true -> False.
Proof.
  rewrite !ltb_before. intros H1 H2.
  exact (before_irrefl a (before_trans _ _ _ H1 H2)).
Qed.

Lemma sortVersions_strict values :
  tieFree values ->
  StronglySorted (fun a b => ltb (compareVersions a b) zero = true)
                 (sortVersions values asc)
  /\ StronglySorted (fun a b => ltb (compareVersions b a) zero = true)
                    (sortVersions values desc).
Proof.
  intros Ht. destruct (sortVersions_sorted values) as [Ha Hd].
  assert (S : forall a b, In a values -> In b values -> a <> b ->
                gtb (compareVersions a b) zero = false ->
                ltb (compareVersions a b) zero = true).
  { intros a b Hia Hib Hne G. specialize (Ht a b Hia Hib).
    rewrite eqb_zero in Ht. rewrite gtb_zero in G. rewrite ltb_zero.
    destruct (sign_total a b) as [c Hc]. rewrite Hc in *.
    destruct c; [|reflexivity|discriminate]. now destruct Hne; apply Ht. }
  split.
  - apply sorted_strict in Ha; [|apply sortVersions_NoDup].
    eapply sorted_weaken_in; [|exact Ha].
    intros a b Hia Hib [G Hne]. apply S; try assumption; now apply sortVersions_In in Hia, Hib.
  - apply sorted_strict in Hd; [|apply sortVersions_NoDup].
    eapply sorted_weaken_in; [|exact Hd].
    intros a b Hia Hib [G Hne]. apply S; try assumption; try congruence;
      now apply sortVersions_In in Hia, Hib.
Qed.

(** X22. When no two different versions of the argument compare equal, the
    descending result of [sortVersions] is the ascending one reversed, and
    the result depends on the members of the argument only, not on their
    order. *)
Theorem sortVersions_without_ties (values : list string) :
  tieFree values ->
  sortVersions values desc = rev (sortVersions values asc)
  /\ (forall values' direction,
        (forall x, In x values' <-> In x values) ->
        sortVersions values' direction = sortVersions values direction).
Proof.
  intros Ht. destruct (sortVersions_strict values Ht) as [Ha Hd]. split.
  - apply (strict_unique (fun a b => ltb (compareVersions b a) zero = true)).
    + intros x H. exact (before_asym x x H H).
    + intros x y H1 H2. exact (before_asym _ _ H2 H1).
    + exact Hd.
    + now apply sorted_rev in Ha.
    + intros x. rewrite <- in_rev, !sortVersions_In. reflexivity.
  - intros values' direction Hm.
    assert (Ht' : tieFree values').
    { intros a b Hia Hib. apply Ht; now apply Hm. }
    destruct (sortVersions_strict values' Ht') as [Ha' Hd'].
    destruct direction.
    + apply (strict_unique (fun a b => ltb (compareVersions a b) zero = true)).
      * intros x H. exact (before_asym x x H H).
      * intros x y H1 H2. exact (before_asym _ _ H1 H2).
      * exact Ha'.
      * exact Ha.
      * intros x. rewrite !sortVersions_In. apply Hm.
    + apply (strict_unique (fun a b => ltb (compareVersions b a) zero = true)).
      * intros x H. exact (before_asym x x H H).
      * intros x y H1 H2. exact (before_asym _ _ H2 H1).
      * exact Hd'.
      * exact Hd.
      * intros x. rewrite !sortVersions_In. apply Hm.
Qed.

(** Three versions of which no two compare equal. *)
Lemma sortVersions_without_ties_witness :
  sortVersions ["1.9"; "1.21.1"; "1.10"] desc
  = rev (sortVersions ["1.9"; "1.21.1"; "1.10"] asc).
Proof.
  apply (proj1 (sortVersions_without_ties ["1.9"; "1.21.1"; "1.10"]
                  ltac:(intros a b [<-|[<-|[<-|[]]]] [<-|[<-|[<-|[]]]];
                        vm_compute; intros E; (reflexivity || discriminate E)))).
Defined.

End UniqueFacts.

(** ** The search: what a query finds *)
Module SearchFacts.
Import JsString Types DataLoader App AppSpec SearchSpec.
Import StringFacts SortFacts SelectorFacts.
Local Open Scope string_scope.

Lemma append_nil_r s : s ++ EmptyString = s.
Proof. induction s as [|c s IH]; [reflexivity|]. now rewrite append_cons, IH. Qed.

Lemma append_assoc s t u : (s ++ t) ++ u = s ++ t ++ u.
Proof. induction s as [|c s IH]; [reflexivity|]. now rewrite !append_cons, IH. Qed.

Lemma occursIn_refl s : occursIn s s.
Proof. exists EmptyString, EmptyString. now rewrite append_nil_r. Qed.

Lemma occursIn_trans t s u : occursIn t s -> occursIn s u -> occursIn t u.
Proof.
  intros (p1 & q1 & ->) (p2 & q2 & ->). exists (p2 ++ p1), (q1 ++ q2).
  now rewrite !append_assoc.
Qed.

Lemma occursIn_app_l t s u : occursIn t s -> occursIn t (s ++ u).
Proof. intros (p & q & ->). exists p, (q ++ u). now rewrite !append_assoc. Qed.

Lemma occursIn_app_r t s u : occursIn t u -> occursIn t (s ++ u).
Proof. intros (p & q & ->). exists (s ++ p), q. now rewrite !append_assoc. Qed.

(** The code units below 256 are put in lower case one by one. *)
Lemma toLowerCase_app s t : toLowerCase (s ++ t) = toLowerCase s ++ toLowerCase t.
Proof.
  induction s as [|c s IH]; [reflexivity|].
  rewrite append_cons. simpl toLowerCase. now rewrite IH, append_cons.
Qed.

Lemma occursIn_lower t s : occursIn t s -> occursIn (toLowerCase t) (toLowerCase s).
Proof.
  intros (p & q & ->). exists (toLowerCase p), (toLowerCase q).
  now rewrite !toLowerCase_app.
Qed.

Lemma trimEnd_cons c s :
  trimEnd (String c s)
  = match trimEnd s with
    | EmptyString => if isWhiteSpace c then EmptyString else String c EmptyString
    | t => String c t
    end.
Proof. reflexivity. Qed.

Lemma join_In sep l f : In f l -> occursIn f (join sep l).
Proof.
  induction l as [|x l IH]; intros H; [destruct H|].
  destruct l as [|y l].
  - destruct H as [->|[]]. apply occursIn_refl.
  - change (join sep (x :: y :: l)) with (x ++ sep ++ join sep (y :: l)).
    destruct H as [->|H].
    + apply occursIn_app_l, occursIn_refl.
    + apply occursIn_app_r, occursIn_app_r. now apply IH.
Qed.

Lemma join_In_join sep inner outer f :
  In f inner -> In (join sep inner) outer -> occursIn f (join sep outer).
Proof.
  intros H1 H2. apply occursIn_trans with (join sep inner); now apply join_In.
Qed.

Lemma fieldsOf_haystack e f : In f (fieldsOf e) -> occursIn (toLowerCase f) (haystack e).
Proof.
  intros H. unfold haystack. apply occursIn_lower.
  unfold fieldsOf in H. rewrite !in_app_iff in H.
  destruct H as [H|[H|[H|H]]].
  - apply join_In. simpl in H. simpl. tauto.
  - eapply join_In_join; [exact H|]. simpl. tauto.
  - eapply join_In_join; [exact H|]. simpl. tauto.
  - apply join_In. destruct (notes e); simpl in H; [|destruct H].
    destruct H as [->|[]]. simpl. tauto.
Qed.

Lemma fieldsOfNext_haystack sourceUrl deprecated e f :
  In f (fieldsOfNext sourceUrl deprecated e) ->
  occursIn (toLowerCase f) (AppNext.haystack sourceUrl deprecated e).
Proof.
  intros H. unfold AppNext.haystack. apply occursIn_lower.
  unfold fieldsOfNext, fieldsOf in H. rewrite !in_app_iff in H.
  destruct H as [[H|[H|[H|H]]]|[H|H]].
  - apply join_In. simpl in H. simpl. tauto.
  - eapply join_In_join; [exact H|]. simpl. tauto.
  - eapply join_In_join; [exact H|]. simpl. tauto.
  - apply join_In. destruct (notes e); simpl in H; [|destruct H].
    destruct H as [->|[]]. simpl. tauto.
  - apply join_In. destruct (sourceUrl e); simpl in H; [|destruct H].
    destruct H as [->|[]]. simpl. tauto.
  - apply join_In. destruct (deprecated e); simpl in H; [|destruct H].
    destruct H as [<-|[]]. simpl. tauto.
Qed.

Section Fields.
Variable sourceUrl : EnrichedBuild -> option string.
Variable deprecated : EnrichedBuild -> bool.
Variable dateTime : string -> option Z.
Variable localeCompare : string -> string -> Z.

Lemma searchMatches_term search e :
  searchMatches search e = true
  <-> occursIn (toLowerCase (trim search)) (haystack e).
Proof. apply term_occurs. Qed.

Lemma searchMatchesNext_term search e :
  AppNext.searchMatches sourceUrl deprecated search e = true
  <-> occursIn (toLowerCase (trim search)) (AppNext.haystack sourceUrl deprecated e).
Proof. apply term_occurs. Qed.

(** X11. A query whose term, the query trimmed and in lower case, occurs in
    the term of a second query finds every entry that the second query
    finds: the list of the second query holds no entry that the list of the
    first does not hold, whatever the sort. So it is for both revisions of
    the component. *)
Theorem search_narrows (q1 q2 : string) (e : EnrichedBuild) :
  occursIn (toLowerCase (trim q1)) (toLowerCase (trim q2)) ->
  (searchMatches q2 e = true -> searchMatches q1 e = true)
  /\ (AppNext.searchMatches sourceUrl deprecated q2 e = true ->
      AppNext.searchMatches sourceUrl deprecated q1 e = true)
  /\ (forall builds sortKey d x,
        In x (listResults dateTime localeCompare builds q2 sortKey d) ->
        In x (listResults dateTime localeCompare builds q1 sortKey d))
  /\ (forall builds sortKey d x,
        In x (AppNext.listResults sourceUrl deprecated dateTime localeCompare
                builds q2 sortKey d) ->
        In x (AppNext.listResults sourceUrl deprecated dateTime localeCompare
                builds q1 sortKey d)).
Proof.
  intros H.
  assert (A : forall x, searchMatches q2 x = true -> searchMatches q1 x = true).
  { intros x. rewrite !searchMatches_term. exact (occursIn_trans _ _ _ H). }
  assert (B : forall x, AppNext.searchMatches sourceUrl deprecated q2 x = true ->
                        AppNext.searchMatches sourceUrl deprecated q1 x = true).
  { intros x. rewrite !searchMatchesNext_term. exact (occursIn_trans _ _ _ H). }
  split; [apply A|]. split; [apply B|]. split.
  - intros builds sortKey d x. unfold listResults.
    rewrite !sort_In, !filter_In. intros [Hin Hm]. split; [assumption|now apply A].
  - intros builds sortKey d x. unfold AppNext.listResults.
    rewrite !sort_In, !filter_In. intros [Hin Hm]. split; [assumption|now apply B].
Qed.

(** X12. A query finds every entry that has it in one of its fields,
    whatever the case of the letters and the white space around the query:
    in the version tag, the software version, the fork, the repository, the
    release type, a loader, an extension or the notes. *)
Theorem search_finds_fields (q f : string) (e : EnrichedBuild) :
  occursIn (toLowerCase (trim q)) (toLowerCase f) ->
  (In f (fieldsOf e) -> searchMatches q e = true)
  /\ (In f (fieldsOfNext sourceUrl deprecated e) ->
      AppNext.searchMatches sourceUrl deprecated q e = true).
Proof.
  intros H. split; intros Hf.
  - apply searchMatches_term. eapply occursIn_trans; [exact H|].
    now apply fieldsOf_haystack.
  - apply searchMatchesNext_term. eapply occursIn_trans; [exact H|].
    now apply fieldsOfNext_haystack.
Qed.

End Fields.

(** The term of FAB followed by a blank is fab, a part of fabric, the term
    of Fabric after a blank. *)
Lemma search_narrows_witness :
  searchMatches "FAB " (sampleEntry ["js"] None "1.9.0") = true.
Proof.
  apply (proj1 (search_narrows (fun _ => None) (fun _ => false) (fun _ => None)
                  (fun _ _ => 0%Z) "FAB " " Fabric" (sampleEntry ["js"] None "1.9.0")
                  ltac:(exists EmptyString, "ric"; reflexivity))).
  reflexivity.
Defined.

(** The fork JsMacros is found by its name in capitals between blanks. *)
Lemma search_finds_fields_witness :
  searchMatches " JSMACROS " (sampleEntry ["js"] None "1.9.0") = true.
Proof.
  apply (proj1 (search_finds_fields (fun _ => None) (fun _ => false)
                  " JSMACROS " "JsMacros" (sampleEntry ["js"] None "1.9.0")
                  ltac:(exists EmptyString, EmptyString; reflexivity))).
  right. right. left. reflexivity.
Defined.

End SearchFacts.

(** ** The sorted lists: by version tag, by date, and their ties *)
Module OrderFacts.
Import JsNum JsString Types DataLoader JsArray App AppSpec ListSpec Host.
Import NumFacts SortFacts VersionFacts ListFacts StableFacts.
Local Open Scope list_scope.

(** [compareVersions] never returns NaN. *)
Lemma compareVersions_wf a b : wf (compareVersions a b).
Proof.
  destruct (compareVersions_cases a b)
    as [(j & c & _ & Hc & Hne & -> & _)|(_ & -> & _)].
  - destruct (sub_sign _ _ c (at_wf _ j (parts_valid a)) (at_wf _ j (parts_valid b)) Hc Hne)
      as [H _].
    eapply signed_wf; eassumption.
  - apply of_Z_wf.
Qed.

Lemma ltb_gtb_swap a b :
  ltb (compareVersions a b) zero = gtb (compareVersions b a) zero.
Proof.
  destruct (ltb (compareVersions a b) zero) eqn:L.
  - symmetry. apply gtb_before. now apply ltb_before.
  - destruct (gtb (compareVersions b a) zero) eqn:G; [|reflexivity].
    apply gtb_before, ltb_before in G. congruence.
Qed.

Lemma factor_wf r d : wf r -> wf (mul r (factor d)).
Proof.
  assert (U : forall sf, wf r -> wf (mul r (S754_finite sf 4503599627370496 (-52)))).
  { intros sf. destruct r as [s|s| |s m e]; simpl; try tauto; intros Hr.
    destruct (round_aux_spec (xorb s sf) (Zpos (m * 4503599627370496)) (e + -52) loc_Exact)
      as [H1 _]; [lia|].
    eapply signed_wf; eassumption. }
  destruct d; apply U.
Qed.

Section Host.
Variable dateTime : string -> option Z.
Variable localeCompare : string -> string -> Z.
Variable sourceUrl : EnrichedBuild -> option string.
Variable deprecated : EnrichedBuild -> bool.

Local Abbreviation stamp := (App.stamp dateTime).
Local Abbreviation comparator := (App.comparator dateTime localeCompare).

Lemma after_mcVersion d (x y : EnrichedBuild) :
  after (comparator byMcVersion d) x y
  = match d with
    | asc => gtb (compareVersions (mcVersion x) (mcVersion y)) zero
    | desc => ltb (compareVersions (mcVersion x) (mcVersion y)) zero
    end.
Proof.
  unfold after, App.comparator.
  rewrite gtb_zero, factor_sign by apply compareVersions_wf.
  destruct d; [rewrite gtb_zero|rewrite ltb_zero];
    destruct (compare (compareVersions (mcVersion x) (mcVersion y)) zero) as [[]|];
    reflexivity.
Qed.

Lemma sort_mcVersion (l : list EnrichedBuild) :
  StronglySorted
    (fun x y => gtb (compareVersions (mcVersion x) (mcVersion y)) zero = false)
    (JsArray.sort (comparator byMcVersion asc) l)
  /\ StronglySorted
       (fun x y => ltb (compareVersions (mcVersion x) (mcVersion y)) zero = false)
       (JsArray.sort (comparator byMcVersion desc) l).
Proof.
  split.
  - apply (sort_sorted _ (fun _ => True)); [| | |apply List.Forall_forall; auto].
    + intros a b _ _ H. now rewrite after_mcVersion in H.
    + intros a b _ _ H. rewrite after_mcVersion in H. now apply notAfter_total.
    + intros a b c _ _ _. apply notAfter_trans.
  - apply (sort_sorted _ (fun _ => True)); [| | |apply List.Forall_forall; auto].
    + intros a b _ _ H. now rewrite after_mcVersion in H.
    + intros a b _ _ H. rewrite after_mcVersion, ltb_gtb_swap in H.
      apply notAfter_total in H. now rewrite ltb_gtb_swap.
    + intros a b c _ _ _. rewrite !ltb_gtb_swap. intros H1 H2.
      eapply notAfter_trans; eassumption.
Qed.

(** X15. The list sorted by version tag is in the order of
    [compareVersions], ascending or descending, for both revisions of the
    component: no entry stands before an entry whose tag sorts before its
    own (ascending) or after its own (descending). The comparator of this
    sort is never NaN, and the list holds the entries that match the search,
    each as often as the catalog does. *)
Theorem mcVersion_sorted_by_compareVersions (builds : list EnrichedBuild)
    (search : string) :
  StronglySorted
    (fun x y => gtb (compareVersions (mcVersion x) (mcVersion y)) zero = false)
    (listResults dateTime localeCompare builds search byMcVersion asc)
  /\ StronglySorted
       (fun x y => ltb (compareVersions (mcVersion x) (mcVersion y)) zero = false)
       (listResults dateTime localeCompare builds search byMcVersion desc)
  /\ StronglySorted
       (fun x y => gtb (compareVersions (mcVersion x) (mcVersion y)) zero = false)
       (AppNext.listResults sourceUrl deprecated dateTime localeCompare
          builds search byMcVersion asc)
  /\ StronglySorted
       (fun x y => ltb (compareVersions (mcVersion x) (mcVersion y)) zero = false)
       (AppNext.listResults sourceUrl deprecated dateTime localeCompare
          builds search byMcVersion desc)
  /\ (forall d (x y : EnrichedBuild), wf (comparator byMcVersion d x y))
  /\ (forall d,
        Permutation (listResults dateTime localeCompare builds search byMcVersion d)
                    (List.filter (searchMatches search) builds))
  /\ (forall d,
        Permutation (AppNext.listResults sourceUrl deprecated dateTime localeCompare
                       builds search byMcVersion d)
                    (List.filter (AppNext.searchMatches sourceUrl deprecated search)
                                 builds)).
Proof.
  split; [apply sort_mcVersion|]. split; [apply sort_mcVersion|].
  split; [apply sort_mcVersion|]. split; [apply sort_mcVersion|].
  split; [|split].
  - intros d x y. apply factor_wf, compareVersions_wf.
  - intros d. apply sort_perm.
  - intros d. apply sort_perm.
Qed.

(** *** By date *)

Lemma stamp_valid (e : EnrichedBuild) : wf (stamp e) -> valid (stamp e).
Proof.
  intros W. split.
  - intros E. rewrite E in W. exact W.
  - unfold App.stamp, getTime. destruct (publishedAt e) as [s|]; [|reflexivity].
    destruct (isEmpty s); [reflexivity|].
    destruct (dateTime s); [apply of_Z_valid|reflexivity].
Qed.

Lemma stamp_same (x y : EnrichedBuild) : publishedAt x = publishedAt y -> stamp x = stamp y.
Proof. unfold App.stamp. now intros ->. Qed.

Lemma after_publishedAt_turn d (x y : EnrichedBuild) :
  wf (stamp x) -> wf (stamp y) ->
  after (comparator byPublishedAt d) x y
  = match turn d (lex (ord (stamp x)) (ord (stamp y))) with Gt => true | _ => false end.
Proof.
  intros Hx Hy. unfold after, App.comparator. rewrite gtb_zero.
  pose proof (compare_ord _ _ Hx Hy) as Hc.
  destruct (sub_compare _ _ _ Hx Hy Hc) as [[-> E]|[Hw Hs]].
  - rewrite E. destruct d; reflexivity.
  - rewrite factor_sign, Hs by assumption. simpl.
    now destruct (turn d (lex (ord (stamp x)) (ord (stamp y)))).
Qed.

Lemma sort_publishedAt_turn (l : list EnrichedBuild) :
  Forall (fun e : EnrichedBuild => wf (stamp e)) l ->
  StronglySorted (notLater dateTime) (JsArray.sort (comparator byPublishedAt asc) l)
  /\ StronglySorted (fun x y => notLater dateTime y x)
                    (JsArray.sort (comparator byPublishedAt desc) l).
Proof.
  intros Hl. unfold notLater. split.
  - apply (sort_sorted _ (fun e : EnrichedBuild => wf (stamp e))); [| | |assumption].
    + intros a b Ha Hb H. rewrite after_publishedAt_turn in H by assumption.
      simpl in H. destruct (lex _ _); congruence.
    + intros a b Ha Hb H. rewrite after_publishedAt_turn in H by assumption.
      simpl in H. rewrite lex_antisym. destruct (lex _ _); simpl; congruence.
    + intros a b c _ _ _. apply lex_le_trans.
  - apply (sort_sorted _ (fun e : EnrichedBuild => wf (stamp e))); [| | |assumption].
    + intros a b Ha Hb H. rewrite after_publishedAt_turn in H by assumption.
      simpl in H. rewrite lex_antisym. destruct (lex _ _); simpl in *; congruence.
    + intros a b Ha Hb H. rewrite after_publishedAt_turn in H by assumption.
      simpl in H. destruct (lex _ _); simpl in *; congruence.
    + intros a b c _ _ _ H1 H2. eapply lex_le_trans; eassumption.
Qed.

Lemma validDates_filter (f : EnrichedBuild -> bool) builds :
  validDates dateTime builds ->
  Forall (fun e : EnrichedBuild => wf (stamp e)) (List.filter f builds).
Proof.
  intros H. apply List.Forall_forall. intros e He.
  apply filter_In in He as [He _]. now apply H.
Qed.

Lemma missing_last (l : list EnrichedBuild) :
  (forall e : EnrichedBuild, In e l -> wf (stamp e)) ->
  (forall e : EnrichedBuild, In e l -> publishedAt e <> None -> gtb (stamp e) zero = true) ->
  forall pre (y : EnrichedBuild) post,
    JsArray.sort (comparator byPublishedAt desc) l = pre ++ y :: post ->
    publishedAt y = None ->
    forall x : EnrichedBuild, In x post -> publishedAt x = None.
Proof.
  intros Hw Hp pre y post E Hy x Hx.
  destruct (sort_publishedAt_turn l) as [_ Hs]; [now apply List.Forall_forall|].
  rewrite E in Hs. apply sorted_after in Hs. rewrite List.Forall_forall in Hs.
  specialize (Hs x Hx). unfold notLater in Hs.
  assert (Hin : In x l).
  { apply (sort_In (comparator byPublishedAt desc)). rewrite E.
    apply in_or_app. right. now right. }
  destruct (publishedAt x) as [s|] eqn:Px; [exfalso|reflexivity].
  assert (G : gtb (stamp x) zero = true) by (apply Hp; [assumption|congruence]).
  rewrite gtb_zero, compare_zero_ord in G by now apply Hw.
  rewrite (stamp_missing dateTime y Hy) in Hs. change (ord zero) with (0, 0)%Z in Hs.
  destruct (lex (ord (stamp x)) (0, 0)%Z); congruence.
Qed.

(** X16. When every date is one the host can read, the list sorted by date
    is in the order of the time stamps, oldest first or newest first, a
    missing date counting as time stamp [0]; and when the dates are after
    1970-01-01, the newest-first list, which is the one shown first, has the
    entries without a date at its end. This holds for both revisions of the
    component. *)
Theorem publishedAt_sorted_by_date (builds : list EnrichedBuild) (search : string) :
  validDates dateTime builds ->
  (StronglySorted (notLater dateTime)
     (listResults dateTime localeCompare builds search byPublishedAt asc)
   /\ StronglySorted (fun x y => notLater dateTime y x)
        (listResults dateTime localeCompare builds search byPublishedAt desc)
   /\ ((forall e : EnrichedBuild,
          In e builds -> publishedAt e <> None -> gtb (stamp e) zero = true) ->
       forall pre (y : EnrichedBuild) post,
         listResults dateTime localeCompare builds search byPublishedAt desc
         = pre ++ y :: post ->
         publishedAt y = None ->
         forall x : EnrichedBuild, In x post -> publishedAt x = None))
  /\ (StronglySorted (notLater dateTime)
        (AppNext.listResults sourceUrl deprecated dateTime localeCompare
           builds search byPublishedAt asc)
      /\ StronglySorted (fun x y => notLater dateTime y x)
           (AppNext.listResults sourceUrl deprecated dateTime localeCompare
              builds search byPublishedAt desc)
      /\ ((forall e : EnrichedBuild,
             In e builds -> publishedAt e <> None -> gtb (stamp e) zero = true) ->
          forall pre (y : EnrichedBuild) post,
            AppNext.listResults sourceUrl deprecated dateTime localeCompare
              builds search byPublishedAt desc
            = pre ++ y :: post ->
            publishedAt y = None ->
            forall x : EnrichedBuild, In x post -> publishedAt x = None)).
Proof.
  intros Hv.
  assert (G : forall f : EnrichedBuild -> bool,
            StronglySorted (notLater dateTime)
              (JsArray.sort (comparator byPublishedAt asc) (List.filter f builds))
            /\ StronglySorted (fun x y => notLater dateTime y x)
                 (JsArray.sort (comparator byPublishedAt desc) (List.filter f builds))
            /\ ((forall e : EnrichedBuild,
                   In e builds -> publishedAt e <> None -> gtb (stamp e) zero = true) ->
                forall pre (y : EnrichedBuild) post,
                  JsArray.sort (comparator byPublishedAt desc) (List.filter f builds)
                  = pre ++ y :: post ->
                  publishedAt y = None ->
                  forall x : EnrichedBuild, In x post -> publishedAt x = None)).
  { intros f.
    destruct (sort_publishedAt_turn (List.filter f builds)) as [Ha Hd];
      [now apply validDates_filter|].
    split; [exact Ha|split; [exact Hd|]].
    intros Hp. apply missing_last.
    - intros e He. apply filter_In in He as [He _]. now apply Hv.
    - intros e He. apply filter_In in He as [He _]. now apply Hp. }
  split; apply G.
Qed.

(** *** The search does not reorder *)

Lemma filter_all (builds : list EnrichedBuild) :
  List.filter (searchMatches EmptyString) builds = builds.
Proof. induction builds as [|e l IH]; simpl; [reflexivity|]. now rewrite IH. Qed.

Lemma filter_sort_mcVersion f d (l : list EnrichedBuild) :
  List.filter f (JsArray.sort (comparator byMcVersion d) l)
  = JsArray.sort (comparator byMcVersion d) (List.filter f l).
Proof.
  apply (filter_sort _ (fun _ => True)); [| |apply List.Forall_forall; auto].
  - intros x y _ _. rewrite !after_mcVersion. destruct d.
    + apply notAfter_total.
    + rewrite !ltb_gtb_swap. apply notAfter_total.
  - intros x y z _ _ _. rewrite !after_mcVersion. destruct d.
    + apply notAfter_trans.
    + rewrite !ltb_gtb_swap. intros H1 H2. eapply notAfter_trans; eassumption.
Qed.

Lemma filter_sort_publishedAt f d (l : list EnrichedBuild) :
  Forall (fun e : EnrichedBuild => wf (stamp e)) l ->
  List.filter f (JsArray.sort (comparator byPublishedAt d) l)
  = JsArray.sort (comparator byPublishedAt d) (List.filter f l).
Proof.
  apply filter_sort.
  - intros x y Hx Hy. rewrite !after_publishedAt_turn by assumption.
    rewrite (lex_antisym (ord (stamp x)) (ord (stamp y))).
    destruct d, (lex (ord (stamp x)) (ord (stamp y))); simpl; congruence.
  - intros x y z Hx Hy Hz. rewrite !after_publishedAt_turn by assumption.
    pose proof (lex_le_trans (ord (stamp x)) (ord (stamp y)) (ord (stamp z))) as T1.
    pose proof (lex_le_trans (ord (stamp z)) (ord (stamp y)) (ord (stamp x))) as T2.
    rewrite (lex_antisym (ord (stamp y)) (ord (stamp z))) in T2.
    rewrite (lex_antisym (ord (stamp x)) (ord (stamp y))) in T2.
    rewrite (lex_antisym (ord (stamp x)) (ord (stamp z))) in T2.
    destruct d, (lex (ord (stamp x)) (ord (stamp y))),
      (lex (ord (stamp y)) (ord (stamp z))),
      (lex (ord (stamp x)) (ord (stamp z))); simpl in *; intros H1 H2;
      try reflexivity; try discriminate;
      try (exfalso; apply T1; congruence); try (exfalso; apply T2; congruence).
Qed.

Lemma filter_sort_jsMacrosVersion f d (l : list EnrichedBuild) :
  consistent localeCompare ->
  List.filter f (JsArray.sort (comparator byJsMacrosVersion d) l)
  = JsArray.sort (comparator byJsMacrosVersion d) (List.filter f l).
Proof.
  intros [Hanti Htrans].
  apply (filter_sort _ (fun _ => True)); [| |apply List.Forall_forall; auto].
  - intros x y _ _. rewrite !after_jsMacrosVersion.
    specialize (Hanti (version x) (version y)).
    destruct d; intros H; [apply Z.ltb_lt in H; apply Z.ltb_ge|
                           apply Z.ltb_lt in H; apply Z.ltb_ge]; lia.
  - intros x y z _ _ _. rewrite !after_jsMacrosVersion.
    destruct d; intros H1 H2; apply Z.ltb_ge in H1; apply Z.ltb_ge in H2; apply Z.ltb_ge.
    + now apply (Htrans _ (version y)).
    + pose proof (Hanti (version x) (version y)).
      pose proof (Hanti (version y) (version z)).
      pose proof (Hanti (version x) (version z)).
      specialize (Htrans (version z) (version y) (version x)). lia.
Qed.

Lemma filter_all_next (builds : list EnrichedBuild) :
  List.filter (AppNext.searchMatches sourceUrl deprecated EmptyString) builds = builds.
Proof. induction builds as [|e l IH]; simpl; [reflexivity|]. now rewrite IH. Qed.

(** X14. A search does not reorder the list: the list for a query is the
    list of all builds, sorted by the same key in the same direction, with
    the entries that do not match left out. The sort by version tag has this
    property always, the sort by date when every date is one the host can
    read, and the sort by software version when the collation of the host is
    consistent. This holds for both revisions of the component. *)
Theorem search_keeps_sort_order (builds : list EnrichedBuild) (search : string)
    (d : SortDirection) :
  ((forall key, listResults dateTime localeCompare builds EmptyString key d
                = JsArray.sort (comparator key d) builds)
   /\ listResults dateTime localeCompare builds search byMcVersion d
      = List.filter (searchMatches search)
          (listResults dateTime localeCompare builds EmptyString byMcVersion d)
   /\ (validDates dateTime builds ->
       listResults dateTime localeCompare builds search byPublishedAt d
       = List.filter (searchMatches search)
           (listResults dateTime localeCompare builds EmptyString byPublishedAt d))
   /\ (consistent localeCompare ->
       listResults dateTime localeCompare builds search byJsMacrosVersion d
       = List.filter (searchMatches search)
           (listResults dateTime localeCompare builds EmptyString byJsMacrosVersion d)))
  /\ ((forall key,
         AppNext.listResults sourceUrl deprecated dateTime localeCompare
           builds EmptyString key d
         = JsArray.sort (comparator key d) builds)
      /\ AppNext.listResults sourceUrl deprecated dateTime localeCompare
           builds search byMcVersion d
         = List.filter (AppNext.searchMatches sourceUrl deprecated search)
             (AppNext.listResults sourceUrl deprecated dateTime localeCompare
                builds EmptyString byMcVersion d)
      /\ (validDates dateTime builds ->
          AppNext.listResults sourceUrl deprecated dateTime localeCompare
            builds search byPublishedAt d
          = List.filter (AppNext.searchMatches sourceUrl deprecated search)
              (AppNext.listResults sourceUrl deprecated dateTime localeCompare
                 builds EmptyString byPublishedAt d))
      /\ (consistent localeCompare ->
          AppNext.listResults sourceUrl deprecated dateTime localeCompare
            builds search byJsMacrosVersion d
          = List.filter (AppNext.searchMatches sourceUrl deprecated search)
              (AppNext.listResults sourceUrl deprecated dateTime localeCompare
                 builds EmptyString byJsMacrosVersion d))).
Proof.
  assert (A : forall key, listResults dateTime localeCompare builds EmptyString key d
                          = JsArray.sort (comparator key d) builds).
  { intros key. unfold listResults. now rewrite filter_all. }
  assert (B : forall key,
            AppNext.listResults sourceUrl deprecated dateTime localeCompare
              builds EmptyString key d
            = JsArray.sort (comparator key d) builds).
  { intros key. unfold AppNext.listResults. now rewrite filter_all_next. }
  split.
  - split; [exact A|]. rewrite !A. unfold listResults. split; [|split].
    + symmetry. apply filter_sort_mcVersion.
    + intros Hv. symmetry. apply filter_sort_publishedAt.
      apply List.Forall_forall. exact Hv.
    + intros Hc. symmetry. now apply filter_sort_jsMacrosVersion.
  - split; [exact B|]. rewrite !B. unfold AppNext.listResults. split; [|split].
    + symmetry. apply filter_sort_mcVersion.
    + intros Hv. symmetry. apply filter_sort_publishedAt.
      apply List.Forall_forall. exact Hv.
    + intros Hc. symmetry. now apply filter_sort_jsMacrosVersion.
Qed.

(** *** Ties keep the order of the catalog *)

Lemma compareVersions_self a : compare (compareVersions a a) zero = Some Eq.
Proof.
  destruct (sign_total a a) as [c Hc]. rewrite Hc.
  pose proof (sign_before a a c Hc) as Hs.
  destruct c; [reflexivity| |]; destruct (before_irrefl a Hs).
Qed.

Lemma tie_mcVersion d (x y : EnrichedBuild) :
  mcVersion x = mcVersion y -> after (comparator byMcVersion d) x y = false.
Proof.
  intros E. rewrite after_mcVersion, E.
  destruct d; [rewrite gtb_zero|rewrite ltb_zero];
    now rewrite compareVersions_self.
Qed.

Lemma tie_publishedAt d (x y : EnrichedBuild) :
  wf (stamp x) -> publishedAt x = publishedAt y ->
  after (comparator byPublishedAt d) x y = false.
Proof.
  intros W E. pose proof (stamp_same x y E) as S.
  rewrite after_publishedAt_turn by (rewrite <- ?S; assumption).
  rewrite <- S, lex_refl. now destruct d.
Qed.

Lemma tie_jsMacrosVersion d (x y : EnrichedBuild) :
  consistent localeCompare -> jsMacrosVersion x = jsMacrosVersion y ->
  after (comparator byJsMacrosVersion d) x y = false.
Proof.
  intros [Hanti _] E. rewrite after_jsMacrosVersion. unfold version. rewrite E.
  specialize (Hanti (jsMacrosVersion y) (jsMacrosVersion y)).
  destruct d; [apply Z.ltb_ge|apply Z.ltb_ge]; lia.
Qed.

Lemma precedes_In {A} (x y : A) l : precedes x y l -> In x l /\ In y l.
Proof.
  intros (l1 & l2 & l3 & ->). split; apply in_or_app; right.
  - now left.
  - right. apply in_or_app. right. now left.
Qed.

Lemma sort_keeps_ties (f : EnrichedBuild -> bool) (builds : list EnrichedBuild)
    (d : SortDirection) (x y : EnrichedBuild) :
  precedes x y builds -> f x = true -> f y = true ->
  (mcVersion x = mcVersion y ->
   precedes x y (JsArray.sort (comparator byMcVersion d) (List.filter f builds)))
  /\ (validDates dateTime builds -> publishedAt x = publishedAt y ->
      precedes x y (JsArray.sort (comparator byPublishedAt d) (List.filter f builds)))
  /\ (consistent localeCompare -> jsMacrosVersion x = jsMacrosVersion y ->
      precedes x y (JsArray.sort (comparator byJsMacrosVersion d) (List.filter f builds))).
Proof.
  intros Hp Hx Hy.
  assert (Hf : precedes x y (List.filter f builds)) by now apply precedes_filter.
  split; [|split].
  - intros E. apply sort_stable; [assumption|now apply tie_mcVersion].
  - intros Hv E. apply sort_stable; [assumption|].
    apply tie_publishedAt; [|assumption]. apply Hv. now apply precedes_In in Hp.
  - intros Hc E. apply sort_stable; [assumption|now apply tie_jsMacrosVersion].
Qed.

(** X17. The sort keeps two entries that it ranks the same in the order they
    have in the catalog, in both directions: entries with one version tag
    when sorting by tag, with one date (or none) when sorting by date, with
    one software version when sorting by software version. This holds for
    both revisions of the component. *)
Theorem listResults_keeps_catalog_order (builds : list EnrichedBuild)
    (search : string) (d : SortDirection) (x y : EnrichedBuild) :
  precedes x y builds ->
  (searchMatches search x = true -> searchMatches search y = true ->
   (mcVersion x = mcVersion y ->
    precedes x y (listResults dateTime localeCompare builds search byMcVersion d))
   /\ (validDates dateTime builds -> publishedAt x = publishedAt y ->
       precedes x y (listResults dateTime localeCompare builds search byPublishedAt d))
   /\ (consistent localeCompare -> jsMacrosVersion x = jsMacrosVersion y ->
       precedes x y
         (listResults dateTime localeCompare builds search byJsMacrosVersion d)))
  /\ (AppNext.searchMatches sourceUrl deprecated search x = true ->
      AppNext.searchMatches sourceUrl deprecated search y = true ->
      (mcVersion x = mcVersion y ->
       precedes x y
         (AppNext.listResults sourceUrl deprecated dateTime localeCompare
            builds search byMcVersion d))
      /\ (validDates dateTime builds -> publishedAt x = publishedAt y ->
          precedes x y
            (AppNext.listResults sourceUrl deprecated dateTime localeCompare
               builds search byPublishedAt d))
      /\ (consistent localeCompare -> jsMacrosVersion x = jsMacrosVersion y ->
          precedes x y
            (AppNext.listResults sourceUrl deprecated dateTime localeCompare
               builds search byJsMacrosVersion d))).
Proof.
  intros Hp. split; intros Hx Hy; now apply sort_keeps_ties.
Qed.

(** *** The guide of the later revision: newest first *)

Lemma after_newestFirst (a b : EnrichedBuild) :
  wf (stamp a) -> wf (stamp b) ->
  after (AppNext.newestFirst dateTime) a b
  = match lex (ord (stamp a)) (ord (stamp b)) with
    | Lt => true
    | Eq => gtb (compareVersions (mcVersion b) (mcVersion a)) zero
    | Gt => false
    end.
Proof.
  intros Ha Hb. unfold after, AppNext.newestFirst.
  rewrite (eqb_compare _ _ (stamp_valid a Ha) (stamp_valid b Hb)).
  rewrite (compare_ord _ _ Ha Hb).
  pose proof (compare_ord _ _ Hb Ha) as Hc. rewrite lex_antisym in Hc.
  destruct (lex (ord (stamp a)) (ord (stamp b))); simpl in *.
  - reflexivity.
  - destruct (sub_compare _ _ _ Hb Ha Hc) as [[_ E]|[_ Hs]]; [discriminate|].
    now rewrite gtb_zero, Hs.
  - destruct (sub_compare _ _ _ Hb Ha Hc) as [[_ E]|[_ Hs]]; [discriminate|].
    now rewrite gtb_zero, Hs.
Qed.

Lemma lex_gt_trans p q r : lex p q = Gt -> lex q r = Gt -> lex p r = Gt.
Proof.
  intros H1 H2. rewrite lex_antisym in H1, H2 |- *.
  rewrite (lex_lt_trans r q p); [reflexivity| |];
    [destruct (lex r q)|destruct (lex q p)]; simpl in *; congruence.
Qed.

Lemma newestBefore_trans (x y z : EnrichedBuild) :
  newestBefore dateTime x y -> newestBefore dateTime y z -> newestBefore dateTime x z.
Proof.
  unfold newestBefore.
  destruct (lex (ord (stamp x)) (ord (stamp y))) eqn:E1; try contradiction;
    destruct (lex (ord (stamp y)) (ord (stamp z))) eqn:E2; try contradiction;
    intros H1 H2.
  - apply lex_eq in E1. rewrite E1, E2. eapply notAfter_trans; eassumption.
  - apply lex_eq in E1. rewrite E1, E2. exact I.
  - apply lex_eq in E2. rewrite <- E2, E1. exact I.
  - rewrite (lex_gt_trans _ _ _ E1 E2). exact I.
Qed.

Lemma sorted_weaken {A} (R R' : A -> A -> Prop) l :
  (forall x y, R x y -> R' x y) -> StronglySorted R l -> StronglySorted R' l.
Proof.
  intros H. induction 1 as [|x l Hs IH Hx]; constructor; [assumption|].
  eapply List.Forall_impl; [|exact Hx]. apply H.
Qed.

(** X18. The guide of the later revision shows the builds that the guide of
    the earlier revision shows, in another order.  When every date is one
    the host can read, the newest build comes first, and builds of one date
    are in the descending order of their version tags. *)
Theorem guideResults_newest_first (builds : list EnrichedBuild) (v : string)
    (l : option Loader) (exts : list string) :
  Permutation (AppNext.guideResults dateTime builds v l exts)
              (guideResults builds v l exts)
  /\ (validDates dateTime builds ->
      StronglySorted (newestBefore dateTime)
                     (AppNext.guideResults dateTime builds v l exts)
      /\ StronglySorted (fun x y => notLater dateTime y x)
                        (AppNext.guideResults dateTime builds v l exts)).
Proof.
  split; [apply sort_perm|]. intros Hv.
  assert (S : StronglySorted (newestBefore dateTime)
                (AppNext.guideResults dateTime builds v l exts)).
  { unfold AppNext.guideResults.
    apply (sort_sorted _ (fun e : EnrichedBuild => wf (stamp e)));
      [| | |now apply validDates_filter].
    - intros a b Ha Hb H. rewrite after_newestFirst in H by assumption.
      unfold newestBefore. destruct (lex _ _); [assumption|discriminate|exact I].
    - intros a b Ha Hb H. rewrite after_newestFirst in H by assumption.
      unfold newestBefore. rewrite lex_antisym.
      destruct (lex (ord (stamp a)) (ord (stamp b))); simpl;
        [now apply notAfter_total|exact I|discriminate].
    - intros a b c _ _ _. apply newestBefore_trans. }
  split; [exact S|].
  eapply sorted_weaken; [|exact S].
  intros x y. unfold newestBefore, notLater. rewrite (lex_antisym (ord (stamp x))).
  destruct (lex (ord (stamp x)) (ord (stamp y))); simpl; intros H;
    [discriminate|contradiction|discriminate].
Qed.

End Host.
(** A build of 2024-12-10 and a build without a date, listed newest
    first. *)
Lemma publishedAt_sorted_by_date_witness :
  StronglySorted (fun x y => notLater isoDate y x)
    (listResults isoDate caselessCompare
       [sampleEntry ["js"] None "1.8.0"; sampleEntry ["js"] (Some "2024-12-10") "1.9.0"]
       EmptyString byPublishedAt desc).
Proof.
  apply (publishedAt_sorted_by_date isoDate caselessCompare (fun _ => None) (fun _ => false)
           [sampleEntry ["js"] None "1.8.0"; sampleEntry ["js"] (Some "2024-12-10") "1.9.0"]
           EmptyString).
  intros e [<-|[<-|[]]].
  - exact I.
  - vm_compute. discriminate.
Defined.

(** Two builds of 1.21.1 in the list sorted by version tag, descending. *)
Lemma listResults_keeps_catalog_order_witness :
  precedes (sampleEntry ["js"] None "1.8.0") (sampleEntry ["js"] None "1.9.0")
    (listResults isoDate caselessCompare
       [sampleEntry ["js"] None "1.8.0"; sampleEntry ["js"] None "1.9.0"]
       EmptyString byMcVersion desc).
Proof.
  apply (proj1 (proj1 (listResults_keeps_catalog_order isoDate caselessCompare
                         (fun _ => None) (fun _ => false)
                         [sampleEntry ["js"] None "1.8.0"; sampleEntry ["js"] None "1.9.0"]
                         EmptyString desc
                         (sampleEntry ["js"] None "1.8.0") (sampleEntry ["js"] None "1.9.0")
                         ltac:(exists [], [], []; reflexivity)) eq_refl eq_refl)).
  reflexivity.
Defined.

(** The guide of the later revision on a build of 2024-12-10 and a build
    of 2024-12-20. *)
Lemma guideResults_newest_first_witness :
  StronglySorted (newestBefore isoDate)
    (AppNext.guideResults isoDate
       [sampleEntry ["js"] (Some "2024-12-10") "1.8.0";
        sampleEntry ["js"] (Some "2024-12-20") "1.9.0"]
       EmptyString None []).
Proof.
  apply (proj2 (guideResults_newest_first isoDate
                  [sampleEntry ["js"] (Some "2024-12-10") "1.8.0";
                   sampleEntry ["js"] (Some "2024-12-20") "1.9.0"]
                  EmptyString None [])).
  intros e [<-|[<-|[]]]; vm_compute; discriminate.
Defined.

End OrderFacts.

(** ** The component: what it selects, offers and shows *)
Module StateFacts.
Import JsNum JsString Completion Types DataLoader DataLoaderSort JsArray App AppSpec.
Import DecimalVersion AppState.
Import StringFacts NumFacts SortFacts VersionFacts SelectorFacts.
Import DecimalFacts UniqueFacts OrderFacts.
Local Open Scope list_scope.

Lemma guideResults_nonempty builds v l exts (b : EnrichedBuild) :
  In b builds -> guideMatches v l exts b = true ->
  App.guideResults builds v l exts <> [].
Proof.
  intros Hin Hm E.
  assert (H : In b (App.guideResults builds v l exts))
    by (apply filter_In; split; assumption).
  rewrite E in H. destruct H.
Qed.

Lemma guideMatches_version (b : EnrichedBuild) :
  guideMatches (mcVersion b) None [] b = true.
Proof.
  apply guideMatches_spec. split; [reflexivity|]. split.
  - intros l E. discriminate E.
  - intros ext [].
Qed.

Lemma latest_spec (loaded : list EnrichedBuild) :
  loaded <> [] ->
  In (latest loaded) (map mcVersion loaded)
  /\ forall b : EnrichedBuild, In b loaded ->
       gtb (compareVersions (mcVersion b) (latest loaded)) zero = false.
Proof.
  intros Hne. unfold latest.
  pose proof (sortVersions_In (map mcVersion loaded) desc) as Hin.
  destruct (sortVersions_sorted (map mcVersion loaded)) as [_ Hs].
  destruct (sortVersions (map mcVersion loaded) desc) as [|h t] eqn:E.
  - destruct loaded as [|b rest]; [congruence|].
    destruct (proj2 (Hin (mcVersion b)) (or_introl eq_refl)).
  - simpl. split; [apply Hin; now left|].
    intros b Hb. inversion Hs as [|? ? _ Ht]; subst.
    rewrite List.Forall_forall in Ht.
    destruct (proj2 (Hin (mcVersion b)) (in_map mcVersion _ _ Hb)) as [<-|Hb'].
    + rewrite gtb_zero. now rewrite compareVersions_self.
    + now apply Ht.
Qed.

Lemma guide_of_latest (loaded : list EnrichedBuild) :
  loaded <> [] -> App.guideResults loaded (latest loaded) None [] <> [].
Proof.
  intros Hne. destruct (latest_spec loaded Hne) as [Hin _].
  apply in_map_iff in Hin as (b & E & Hb).
  apply (guideResults_nonempty _ _ _ _ b Hb). rewrite <- E.
  apply guideMatches_version.
Qed.

Lemma length_nonempty {A} (l : list A) : l <> [] -> Nat.eqb (length l) 0 = false.
Proof. destruct l; [congruence|reflexivity]. Qed.

Lemma sort_nonempty {A} (cmp : A -> A -> number) (l : list A) :
  l <> [] -> JsArray.sort cmp l <> [].
Proof.
  intros Hne E. apply Hne. apply Permutation_nil.
  rewrite <- E. apply sort_perm.
Qed.

(** X7. When the catalog is loaded with at least one build, the effect ends
    the loading, takes the builds and selects a version tag of the catalog
    after which no tag of the catalog sorts; when the tags are written in
    decimal digits, no tag of the catalog is a later version than the
    selected one.  With no loader and no extension chosen the guide then
    shows at least one build.  So it is for both revisions of the
    component. *)
Theorem onLoaded_selects_latest (r : LoadResult) (st : State) :
  DataLoader.builds r <> [] ->
  (loading (onLoaded initial r st) = false
   /\ builds (onLoaded initial r st) = DataLoader.builds r
   /\ selectedMcVersion (onLoaded initial r st) = latest (DataLoader.builds r)
   /\ selectedMcVersion (onLoadedNext r st) = latest (DataLoader.builds r)
   /\ builds (onLoadedNext r st) = DataLoader.builds r
   /\ loading (onLoadedNext r st) = false)
  /\ In (latest (DataLoader.builds r)) (map mcVersion (DataLoader.builds r))
  /\ (forall b : EnrichedBuild, In b (DataLoader.builds r) ->
        gtb (compareVersions (mcVersion b) (latest (DataLoader.builds r))) zero = false)
  /\ ((forall b : EnrichedBuild, In b (DataLoader.builds r) ->
         decimalVersion (mcVersion b)) ->
      forall b : EnrichedBuild, In b (DataLoader.builds r) ->
        ~ earlier (latest (DataLoader.builds r)) (mcVersion b))
  /\ (selectedLoader st = None -> extensionFilters st = [] ->
      (guideResults (onLoaded initial r st) <> []
       /\ guideEmpty (onLoaded initial r st) = false)
      /\ (forall dateTime : string -> option Z,
            guideResultsNext dateTime (onLoadedNext r st) <> []
            /\ guideEmptyNext dateTime (onLoadedNext r st) = false)).
Proof.
  intros Hne. destruct (latest_spec _ Hne) as [Hin Hmax].
  pose proof (length_nonempty _ Hne) as Hlen.
  pose proof (guide_of_latest _ Hne) as Hg.
  split; [|split; [assumption|split; [assumption|split]]].
  - unfold onLoaded, onLoadedNext. simpl. rewrite Hlen.
    destruct (data r), (DataLoader.error r) as [err|]; try destruct (isEmpty err);
      repeat split; reflexivity.
  - intros Hd b Hb He.
    assert (Dl : decimalVersion (latest (DataLoader.builds r))).
    { apply in_map_iff in Hin as (b' & <- & Hb'). now apply Hd. }
    apply (before_earlier _ _ Dl (Hd b Hb)), gtb_before in He.
    rewrite (Hmax b Hb) in He. discriminate He.
  - intros Hl He.
    assert (G : guideResults (onLoaded initial r st)
                = App.guideResults (DataLoader.builds r) (latest (DataLoader.builds r))
                                   None []).
    { unfold guideResults, onLoaded. simpl. rewrite Hlen.
      destruct (data r), (DataLoader.error r) as [err|]; try destruct (isEmpty err);
        simpl; rewrite Hl, He; reflexivity. }
    assert (L : loading (onLoaded initial r st) = false).
    { unfold onLoaded. simpl. rewrite Hlen.
      destruct (data r), (DataLoader.error r) as [err|]; try destruct (isEmpty err);
        reflexivity. }
    assert (G' : forall dateTime,
               guideResultsNext dateTime (onLoadedNext r st)
               = AppNext.guideResults dateTime (DataLoader.builds r)
                                      (latest (DataLoader.builds r)) None []).
    { intros dateTime. unfold guideResultsNext, onLoadedNext. simpl.
      destruct (data r), (DataLoader.error r) as [err|]; try destruct (isEmpty err);
        simpl; rewrite Hl, He; reflexivity. }
    assert (L' : loading (onLoadedNext r st) = false) by reflexivity.
    split.
    + split; [rewrite G; exact Hg|].
      unfold guideEmpty. rewrite L, G, (length_nonempty _ Hg). reflexivity.
    + intros dateTime.
      assert (N : guideResultsNext dateTime (onLoadedNext r st) <> []).
      { rewrite G'. unfold AppNext.guideResults. apply sort_nonempty. exact Hg. }
      split; [exact N|].
      unfold guideEmptyNext. rewrite L', (length_nonempty _ N). reflexivity.
Qed.

(** A catalog of one build. *)
Lemma onLoaded_selects_latest_witness :
  selectedMcVersion
    (onLoaded initial
       {| data := None; DataLoader.builds := [sampleEntry ["js"] None "1.9.0"];
          DataLoader.error := None |}
       initial)
  = "1.21.1".
Proof.
  apply (proj1 (proj2 (proj2 (proj1 (onLoaded_selects_latest
           {| data := None; DataLoader.builds := [sampleEntry ["js"] None "1.9.0"];
              DataLoader.error := None |}
           initial ltac:(discriminate)))))).
Defined.

(** X6. Whatever [fetch] does, the effect ends the loading and takes the
    builds of the result, in both revisions of the component. After a
    failure there is no build to show, the guide is empty, the date of the
    catalog is as before, and the message is shown unless it is the empty
    string; the selected version is as before in the earlier revision and is
    cleared in the later one. After a retrieval the date of the catalog is
    shown and the error is as before. *)
Theorem load_failure_is_shown (fetch : string -> completion Response) (url : string)
    (st : State) :
  exists r : LoadResult,
    loadBuilds fetch url = Normal r
    /\ (loading (onLoaded initial r st) = false
        /\ builds (onLoaded initial r st) = DataLoader.builds r
        /\ loading (onLoadedNext r st) = false
        /\ builds (onLoadedNext r st) = DataLoader.builds r)
    /\ (forall msg, DataLoader.error r = Some msg ->
          (data r = None /\ DataLoader.builds r = [])
          /\ (guideEmpty (onLoaded initial r st) = true
              /\ selectedMcVersion (onLoaded initial r st) = selectedMcVersion st
              /\ updatedAt (onLoaded initial r st) = updatedAt st
              /\ error (onLoaded initial r st)
                 = if isEmpty msg then error st else Some msg)
          /\ (guideEmpty (onLoadedNext r st) = true
              /\ selectedMcVersion (onLoadedNext r st) = EmptyString
              /\ updatedAt (onLoadedNext r st) = updatedAt st
              /\ error (onLoadedNext r st)
                 = if isEmpty msg then error st else Some msg))
    /\ (DataLoader.error r = None ->
          exists json, data r = Some json
            /\ DataLoader.builds r = flatten (versions json)
            /\ updatedAt (onLoaded initial r st) = Types.updatedAt json
            /\ error (onLoaded initial r st) = error st
            /\ updatedAt (onLoadedNext r st) = Types.updatedAt json
            /\ error (onLoadedNext r st) = error st).
Proof.
  assert (F : forall msg,
            (forall r, r = {| data := None; DataLoader.builds := [];
                              DataLoader.error := Some msg |} ->
                       (loading (onLoaded initial r st) = false
                        /\ builds (onLoaded initial r st) = DataLoader.builds r
                        /\ loading (onLoadedNext r st) = false
                        /\ builds (onLoadedNext r st) = DataLoader.builds r)
                       /\ (forall msg', DataLoader.error r = Some msg' ->
                             (data r = None /\ DataLoader.builds r = [])
                             /\ (guideEmpty (onLoaded initial r st) = true
                                 /\ selectedMcVersion (onLoaded initial r st)
                                    = selectedMcVersion st
                                 /\ updatedAt (onLoaded initial r st) = updatedAt st
                                 /\ error (onLoaded initial r st)
                                    = if isEmpty msg' then error st else Some msg')
                             /\ (guideEmpty (onLoadedNext r st) = true
                                 /\ selectedMcVersion (onLoadedNext r st) = EmptyString
                                 /\ updatedAt (onLoadedNext r st) = updatedAt st
                                 /\ error (onLoadedNext r st)
                                    = if isEmpty msg' then error st else Some msg')))).
  { intros msg r ->. unfold onLoaded, onLoadedNext. simpl.
    split; [destruct (isEmpty msg); repeat split; reflexivity|].
    intros msg' E. inversion E; subst msg'.
    destruct (isEmpty msg); repeat split; reflexivity. }
  unfold loadBuilds. destruct (fetch url) as [res|err]; simpl.
  - destruct (ok res); simpl.
    + destruct (res_json res) as [json|err]; simpl.
      * eexists. split; [reflexivity|]. unfold onLoaded, onLoadedNext. simpl.
        destruct (Nat.eqb (length (flatten (versions json))) 0); simpl;
          (split; [repeat split; reflexivity|split; [discriminate|]]);
          intros _; exists json; repeat split; reflexivity.
      * eexists. split; [reflexivity|].
        edestruct F as [A B]; [reflexivity|].
        split; [exact A|split; [exact B|discriminate]].
    + eexists. split; [reflexivity|].
      edestruct F as [A B]; [reflexivity|].
      split; [exact A|split; [exact B|discriminate]].
  - eexists. split; [reflexivity|].
    edestruct F as [A B]; [reflexivity|].
    split; [exact A|split; [exact B|discriminate]].
Qed.

Lemma loaderName_inj a b : loaderName a = loaderName b -> a = b.
Proof. destruct a, b; simpl; intros E; congruence. Qed.

(** X8. The three controls of the guide offer what the catalog holds, each
    option once: the version tags, the loaders and the extensions of its
    builds; and every option, chosen alone, leaves at least one build. *)
Theorem options_offer_builds (st : State) :
  ((forall v, In v (mcVersions st)
              <-> exists b : EnrichedBuild, In b (builds st) /\ mcVersion b = v)
   /\ List.NoDup (mcVersions st)
   /\ forall v, In v (mcVersions st) -> App.guideResults (builds st) v None [] <> [])
  /\ ((forall l : Loader,
         In (loaderName l) (loaders st)
         <-> exists b : EnrichedBuild, In b (builds st) /\ In l (modLoader b))
      /\ List.NoDup (loaders st)
      /\ forall l : Loader, In (loaderName l) (loaders st) ->
           App.guideResults (builds st) EmptyString (Some l) [] <> [])
  /\ ((forall x, In x (extensions st)
                 <-> exists b : EnrichedBuild, In b (builds st) /\ In x (Types.extensions b))
      /\ List.NoDup (extensions st)
      /\ forall x, In x (extensions st) ->
           App.guideResults (builds st) EmptyString None [x] <> []).
Proof.
  assert (V : forall v, In v (mcVersions st)
                        <-> exists b : EnrichedBuild, In b (builds st) /\ mcVersion b = v).
  { intros v. unfold mcVersions. rewrite sortVersions_In, in_map_iff.
    split; intros (b & H1 & H2); exists b; auto. }
  assert (L : forall l : Loader,
            In (loaderName l) (loaders st)
            <-> exists b : EnrichedBuild, In b (builds st) /\ In l (modLoader b)).
  { intros l. unfold loaders. rewrite uniqueSorted_In, in_flat_map. split.
    - intros (b & Hb & Hl). apply in_map_iff in Hl as (l' & E & Hl').
      apply loaderName_inj in E. subst l'. eauto.
    - intros (b & Hb & Hl). exists b. split; [assumption|]. now apply in_map. }
  assert (X : forall x, In x (extensions st)
                        <-> exists b : EnrichedBuild, In b (builds st) /\ In x (Types.extensions b)).
  { intros x. unfold extensions. rewrite uniqueSorted_In, in_flat_map. reflexivity. }
  split; [|split].
  - split; [exact V|]. split; [apply sortVersions_NoDup|].
    intros v Hv. apply V in Hv as (b & Hb & <-).
    apply (guideResults_nonempty _ _ _ _ b Hb), guideMatches_version.
  - split; [exact L|]. split; [apply uniqueSorted_NoDup|].
    intros l Hl. apply L in Hl as (b & Hb & Hl).
    apply (guideResults_nonempty _ _ _ _ b Hb), guideMatches_spec.
    split; [intros N; now destruct N|]. split.
    + intros l' E. inversion E; subst. assumption.
    + intros ext [].
  - split; [exact X|]. split; [apply uniqueSorted_NoDup|].
    intros x Hx. apply X in Hx as (b & Hb & Hx).
    apply (guideResults_nonempty _ _ _ _ b Hb), guideMatches_spec.
    split; [intros N; now destruct N|]. split.
    + intros l' E. discriminate E.
    + intros ext [<-|[]]. assumption.
Qed.

Lemma filter_filter {A} (f g : A -> bool) l :
  List.filter f (List.filter g l) = List.filter (fun x => g x && f x) l.
Proof.
  induction l as [|x l IH]; [reflexivity|]. simpl.
  destruct (g x); simpl; [destruct (f x)|]; now rewrite IH.
Qed.

Lemma buildMatchesExtensions_app b l1 l2 :
  buildMatchesExtensions b (l1 ++ l2)
  = buildMatchesExtensions b l1 && buildMatchesExtensions b l2.
Proof.
  apply eq_true_iff_eq. rewrite andb_true_iff, !buildMatchesExtensions_spec.
  split.
  - intros H. split; intros ext Hin; apply H, in_or_app; auto.
  - intros [H1 H2] ext Hin. apply in_app_or in Hin as [Hin|Hin]; auto.
Qed.

(** X10. Ticking the box of an extension adds it to the requirements, and
    the guide keeps of its builds those that have the extension; clearing
    the box removes the extension and drops no build from the guide. The box
    shows what the requirements hold, the other boxes are not touched, and
    ticking and then clearing a box that was clear gives the requirements
    back. The guide depends on which extensions are required, not on their
    order. *)
Theorem extension_toggle (ext : string) (st : State) :
  checked (onExtensionChange ext true st) ext = true
  /\ checked (onExtensionChange ext false st) ext = false
  /\ (forall other nowChecked, other <> ext ->
        checked (onExtensionChange ext nowChecked st) other = checked st other)
  /\ (checked st ext = false ->
      extensionFilters (onExtensionChange ext false (onExtensionChange ext true st))
      = extensionFilters st)
  /\ guideResults (onExtensionChange ext true st)
     = List.filter (fun b : EnrichedBuild => existsb (String.eqb ext) (Types.extensions b))
                   (guideResults st)
  /\ (forall e, In e (guideResults st) ->
                In e (guideResults (onExtensionChange ext false st)))
  /\ (forall builds v l exts1 exts2,
        (forall x, In x exts1 <-> In x exts2) ->
        App.guideResults builds v l exts1 = App.guideResults builds v l exts2).
Proof.
  split; [|split; [|split; [|split; [|split; [|split]]]]].
  - unfold checked, onExtensionChange. simpl. apply existsb_string.
    apply in_or_app. right. now left.
  - unfold checked, onExtensionChange. simpl.
    destruct (existsb _ _) eqn:E; [|reflexivity].
    apply existsb_string, filter_In in E as [_ E].
    now rewrite String.eqb_refl in E.
  - intros other nowChecked Hne. unfold checked, onExtensionChange. simpl.
    apply eq_true_iff_eq. rewrite !existsb_string. destruct nowChecked.
    + rewrite in_app_iff. simpl. split; [intros [H|[H|[]]]; congruence|auto].
    + rewrite filter_In. split; [tauto|]. intros H. split; [assumption|].
      apply negb_true_iff, String.eqb_neq. assumption.
  - intros Hc. unfold checked in Hc. unfold onExtensionChange. simpl.
    rewrite List.filter_app. simpl. rewrite String.eqb_refl. simpl.
    rewrite app_nil_r. induction (extensionFilters st) as [|x l IH]; [reflexivity|].
    simpl in Hc. apply orb_false_iff in Hc as [Hx Hl]. simpl.
    rewrite String.eqb_sym, Hx. simpl. f_equal. now apply IH.
  - unfold guideResults, onExtensionChange, App.guideResults. simpl.
    rewrite filter_filter. apply filter_ext. intros b.
    rewrite !guideMatches_and, buildMatchesExtensions_app.
    unfold buildMatchesExtensions at 2. simpl. now rewrite andb_true_r, andb_assoc.
  - intros e. unfold guideResults, onExtensionChange, App.guideResults. simpl.
    rewrite !filter_In, !guideMatches_spec. intros [Hin (H1 & H2 & H3)].
    split; [assumption|]. split; [assumption|split; [assumption|]].
    intros x Hx. apply filter_In in Hx as [Hx _]. now apply H3.
  - intros builds v l exts1 exts2 H. unfold App.guideResults.
    apply filter_ext. intros b. apply eq_true_iff_eq.
    rewrite !guideMatches_spec. unfold meetsCriteria.
    split; intros (H1 & H2 & H3); (split; [assumption|split; [assumption|]]);
      intros x Hx; apply H3, H; assumption.
Qed.

Lemma flatten_In groups (e : EnrichedBuild) :
  In e (flatten groups)
  <-> exists arr, In (mcVersion e, arr) groups /\ In (build e) arr.
Proof.
  unfold flatten. rewrite in_flat_map. split.
  - intros ([k arr] & Hin & He). apply in_map_iff in He as (b & <- & Hb).
    exists arr. auto.
  - intros (arr & Hin & Hb). exists (mcVersion e, arr). split; [assumption|].
    apply in_map_iff. exists (build e). split; [|assumption]. now destruct e.
Qed.

(** X9. After the catalog is loaded the control of the version offers the
    keys of the catalog that have at least one build, and no other text: a
    version whose group is empty is not offered. So it is for both revisions
    of the component. *)
Theorem offered_versions_have_builds (json : BuildsData) (st : State) (v : string) :
  (In v (mcVersions (onLoaded initial
                       {| data := Some json;
                          DataLoader.builds := flatten (versions json);
                          DataLoader.error := None |} st))
   <-> exists arr, In (v, arr) (versions json) /\ arr <> [])
  /\ (In v (mcVersions (onLoadedNext
                          {| data := Some json;
                             DataLoader.builds := flatten (versions json);
                             DataLoader.error := None |} st))
      <-> exists arr, In (v, arr) (versions json) /\ arr <> []).
Proof.
  assert (E : builds (onLoaded initial
                        {| data := Some json;
                           DataLoader.builds := flatten (versions json);
                           DataLoader.error := None |} st)
              = flatten (versions json)).
  { unfold onLoaded. simpl.
    destruct (negb (Nat.eqb (length (flatten (versions json))) 0)); reflexivity. }
  assert (G : In v (sortVersions (map mcVersion (flatten (versions json))) desc)
              <-> exists arr, In (v, arr) (versions json) /\ arr <> []).
  { rewrite sortVersions_In, in_map_iff. split.
    - intros (e & <- & He). apply flatten_In in He as (arr & Hin & Hb).
      exists arr. split; [assumption|]. intros N. rewrite N in Hb. destruct Hb.
    - intros (arr & Hin & Hne). destruct arr as [|b arr]; [congruence|].
      exists {| build := b; mcVersion := v |}. split; [reflexivity|].
      apply flatten_In. exists (b :: arr). simpl. auto. }
  split.
  - unfold mcVersions. rewrite E. exact G.
  - exact G.
Qed.

(** Ticking js on a catalog of one build that has js. *)
Lemma extension_toggle_witness :
  extensionFilters
    (onExtensionChange "js" false (onExtensionChange "js" true initial))
  = extensionFilters initial.
Proof.
  apply (proj1 (proj2 (proj2 (proj2 (extension_toggle "js" initial))))).
  reflexivity.
Defined.

(** A catalog of one build: its version is offered and leaves the build. *)
Lemma options_offer_builds_witness :
  In "1.21.1" (mcVersions (setBuilds [sampleEntry ["js"] None "1.9.0"] initial))
  /\ App.guideResults
       (builds (setBuilds [sampleEntry ["js"] None "1.9.0"] initial)) "1.21.1" None []
     <> [].
Proof.
  assert (H : In "1.21.1" (mcVersions (setBuilds [sampleEntry ["js"] None "1.9.0"] initial)))
    by (vm_compute; left; reflexivity).
  split; [exact H|].
  exact (proj2 (proj2 (proj1 (options_offer_builds
           (setBuilds [sampleEntry ["js"] None "1.9.0"] initial)))) "1.21.1" H).
Defined.

End StateFacts.

(** ** The run of the validator, and what a valid catalog gives the lists *)
Module RunFacts.
Import JsString Completion Types DataLoader JsArray App Validate CatalogSpec ValidateRun.
Import StringFacts SortFacts ValidateFacts.
Local Open Scope string_scope.
Local Open Scope list_scope.

(** The check passes exactly on the catalogs without a repeated id. *)
Lemma checkDuplicates_exit file data :
  (List.NoDup (allIds (versions data)) ->
   checkDuplicates file data
   = {| exitCode := 0; stderr := []; stdout := [(file ++ " is valid.")%string] |})
  /\ (~ List.NoDup (allIds (versions data)) ->
      exitCode (checkDuplicates file data) = 1%Z
      /\ stdout (checkDuplicates file data) = []
      /\ length (stderr (checkDuplicates file data)) = 1%nat).
Proof.
  pose proof (scanGroups_spec [] ∅ (versions data)) as H.
  specialize (H ltac:(intros x; rewrite elem_of_empty; simpl; tauto) (List.NoDup_nil _)).
  unfold checkDuplicates. simpl in H.
  destruct (scanGroups ∅ (versions data)) as [[dup mc]|]; split.
  - intros N. exfalso. exact (firstDuplicate_not_NoDup _ dup mc H N).
  - intros _. repeat split; reflexivity.
  - intros _. reflexivity.
  - intros N. contradiction.
Qed.

Lemma NoDup_dec_ids (l : list string) : List.NoDup l \/ ~ List.NoDup l.
Proof.
  destruct (ListDec.NoDup_dec string_dec l); auto.
Qed.

Section Run.
Variable Json : Type.
Variable readFile : string -> completion string.
Variable parse : string -> completion Json.
Variable safeParse : Json -> SafeParse.
Variable basename : string -> string.
Variable inspect : thrown -> string.

Local Abbreviation run := (ValidateRun.run Json readFile parse safeParse basename inspect).

(** X20. The run of the validator ends with exit code 0 or 1. It ends with 0
    exactly when a file is named, is read, is parsed as JSON, is accepted by
    the schema and holds no id twice; it then prints that the file is valid,
    and nothing on the error stream. Every other run ends with 1, prints no
    such line, and prints at least one line on the error stream; when the
    schema rejects the file there is one line for each issue after the first
    line. *)
Theorem run_reports_every_failure (file : option string) :
  (exitCode (run file) = 0%Z \/ exitCode (run file) = 1%Z)
  /\ (exitCode (run file) = 0%Z
      <-> exists name raw parsed data,
            file = Some name /\ name <> EmptyString
            /\ readFile name = Normal raw /\ parse raw = Normal parsed
            /\ safeParse parsed = success data
            /\ List.NoDup (allIds (versions data)))
  /\ (exitCode (run file) = 0%Z ->
      stderr (run file) = []
      /\ exists name, file = Some name
           /\ stdout (run file) = [(basename name ++ " is valid.")%string])
  /\ (exitCode (run file) = 1%Z -> stdout (run file) = [] /\ stderr (run file) <> [])
  /\ (forall name raw parsed errors,
        file = Some name -> name <> EmptyString ->
        readFile name = Normal raw -> parse raw = Normal parsed ->
        safeParse parsed = failure errors ->
        stderr (run file)
        = ("Validation failed for " ++ basename name ++ ":")%string :: map issueLine errors).
Proof.
  unfold ValidateRun.run, main.
  destruct file as [name|].
  2:{ simpl. split; [now right|]. split.
      - split; [discriminate|]. intros (? & ? & ? & ? & E & _). discriminate E.
      - split; [discriminate|]. split; [intros _; split; [reflexivity|discriminate]|].
        intros ? ? ? ? E. discriminate E. }
  destruct (isEmpty name) eqn:En.
  { apply isEmpty_true in En. simpl. split; [now right|]. split.
    - split; [discriminate|]. intros (? & ? & ? & ? & E & N & _).
      inversion E; subst. congruence.
    - split; [discriminate|]. split; [intros _; split; [reflexivity|discriminate]|].
      intros ? ? ? ? E N. inversion E; subst. congruence. }
  assert (Hn : name <> EmptyString).
  { intros E. rewrite E in En. discriminate En. }
  destruct (readFile name) as [raw|e1] eqn:R; simpl.
  2:{ split; [now right|]. split.
      - split; [discriminate|]. intros (? & ? & ? & ? & E & _ & R' & _).
        inversion E; subst. congruence.
      - split; [discriminate|]. split; [intros _; split; [reflexivity|discriminate]|].
        intros ? ? ? ? E _ R' _ _. inversion E; subst. congruence. }
  destruct (parse raw) as [parsed|e2] eqn:P; simpl.
  2:{ split; [now right|]. split.
      - split; [discriminate|]. intros (? & ? & ? & ? & E & _ & R' & P' & _).
        inversion E; subst. rewrite R in R'. inversion R'; subst. congruence.
      - split; [discriminate|]. split; [intros _; split; [reflexivity|discriminate]|].
        intros ? ? ? ? E _ R' P' _. inversion E; subst.
        rewrite R in R'. inversion R'; subst. congruence. }
  destruct (safeParse parsed) as [data|errors] eqn:S; simpl.
  2:{ split; [now right|]. split.
      - split; [discriminate|]. intros (? & ? & ? & ? & E & _ & R' & P' & S' & _).
        inversion E; subst. rewrite R in R'. inversion R'; subst.
        rewrite P in P'. inversion P'; subst. congruence.
      - split; [discriminate|]. split; [intros _; split; [reflexivity|discriminate]|].
        intros ? ? ? ? E _ R' P' S'. inversion E; subst.
        rewrite R in R'. inversion R'; subst.
        rewrite P in P'. inversion P'; subst. congruence. }
  destruct (checkDuplicates_exit (basename name) data) as [Hok Hbad].
  destruct (NoDup_dec_ids (allIds (versions data))) as [N|N].
  - rewrite (Hok N). simpl. split; [now left|]. split.
    + split; [|reflexivity]. intros _. exists name, raw, parsed, data.
      repeat split; assumption || reflexivity.
    + split; [intros _; split; [reflexivity|eauto]|]. split; [discriminate|].
      intros ? ? ? ? E _ R' P' S'. inversion E; subst.
      rewrite R in R'. inversion R'; subst.
      rewrite P in P'. inversion P'; subst. congruence.
  - destruct (Hbad N) as (He & Ho & Hl). rewrite He, Ho. split; [now right|]. split.
    + split; [discriminate|]. intros (? & ? & ? & ? & E & _ & R' & P' & S' & N').
      inversion E; subst. rewrite R in R'. inversion R'; subst.
      rewrite P in P'. inversion P'; subst. rewrite S in S'. inversion S'; subst.
      contradiction.
    + split; [discriminate|]. split.
      * intros _. split; [reflexivity|]. intros E. rewrite E in Hl. discriminate Hl.
      * intros ? ? ? ? E _ R' P' S'. inversion E; subst.
        rewrite R in R'. inversion R'; subst.
        rewrite P in P'. inversion P'; subst. congruence.
Qed.

End Run.

(** A file that cannot be read: the run ends with exit code 1 and one line
    on the error stream. *)
Lemma run_reports_every_failure_witness :
  stdout (ValidateRun.run unit (fun _ => Throw (ErrorObject "ENOENT"))
            (fun _ => Normal tt) (fun _ => failure [])
            (fun s => s) CatalogSpec.messageOf (Some "builds.json")) = []
  /\ stderr (ValidateRun.run unit (fun _ => Throw (ErrorObject "ENOENT"))
               (fun _ => Normal tt) (fun _ => failure [])
               (fun s => s) CatalogSpec.messageOf (Some "builds.json")) <> [].
Proof.
  apply (proj1 (proj2 (proj2 (proj2
           (run_reports_every_failure unit (fun _ => Throw (ErrorObject "ENOENT"))
              (fun _ => Normal tt) (fun _ => failure [])
              (fun s => s) CatalogSpec.messageOf (Some "builds.json")))))).
  reflexivity.
Defined.

(** *** The keys of the rendered lists *)

Lemma flatten_ids groups :
  map (fun e : EnrichedBuild => id e) (flatten groups) = allIds groups.
Proof.
  unfold allIds, tagged, flatten.
  induction groups as [|[mc bs] rest IH]; [reflexivity|].
  simpl. rewrite !map_app, IH, !map_map. reflexivity.
Qed.

Lemma NoDup_map_filter {A B} (g : A -> B) (f : A -> bool) l :
  List.NoDup (map g l) -> List.NoDup (map g (List.filter f l)).
Proof.
  induction l as [|x l IH]; simpl; intros N; [constructor|].
  inversion N as [|? ? Hx Hl]; subst.
  destruct (f x); simpl; [|now apply IH].
  constructor; [|now apply IH].
  intros Hin. apply Hx. apply in_map_iff in Hin as (y & E & Hy).
  apply filter_In in Hy as [Hy _]. apply in_map_iff. eauto.
Qed.

Lemma NoDup_map_sort {A B} (g : A -> B) (cmp : A -> A -> JsNum.number) l :
  List.NoDup (map g l) -> List.NoDup (map g (JsArray.sort cmp l)).
Proof.
  apply Permutation_NoDup, Permutation_map. symmetry. apply sort_perm.
Qed.

(** X21. The lists are rendered with the id of a build as its key. On a
    catalog that passes the check for duplicate ids, no key occurs twice:
    not among the loaded builds, not in the guide, and not in the list,
    whatever is selected, searched and sorted by, in both revisions of the
    component. *)
Theorem valid_catalog_unique_keys (file : string) (data : BuildsData)
    (dateTime : string -> option Z) (localeCompare : string -> string -> Z)
    (sourceUrl : EnrichedBuild -> option string) (deprecated : EnrichedBuild -> bool) :
  exitCode (checkDuplicates file data) = 0%Z ->
  List.NoDup (map (fun e : EnrichedBuild => id e) (flatten (versions data)))
  /\ (forall v l exts,
        List.NoDup (map (fun e : EnrichedBuild => id e)
                      (guideResults (flatten (versions data)) v l exts))
        /\ List.NoDup (map (fun e : EnrichedBuild => id e)
                         (AppNext.guideResults dateTime (flatten (versions data)) v l exts)))
  /\ (forall search key d,
        List.NoDup (map (fun e : EnrichedBuild => id e)
                      (listResults dateTime localeCompare
                         (flatten (versions data)) search key d))
        /\ List.NoDup (map (fun e : EnrichedBuild => id e)
                         (AppNext.listResults sourceUrl deprecated dateTime localeCompare
                            (flatten (versions data)) search key d))).
Proof.
  intros He.
  assert (N : List.NoDup (map (fun e : EnrichedBuild => id e) (flatten (versions data)))).
  { rewrite flatten_ids.
    destruct (checkDuplicates_exit file data) as [_ Hbad].
    destruct (NoDup_dec_ids (allIds (versions data))) as [N|N]; [assumption|].
    destruct (Hbad N) as [E _]. rewrite E in He. discriminate He. }
  split; [exact N|]. split.
  - intros v l exts. split.
    + now apply NoDup_map_filter.
    + now apply NoDup_map_sort, NoDup_map_filter.
  - intros search key d. split; now apply NoDup_map_sort, NoDup_map_filter.
Qed.

(** A catalog of two builds with two ids. *)
Lemma valid_catalog_unique_keys_witness :
  List.NoDup
    (map (fun e : EnrichedBuild => id e)
       (flatten [("1.19.1", [AppSpec.sampleBuild [] None "2.1.0"]);
                 ("1.21.1", [AppSpec.sampleBuild [] None "2.2.0"])])).
Proof.
  apply (proj1 (valid_catalog_unique_keys "builds.json"
           {| updatedAt := "2025-01-05";
              versions := [("1.19.1", [AppSpec.sampleBuild [] None "2.1.0"]);
                           ("1.21.1", [AppSpec.sampleBuild [] None "2.2.0"])] |}
           (fun _ => None) (fun _ _ => 0%Z) (fun _ => None) (fun _ => false)
           ltac:(vm_compute; reflexivity))).
Defined.

End RunFacts.

(** ** The label of the platforms, and the case of letters in the search *)
Module ViewFacts.
Import JsNum JsString Types DataLoader JsArray App AppSpec ListSpec AppView.
Import StringFacts NumFacts SortFacts VersionFacts SelectorFacts.
Import StableFacts UniqueFacts SearchFacts OrderFacts.
Local Open Scope string_scope.
Local Open Scope list_scope.

(** *** The label of the platforms *)

Lemma hasChar_app c a b : hasChar c (a ++ b)%string = hasChar c a || hasChar c b.
Proof.
  induction a as [|d a IH]; [reflexivity|].
  rewrite append_cons. simpl. now rewrite IH, orb_assoc.
Qed.

(** Two texts without [c], each followed by [c], are told apart. *)
Lemma separator_splits c a b r1 r2 :
  hasChar c a = false -> hasChar c b = false ->
  (a ++ String c r1)%string = (b ++ String c r2)%string -> a = b /\ r1 = r2.
Proof.
  revert b. induction a as [|x a IH]; intros [|y b] Ha Hb E.
  - inversion E. auto.
  - rewrite append_cons in E. inversion E; subst y.
    simpl in Hb. now rewrite Ascii.eqb_refl in Hb.
  - rewrite append_cons in E. inversion E; subst x.
    simpl in Ha. now rewrite Ascii.eqb_refl in Ha.
  - rewrite !append_cons in E. inversion E; subst y.
    simpl in Ha, Hb. apply orb_false_iff in Ha as [_ Ha]. apply orb_false_iff in Hb as [_ Hb].
    destruct (IH b Ha Hb H1) as [-> ->]. auto.
Qed.

Lemma platformName_plain p :
  hasChar "," (platformName p) = false /\ platformName p <> EmptyString.
Proof. destruct p; split; (reflexivity || discriminate). Qed.

Lemma platformName_inj p q : platformName p = platformName q -> p = q.
Proof. destruct p, q; simpl; intros E; congruence. Qed.

Lemma join_cons2 sep x y l :
  join sep (x :: y :: l) = (x ++ sep ++ join sep (y :: l))%string.
Proof. reflexivity. Qed.

Lemma platform_names_inj l1 l2 :
  join ", " (map platformName l1) = join ", " (map platformName l2) -> l1 = l2.
Proof.
  revert l2. induction l1 as [|x xs IH]; intros [|y ys] E.
  - reflexivity.
  - exfalso. destruct (platformName_plain y) as [_ N].
    destruct ys; simpl in E; [congruence|].
    destruct (platformName y); [congruence|discriminate E].
  - exfalso. destruct (platformName_plain x) as [_ N].
    destruct xs; simpl in E; [congruence|].
    destruct (platformName x); [congruence|discriminate E].
  - destruct (platformName_plain x) as [Cx _], (platformName_plain y) as [Cy _].
    destruct xs as [|x' xs], ys as [|y' ys].
    + simpl in E. apply platformName_inj in E. now subst.
    + exfalso. simpl map in E. rewrite join_cons2 in E. simpl join in E at 1.
      rewrite E, hasChar_app in Cx. apply orb_false_iff in Cx as [_ Cx].
      discriminate Cx.
    + exfalso. simpl map in E. rewrite join_cons2 in E. simpl join in E at 2.
      rewrite <- E, hasChar_app in Cy. apply orb_false_iff in Cy as [_ Cy].
      discriminate Cy.
    + simpl map in E. rewrite !join_cons2 in E.
      change (", " ++ ?r)%string with (String "," (String " " r)) in E.
      destruct (separator_splits _ _ _ _ _ Cx Cy E) as [Hxy Hr].
      apply platformName_inj in Hxy. subst y. f_equal.
      apply IH. injection Hr as Hr'. exact Hr'.
Qed.

Lemma platformLabel_join p :
  platformLabel p = join ", " (map platformName (platformsOf p)).
Proof. destruct p; reflexivity. Qed.

(** X19. The label of a download tells its platforms: it is their names in
    order, separated by a comma and a space; one platform and the array of
    that platform alone have one label, and no two different sequences of
    platforms have. *)
Theorem platformLabel_tells_platforms (p q : Platform + list Platform) :
  platformLabel p = join ", " (map platformName (platformsOf p))
  /\ (platformLabel p = platformLabel q <-> platformsOf p = platformsOf q)
  /\ (platformLabel p = EmptyString <-> platformsOf p = []).
Proof.
  split; [apply platformLabel_join|]. split.
  - rewrite !platformLabel_join. split; [apply platform_names_inj|now intros ->].
  - rewrite platformLabel_join.
    change EmptyString with (join ", " (map platformName [])).
    split; [apply platform_names_inj|now intros ->].
Qed.

(** *** The search and the case of letters *)

Lemma lowerChar_space c : isWhiteSpace (lowerChar c) = isWhiteSpace c.
Proof. destruct c as [[] [] [] [] [] [] [] []]; reflexivity. Qed.

Lemma lowerChar_idem c : lowerChar (lowerChar c) = lowerChar c.
Proof. destruct c as [[] [] [] [] [] [] [] []]; reflexivity. Qed.

Lemma toLowerCase_idem s : toLowerCase (toLowerCase s) = toLowerCase s.
Proof. induction s as [|c s IH]; simpl; [reflexivity|]. now rewrite lowerChar_idem, IH. Qed.

Lemma trimStart_lower s : trimStart (toLowerCase s) = toLowerCase (trimStart s).
Proof.
  induction s as [|c s IH]; [reflexivity|].
  simpl. rewrite lowerChar_space. destruct (isWhiteSpace c); [exact IH|reflexivity].
Qed.

Lemma trimEnd_lower s : trimEnd (toLowerCase s) = toLowerCase (trimEnd s).
Proof.
  induction s as [|c s IH]; [reflexivity|].
  simpl toLowerCase. rewrite !trimEnd_cons, IH, lowerChar_space.
  destruct (trimEnd s); simpl; [destruct (isWhiteSpace c)|]; reflexivity.
Qed.

Lemma trim_lower s : toLowerCase (trim s) = trim (toLowerCase s).
Proof. unfold trim. now rewrite trimStart_lower, trimEnd_lower. Qed.

(** X13. The search takes no account of the case of the letters, in the
    query and in the entry: two queries that are equal in lower case find
    the same entries, and a query finds what its lower-case form finds. *)
Theorem search_ignores_case (sourceUrl : EnrichedBuild -> option string)
    (deprecated : EnrichedBuild -> bool) (q1 q2 : string) (e : EnrichedBuild) :
  toLowerCase q1 = toLowerCase q2 ->
  searchMatches q1 e = searchMatches q2 e
  /\ AppNext.searchMatches sourceUrl deprecated q1 e
     = AppNext.searchMatches sourceUrl deprecated q2 e
  /\ searchMatches (toLowerCase q1) e = searchMatches q1 e.
Proof.
  intros E.
  assert (T : toLowerCase (trim q1) = toLowerCase (trim q2))
    by (now rewrite !trim_lower, E).
  unfold searchMatches, AppNext.searchMatches. rewrite T.
  split; [reflexivity|]. split; [reflexivity|].
  now rewrite <- T, trim_lower, toLowerCase_idem, <- trim_lower.
Qed.

Lemma search_ignores_case_witness :
  searchMatches "FABRIC" (sampleEntry ["js"] None "1.9.0")
  = searchMatches "fabric" (sampleEntry ["js"] None "1.9.0").
Proof.
  apply (proj1 (search_ignores_case (fun _ => None) (fun _ => false)
                  "FABRIC" "fabric" (sampleEntry ["js"] None "1.9.0") eq_refl)).
Defined.

End ViewFacts.
